(** * EGeoGNN encoder and EGEM pretraining heads (models/gin/model.py)

    A shallow embedding of [EGeoGNNModel] (masking, hierarchical forward
    pass) and of [EGEM] (index resolution of the regression heads, loss
    accumulation), with the properties of the written specification stated
    over it.

    Conventions.
    - Python exceptions are values of [exn]; a computation that may raise has
      type [result A].
    - Tensors handed in by the caller live in a store of objects ([heap]) and
      are passed by reference ([loc]), so that in-place index assignment and
      [copy.deepcopy] have their aliasing behaviour.
    - Floating point numbers are read as exact rationals ([Qc]); rounding is
      outside the model.
    - Sub-layers defined in other modules of the repository
      ([AtomBondEmbedding], the RBF layers, [EGeoGNNBlock], [MLP]) and the
      vocabulary table [get_feature_dims] are parameters of the model. *)

From Stdlib Require Import ZArith QArith Qcanon.
From stdpp Require Import base option numbers list strings gmap fin_maps.

Open Scope Z_scope.

#[local] Set Warnings "-clear-no-such-hyp".

(** ** Exceptions and results *)

Inductive exn : Type :=
  | IndexError            (* index out of range (list, tensor, tuple) *)
  | TypeError             (* e.g. [None] where a tensor is required *)
  | AttributeError        (* e.g. [.detach()] on a Python int *)
  | RuntimeError          (* torch shape, size and overflow errors *)
  | UnboundLocalError     (* local variable read before assignment *)
  | Unallocated.          (* model only: a reference to no object *)

Inductive result (A : Type) : Type :=
  | Ok (a : A)
  | Raise (e : exn).
Arguments Ok {A} a.
Arguments Raise {A} e.

#[global] Instance exn_eq_dec : EqDecision exn.
Proof. solve_decision. Defined.

#[global] Instance result_ret : MRet result := @Ok.
#[global] Instance result_bind : MBind result := fun A B f m =>
  match m with
  | Ok a => f a
  | Raise e => Raise e
  end.

(** Monadic iteration over a list, left to right (a Python [for] loop whose
    body may raise). *)
Fixpoint mapM {A B} (f : A -> result B) (xs : list A) : result (list B) :=
  match xs with
  | [] => Ok []
  | x :: xs' => y ← f x; ys ← mapM f xs'; Ok (y :: ys)
  end.

(** ** Tensors *)

(** A float tensor of shape (n): a list of scalars.  A hidden representation
    of shape (n, D): a list of n rows. *)
Abbreviation scalar := Qc.
Abbreviation vec := (list Qc).
Abbreviation tensor := (list (list Qc)).

(** An integer (long) index tensor of shape (n). *)
Abbreviation indices := (list Z).

(** An edge-index tensor of shape (2, E): column e is the edge e, a pair of
    node indices (row 0, row 1). *)
Abbreviation edges := (list (Z * Z)).

(** Python / torch indexing with a long tensor in [t[idx] = v]: an index in
    [-n, n) addresses position [idx mod n]; any other index is an IndexError. *)
Definition norm_index (n : nat) (idx : Z) : option nat :=
  if decide (0 <= idx < Z.of_nat n) then Some (Z.to_nat idx)
  else if decide (- Z.of_nat n <= idx < 0) then Some (Z.to_nat (idx + Z.of_nat n))
  else None.

Definition norm_indices (n : nat) (ids : indices) : result (list nat) :=
  mapM (fun i => match norm_index n i with
                 | Some r => Ok r
                 | None => Raise IndexError
                 end) ids.

(** [index_select] accepts only indices in [0, n). *)
Definition select_index (n : nat) (idx : Z) : result nat :=
  if decide (0 <= idx < Z.of_nat n) then Ok (Z.to_nat idx) else Raise IndexError.

Definition index_select {A} (t : list A) (ids : indices) : result (list A) :=
  mapM (fun i => r ← select_index (length t) i;
                 match t !! r with
                 | Some a => Ok a
                 | None => Raise IndexError
                 end) ids.

(** Python list indexing with a non-negative loop counter. *)
Definition list_get {A} (l : list A) (i : nat) : result A :=
  match l !! i with
  | Some a => Ok a
  | None => Raise IndexError
  end.

(** ** The object store *)

Definition loc := positive.

(** The two kinds of tensors the caller hands to the encoder: a categorical
    feature matrix of shape (n, F) and a vector of n scalars. *)
Inductive tval : Type :=
  | LongT (ncol : nat) (rows : list (list Z))
  | FloatT (v : vec).

Abbreviation heap := (gmap loc tval).

(** A call of a message-passing block ([EGeoGNNBlock.forward]) with its four
    keyword arguments.  The calls made so far are part of the state, so that
    what [forward] hands to its blocks can be stated. *)
Inductive block_id : Type := AtomBondBlock | BondAngleBlock | AngleDihedralBlock.

Record call : Type := Call {
  callee : block_id;
  layer : nat;
  node_hidden_arg : tensor;
  edge_hidden_arg : tensor;
  edge_index_arg : edges;
  node_batches_arg : indices
}.

#[global] Instance block_id_eq_dec : EqDecision block_id.
Proof. solve_decision. Defined.

Record world : Type := World {
  store : heap;
  calls : list call
}.

(** Computations over the state.  The state is returned in both outcomes: an
    exception does not undo the writes made before it. *)
Definition M (A : Type) : Type := world -> result A * world.

#[global] Instance M_ret : MRet M := fun A a w => (Ok a, w).
#[global] Instance M_bind : MBind M := fun A B f m w =>
  match m w with
  | (Ok a, w') => f a w'
  | (Raise e, w') => (Raise e, w')
  end.

Definition throw {A} (e : exn) : M A := fun w => (Raise e, w).
Definition lift {A} (r : result A) : M A := fun w => (r, w).
Definition read (l : loc) : M tval := fun w =>
  match store w !! l with
  | Some v => (Ok v, w)
  | None => (Raise Unallocated, w)
  end.
Definition write (l : loc) (v : tval) : M unit := fun w =>
  (Ok tt, World (<[l := v]> (store w)) (calls w)).
Definition record (c : call) : M unit := fun w =>
  (Ok tt, World (store w) (calls w ++ [c])).

(** [copy.deepcopy(t)]: a new tensor object with its own storage. *)
Definition deepcopy (l : loc) : M loc := fun w =>
  match store w !! l with
  | Some v =>
      let l' := fresh (dom (store w)) in
      (Ok l', World (<[l' := v]> (store w)) (calls w))
  | None => (Raise Unallocated, w)
  end.

(** A [for] loop over a list whose body acts on the state. *)
Fixpoint forM_ {A} (xs : list A) (body : A -> M unit) : M unit :=
  match xs with
  | [] => mret tt
  | x :: xs' => _ ← body x; forM_ xs' body
  end.

(** [t.shape[1]] *)
Definition shape1 (l : loc) : M nat :=
  v ← read l;
  match v with
  | LongT ncol _ => mret ncol
  | FloatT _ => throw IndexError
  end.

(** [t[ids] = ...] through a long index tensor: every addressed position is
    rewritten by [f]. *)
Definition put_rows {A} (f : A -> A) (rs : list nat) (t : list A) : list A :=
  foldl (fun acc r => alter f r acc) t rs.

(** The values of a long (int64) tensor. *)
Definition int64 (z : Z) : Prop := - 2 ^ 63 <= z < 2 ^ 63.

#[global] Instance int64_dec (z : Z) : Decision (int64 z).
Proof. unfold int64. apply _. Defined.

(** A Python integer assigned into a long tensor is first converted to a
    scalar of the tensor: an integer outside int64 is refused (RuntimeError,
    overflow when unpacking), whatever the indices. *)
Definition long_scalar (c : Z) : result Z :=
  if decide (int64 c) then Ok c else Raise RuntimeError.

(** [t[:, i][ids] = c] on a feature matrix: the column view shares the
    storage of [t], so the assignment writes into [t]. *)
Definition column_put (l : loc) (i : nat) (ids : indices) (c : Z) : M unit :=
  v ← read l;
  match v with
  | LongT ncol rows =>
      if decide (i < ncol)%nat then
        c ← lift (long_scalar c);
        rs ← lift (norm_indices (length rows) ids);
        write l (LongT ncol (put_rows (fun row => <[i := c]> row) rs rows))
      else throw IndexError
  | FloatT _ => throw IndexError
  end.

(** [t[ids] = 0]: on a vector of scalars the addressed entries become 0; on
    a matrix the addressed rows become rows of zeros. *)
Definition zero_put (l : loc) (ids : indices) : M unit :=
  v ← read l;
  match v with
  | FloatT xs =>
      rs ← lift (norm_indices (length xs) ids);
      write l (FloatT (put_rows (fun _ => 0%Qc) rs xs))
  | LongT ncol rows =>
      rs ← lift (norm_indices (length rows) ids);
      write l (LongT ncol (put_rows (fun row => (fun _ => 0) <$> row) rs rows))
  end.

(** ** The encoder object *)

(** A sub-layer applied to one input tensor (embedding tables, RBF layers). *)
Definition layer1 : Type := tval -> result tensor.

(** [EGeoGNNBlock.forward(node_hidden, edge_hidden, edge_index, node_batches)]. *)
Definition block : Type := tensor -> tensor -> edges -> indices -> result tensor.

(** The attributes [__init__] sets.  The two dihedral module lists exist only
    when [without_dihedral] is false. *)
Record EGeoGNNModel : Type := {
  without_dihedral : bool;
  n_layers : nat;
  (* get_feature_dims(self.atom_names), get_feature_dims(self.bond_names) *)
  atom_feature_dims : list Z;
  bond_feature_dims : list Z;
  init_atom_embedding : layer1;
  init_bond_embedding : layer1;
  init_bond_float_rbf : layer1;
  init_bond_angle_float_rbf : layer1;
  bond_embedding_list : list layer1;
  bond_float_rbf_list : list layer1;
  bond_angle_float_rbf_list : list layer1;
  dihedral_angle_float_rbf_list : option (list layer1);
  atom_bond_block_list : list block;
  bond_angle_block_list : list block;
  angle_dihedral_block_list : option (list block)
}.

(** ** [EGeoGNNModel.mask_attr] *)

Definition mask_attr (self : EGeoGNNModel)
    (x bond_attr bond_lengths bond_angles dihedral_angles : loc)
    (masked_atom_indices masked_bond_indices
     masked_angle_indices masked_dihedral_indices : option indices)
    : M (loc * loc * loc * loc * loc) :=
  _x ← deepcopy x;
  _bond_attr ← deepcopy bond_attr;
  _bond_lengths ← deepcopy bond_lengths;
  _bond_angles ← deepcopy bond_angles;
  _dihedral_angles ← deepcopy dihedral_angles;
  let atom_vocab_sizes := atom_feature_dims self in
  nx ← shape1 _x;
  _ ← forM_ (seq 0 nx) (fun i =>
        match masked_atom_indices with
        | Some ids =>
            v ← lift (list_get atom_vocab_sizes i);
            column_put _x i ids (v - 1)
        | None => mret tt
        end);
  let bond_vocab_sizes := bond_feature_dims self in
  nb ← shape1 _bond_attr;
  _ ← forM_ (seq 0 nb) (fun i =>
        match masked_bond_indices with
        | Some ids =>
            v ← lift (list_get bond_vocab_sizes i);
            column_put _bond_attr i ids (v - 1)
        | None => mret tt
        end);
  _ ← match masked_bond_indices with
      | Some ids => zero_put _bond_lengths ids
      | None => mret tt
      end;
  _ ← match masked_angle_indices with
      | Some ids => zero_put _bond_angles ids
      | None => mret tt
      end;
  _ ← match masked_dihedral_indices with
      | Some ids => zero_put _dihedral_angles ids
      | None => mret tt
      end;
  mret (_x, _bond_attr, _bond_lengths, _bond_angles, _dihedral_angles).

(** ** Tensor operations used by [forward] *)

(** [torch.arange(n)] *)
Definition arange (n : Z) : result indices :=
  if decide (0 <= n) then Ok (Z.of_nat <$> seq 0 (Z.to_nat n)) else Raise RuntimeError.

(** [torch.repeat_interleave(input, repeats, dim=0)] with a tensor of repeat
    counts: a single count is expanded to the length of [input]; otherwise the
    two lengths must agree; counts must not be negative. *)
Definition repeat_interleave (input repeats : indices) : result indices :=
  let expanded :=
    match repeats with
    | [r] => Ok (replicate (length input) r)
    | _ => if decide (length repeats = length input) then Ok repeats
           else Raise RuntimeError
    end in
  reps ← expanded;
  if decide (Forall (fun r => 0 <= r) reps)
  then Ok (concat (zip_with (fun g r => replicate (Z.to_nat r) g) input reps))
  else Raise RuntimeError.

(** [a + b] on tensors of shape (n, D), with broadcasting of a dimension of
    size 1.  (A tensor of no rows carries no width in this representation.) *)
Definition add_bcast {A} (add : A -> A -> result A) (a b : list A) : result (list A) :=
  if decide (length a = length b) then mapM (fun p => add p.1 p.2) (zip a b)
  else match a, b with
       | [u], _ => mapM (fun v => add u v) b
       | _, [v] => mapM (fun u => add u v) a
       | _, _ => Raise RuntimeError
       end.

Definition tensor_add (a b : tensor) : result tensor :=
  add_bcast (add_bcast (fun u v => Ok (u + v)%Qc)) a b.

(** [scatter_add_] along dimension 0: [out[index[i]] += src[i]]. *)
Definition scatter_add {A} (add : A -> A -> A) (out : list A)
    (index : list nat) (src : list A) : list A :=
  foldl (fun acc p => alter (fun o => add o p.2) p.1 acc) out (zip index src).

Definition width (t : tensor) : nat :=
  match t with
  | [] => 0%nat
  | row :: _ => length row
  end.

Definition clamp_min1 (c : Qc) : Qc := if decide (c < 1)%Qc then 1%Qc else c.

(** [index.view(-1, 1).expand_as(src)] for a source of [n] rows: an index of
    as many entries as the source has rows stays as it is, an index of one
    entry is repeated for every row, any other index cannot be expanded. *)
Definition expand_index (index : list nat) (n : nat) : result (list nat) :=
  if decide (length index = n) then Ok index
  else match index with
       | [i] => Ok (replicate n i)
       | _ => Raise RuntimeError
       end.

(** [torch_geometric.nn.global_mean_pool(x, batch, size)], that is
    [scatter(x, batch, dim=0, dim_size=size, reduce='mean')] of
    torch_geometric.utils:

      count = src.new_zeros(dim_size)
      count.scatter_add_(0, index, src.new_ones(src.size(dim)))
      count = count.clamp(min=1)
      index = broadcast(index, src, dim)
      out = src.new_zeros(size).scatter_add_(dim, index, src)
      return out / broadcast(count, out, dim)

    The counts are accumulated with the index as it is given: [scatter_add_]
    walks the entries of the index, which must not be more than those of the
    source, and every entry must be in [0, size).  The sums are accumulated
    with the index expanded to the rows of [x].  So an index of one entry on
    several rows counts one row and sums all of them. *)
Definition global_mean_pool (x : tensor) (batch : indices) (size : Z) : result tensor :=
  if decide (size < 0) then Raise RuntimeError
  else if decide (length batch <= length x)%nat then
    match mapM (select_index (Z.to_nat size)) batch with
    | Raise _ => Raise RuntimeError
    | Ok index =>
        let n := Z.to_nat size in
        let count := scatter_add Qcplus (replicate n 0%Qc) index (replicate (length x) 1%Qc) in
        let count := clamp_min1 <$> count in
        index ← expand_index index (length x);
        let out := scatter_add (zip_with Qcplus) (replicate n (replicate (width x) 0%Qc)) index x in
        Ok (zip_with (fun row c => (fun v => v / c)%Qc <$> row) out count)
    end
  else Raise RuntimeError.

(** ** [EGeoGNNModel.forward] *)

(** The keyword arguments of [forward]. *)
Record batch : Type := {
  AtomBondGraph_edges : edges;
  BondAngleGraph_edges : edges;
  AngleDihedralGraph_edges : edges;
  x : loc;
  bond_attr : loc;
  bond_lengths : loc;
  bond_angles : loc;
  dihedral_angles : loc;
  atom_batch : indices;
  num_bonds : indices;
  num_angles : indices;
  num_graphs : Z;
  masked_atom_indices : option indices;
  masked_bond_indices : option indices;
  masked_angle_indices : option indices;
  masked_dihedral_indices : option indices
}.

(** What [forward] returns: node_repr, edge_repr, angle_repr, dihedral_repr,
    graph_repr. *)
Record encoding : Type := Encoding {
  node_repr : tensor;
  edge_repr : tensor;
  angle_repr : option tensor;
  dihedral_repr : option tensor;
  graph_repr : tensor
}.

(** [layer(tensor)] for a sub-layer applied to a tensor of the caller. *)
Definition apply_layer (f : layer1) (l : loc) : M tensor :=
  v ← read l; lift (f v).

(** [self.some_list[layer_id](...)] on a module list. *)
Definition module_at {A} (ms : list A) (layer_id : nat) : M A :=
  lift (list_get ms layer_id).

(** A module list that exists only in the variant with dihedral angles. *)
Definition attribute {A} (a : option A) : M A :=
  match a with
  | Some v => mret v
  | None => throw AttributeError
  end.

Definition call_block (b : block_id) (layer_id : nat) (blk : block)
    (node_hidden edge_hidden : tensor) (edge_index : edges) (node_batches : indices)
    : M tensor :=
  _ ← record (Call b layer_id node_hidden edge_hidden edge_index node_batches);
  lift (blk node_hidden edge_hidden edge_index node_batches).

(** [l[-1]] *)
Definition list_last {A} (l : list A) : M A :=
  match last l with
  | Some a => mret a
  | None => throw IndexError
  end.

(** [cur_edge_hidden]: the bond features re-embedded by the tables of layer
    [layer_id]. *)
Definition refresh_bond (self : EGeoGNNModel) (layer_id : nat)
    (bond_attr bond_lengths : loc) : M tensor :=
  emb ← module_at (bond_embedding_list self) layer_id;
  cur_edge_hidden ← apply_layer emb bond_attr;
  rbf ← module_at (bond_float_rbf_list self) layer_id;
  r ← apply_layer rbf bond_lengths;
  lift (tensor_add cur_edge_hidden r).

(** One iteration of the loop of the variant without dihedral angles. *)
Definition layer_without_dihedral (self : EGeoGNNModel) (b : batch)
    (bond_attr bond_lengths bond_angles : loc) (bond_batch : indices)
    (st : list tensor * list tensor) (layer_id : nat)
    : M (list tensor * list tensor) :=
  let '(node_hidden_list, edge_hidden_list) := st in
  blk ← module_at (atom_bond_block_list self) layer_id;
  nh ← lift (list_get node_hidden_list layer_id);
  eh ← lift (list_get edge_hidden_list layer_id);
  node_hidden ← call_block AtomBondBlock layer_id blk nh eh
                   (AtomBondGraph_edges b) (atom_batch b);
  cur_edge_hidden ← refresh_bond self layer_id bond_attr bond_lengths;
  rbf ← module_at (bond_angle_float_rbf_list self) layer_id;
  cur_angle_hidden ← apply_layer rbf bond_angles;
  blk ← module_at (bond_angle_block_list self) layer_id;
  edge_hidden ← call_block BondAngleBlock layer_id blk cur_edge_hidden cur_angle_hidden
                   (BondAngleGraph_edges b) bond_batch;
  mret (node_hidden_list ++ [node_hidden], edge_hidden_list ++ [edge_hidden]).

(** One iteration of the loop of the variant with dihedral angles.  The last
    component of the loop state is the local [cur_dihedral_hidden], unbound
    before the first iteration. *)
Definition layer_with_dihedral (self : EGeoGNNModel) (b : batch)
    (bond_attr bond_lengths bond_angles dihedral_angles : loc)
    (bond_batch angle_batch : indices)
    (st : list tensor * list tensor * list tensor * option tensor) (layer_id : nat)
    : M (list tensor * list tensor * list tensor * option tensor) :=
  let '(node_hidden_list, edge_hidden_list, angle_hidden_list, _) := st in
  blk ← module_at (atom_bond_block_list self) layer_id;
  nh ← lift (list_get node_hidden_list layer_id);
  eh ← lift (list_get edge_hidden_list layer_id);
  node_hidden ← call_block AtomBondBlock layer_id blk nh eh
                   (AtomBondGraph_edges b) (atom_batch b);
  cur_edge_hidden ← refresh_bond self layer_id bond_attr bond_lengths;
  blk ← module_at (bond_angle_block_list self) layer_id;
  ah ← lift (list_get angle_hidden_list layer_id);
  edge_hidden ← call_block BondAngleBlock layer_id blk cur_edge_hidden ah
                   (BondAngleGraph_edges b) bond_batch;
  rbf ← module_at (bond_angle_float_rbf_list self) layer_id;
  cur_angle_hidden ← apply_layer rbf bond_angles;
  rbfs ← attribute (dihedral_angle_float_rbf_list self);
  rbf ← module_at rbfs layer_id;
  cur_dihedral_hidden ← apply_layer rbf dihedral_angles;
  blks ← attribute (angle_dihedral_block_list self);
  blk ← module_at blks layer_id;
  angle_hidden ← call_block AngleDihedralBlock layer_id blk
                   cur_angle_hidden cur_dihedral_hidden
                   (AngleDihedralGraph_edges b) angle_batch;
  mret (node_hidden_list ++ [node_hidden], edge_hidden_list ++ [edge_hidden],
        angle_hidden_list ++ [angle_hidden], Some cur_dihedral_hidden).

(** [for layer_id in range(n): st = body(st, layer_id)] *)
Fixpoint for_layers {S} (body : S -> nat -> M S) (ids : list nat) (st : S) : M S :=
  match ids with
  | [] => mret st
  | layer_id :: ids' => st' ← body st layer_id; for_layers body ids' st'
  end.

Definition forward (self : EGeoGNNModel) (b : batch) : M encoding :=
  '(x, bond_attr, bond_lengths, bond_angles, dihedral_angles) ←
    mask_attr self (x b) (bond_attr b) (bond_lengths b) (bond_angles b)
      (dihedral_angles b)
      (masked_atom_indices b) (masked_bond_indices b)
      (masked_angle_indices b) (masked_dihedral_indices b);
  node_hidden ← apply_layer (init_atom_embedding self) x;
  bond_embed ← apply_layer (init_bond_embedding self) bond_attr;
  r ← apply_layer (init_bond_float_rbf self) bond_lengths;
  bond_hidden ← lift (tensor_add bond_embed r);
  if without_dihedral self then
    graph_idx ← lift (arange (num_graphs b));
    bond_batch ← lift (repeat_interleave graph_idx (num_bonds b));
    '(node_hidden_list, edge_hidden_list) ←
      for_layers
        (layer_without_dihedral self b bond_attr bond_lengths bond_angles bond_batch)
        (seq 0 (n_layers self)) ([node_hidden], [bond_hidden]);
    node_repr ← list_last node_hidden_list;
    edge_repr ← list_last edge_hidden_list;
    graph_repr ← lift (global_mean_pool node_repr (atom_batch b) (num_graphs b));
    mret (Encoding node_repr edge_repr None None graph_repr)
  else
    angle_hidden ← apply_layer (init_bond_angle_float_rbf self) bond_angles;
    graph_idx ← lift (arange (num_graphs b));
    bond_batch ← lift (repeat_interleave graph_idx (num_bonds b));
    angle_batch ← lift (repeat_interleave graph_idx (num_angles b));
    '(node_hidden_list, edge_hidden_list, angle_hidden_list, cur_dihedral_hidden) ←
      for_layers
        (layer_with_dihedral self b bond_attr bond_lengths bond_angles
           dihedral_angles bond_batch angle_batch)
        (seq 0 (n_layers self))
        ([node_hidden], [bond_hidden], [angle_hidden], None);
    node_repr ← list_last node_hidden_list;
    edge_repr ← list_last edge_hidden_list;
    angle_repr ← list_last angle_hidden_list;
    dihedral_repr ← match cur_dihedral_hidden with
                    | Some t => mret t
                    | None => throw UnboundLocalError
                    end;
    graph_repr ← lift (global_mean_pool node_repr (atom_batch b) (num_graphs b));
    mret (Encoding node_repr edge_repr (Some angle_repr) (Some dihedral_repr) graph_repr).

(** ** [EGeoGNNModel.__init__] *)

(** The sub-layer instances the constructor creates, by layer index.  Their
    classes are defined in models/gin/encoder.py; here they are given. *)
Record sublayers : Type := {
  new_init_atom_embedding : layer1;
  new_init_bond_embedding : layer1;
  new_init_bond_float_rbf : layer1;
  new_init_bond_angle_float_rbf : layer1;
  new_bond_embedding : nat -> layer1;
  new_bond_float_rbf : nat -> layer1;
  new_bond_angle_float_rbf : nat -> layer1;
  new_dihedral_angle_float_rbf : nat -> layer1;
  new_atom_bond_block : nat -> block;
  new_bond_angle_block : nat -> block;
  new_angle_dihedral_block : nat -> block
}.

Definition EGeoGNNModel_init (n_layers : nat) (atom_dims bond_dims : list Z)
    (without_dihedral : bool) (p : sublayers) : EGeoGNNModel :=
  let layer_ids := seq 0 n_layers in
  {| without_dihedral := without_dihedral;
     n_layers := n_layers;
     atom_feature_dims := atom_dims;
     bond_feature_dims := bond_dims;
     init_atom_embedding := new_init_atom_embedding p;
     init_bond_embedding := new_init_bond_embedding p;
     init_bond_float_rbf := new_init_bond_float_rbf p;
     init_bond_angle_float_rbf := new_init_bond_angle_float_rbf p;
     bond_embedding_list := new_bond_embedding p <$> layer_ids;
     bond_float_rbf_list := new_bond_float_rbf p <$> layer_ids;
     bond_angle_float_rbf_list := new_bond_angle_float_rbf p <$> layer_ids;
     dihedral_angle_float_rbf_list :=
       if without_dihedral then None
       else Some (new_dihedral_angle_float_rbf p <$> layer_ids);
     atom_bond_block_list := new_atom_bond_block p <$> layer_ids;
     bond_angle_block_list := new_bond_angle_block p <$> layer_ids;
     angle_dihedral_block_list :=
       if without_dihedral then None
       else Some (new_angle_dihedral_block p <$> layer_ids) |}.

(** ** [EGEM]: pretraining heads *)

(** [MLP.forward] and a loss criterion ([nn.SmoothL1Loss()] applied to a
    prediction and a target of shape (k, 1)), both given. *)
Definition mlp : Type := tensor -> result tensor.
Definition criterion : Type := tensor -> tensor -> result Qc.

Record head : Type := Head { head_mlp : mlp; head_loss : criterion }.

(** A head attribute exists only if its task was listed at construction. *)
Record EGEM : Type := {
  compound_encoder : EGeoGNNModel;
  pretrain_tasks : list string;
  Blr_head : option head;
  Bar_head : option head;
  Dar_head : option head;
  Adc_head : option head;
  cm5_head : option head;
  espc_head : option head;
  hirshfeld_head : option head;
  npa_head : option head;
  wiberg_head : option head
}.

(** The heads the constructor would create, one per task name. *)
Record heads : Type := {
  new_Blr : head; new_Bar : head; new_Dar : head; new_Adc : head;
  new_cm5 : head; new_espc : head; new_hirshfeld : head; new_npa : head;
  new_wiberg : head
}.

(** [task in pretrain_tasks] *)
Definition active (task : string) (tasks : list string) : bool :=
  bool_decide (task ∈ tasks).

Definition EGEM_init (encoder : EGeoGNNModel) (tasks : list string) (p : heads)
    : EGEM :=
  let own (task : string) (h : head) := if active task tasks then Some h else None in
  {| compound_encoder := encoder;
     pretrain_tasks := tasks;
     Blr_head := own "Blr" (new_Blr p);
     Bar_head := own "Bar" (new_Bar p);
     Dar_head := own "Dar" (new_Dar p);
     Adc_head := own "Adc" (new_Adc p);
     cm5_head := own "CM5" (new_cm5 p);
     espc_head := own "ESPC" (new_espc p);
     hirshfeld_head := own "HIRSHFELD" (new_hirshfeld p);
     npa_head := own "NPA" (new_npa p);
     wiberg_head := own "WIBERG" (new_wiberg p) |}.

(** An index argument whose default is [None]: a tensor method given [None]
    raises a TypeError. *)
Definition tensor_arg (a : option indices) : result indices :=
  match a with
  | Some ids => Ok ids
  | None => Raise TypeError
  end.

Definition head_attr (h : option head) : result head :=
  match h with
  | Some v => Ok v
  | None => Raise AttributeError
  end.

(** [a, b = edge_index.index_select(1, ids)]: the two rows of the selected
    columns.  Along dimension 1 of the (2, E) table an index outside [0, E)
    is reported as a RuntimeError. *)
Definition select_edges (edge_index : edges) (ids : indices)
    : result (indices * indices) :=
  match index_select edge_index ids with
  | Ok cols => Ok (map fst cols, map snd cols)
  | Raise _ => Raise RuntimeError
  end.

(** [torch.cat(ts, dim=1)] on tensors with the same number of rows. *)
Definition cat2 (a b : tensor) : result tensor :=
  if decide (length a = length b) then Ok (zip_with app a b) else Raise RuntimeError.

(** [v[ids].unsqueeze(-1)]: the addressed scalars as a column. *)
Definition target_column (v : vec) (ids : indices) : result tensor :=
  rs ← norm_indices (length v) ids;
  mapM (fun r => q ← list_get v r; Ok [q]) rs.

(** The atom indices of the masked bonds: the two ends of each bond. *)
Definition Blr_atom_indices (AtomBondGraph_edges : edges) (masked_bond_indices : indices)
    : result (indices * indices) :=
  select_edges AtomBondGraph_edges masked_bond_indices.

Definition _get_Blr_loss (h : option head) (atom_attr : tensor) (bond_lengths : vec)
    (AtomBondGraph_edges : edges) (masked_bond_indices : option indices) : result Qc :=
  ids ← tensor_arg masked_bond_indices;
  '(masked_atom_i, masked_atom_j) ← Blr_atom_indices AtomBondGraph_edges ids;
  atom_attr_i ← index_select atom_attr masked_atom_i;
  atom_attr_j ← index_select atom_attr masked_atom_j;
  atom_attr_ij ← cat2 atom_attr_i atom_attr_j;
  hd ← head_attr h;
  pred ← head_mlp hd atom_attr_ij;
  target ← target_column bond_lengths ids;
  head_loss hd pred target.

(** Lines 356 to 359: a masked bond-angle edge resolves to its two bonds;
    atoms i and j are the ends of the first bond, atom k is the second end of
    the second bond. *)
Definition Bar_atom_indices (AtomBondGraph_edges BondAngleGraph_edges : edges)
    (masked_angle_indices : indices) : result (indices * indices * indices) :=
  '(masked_bond_i, masked_bond_j) ← select_edges BondAngleGraph_edges masked_angle_indices;
  '(masked_atom_i, masked_atom_j) ← select_edges AtomBondGraph_edges masked_bond_i;
  '(_, masked_atom_k) ← select_edges AtomBondGraph_edges masked_bond_j;
  Ok (masked_atom_i, masked_atom_j, masked_atom_k).

Definition _get_Bar_loss (h : option head) (atom_attr : tensor) (bond_angles : vec)
    (AtomBondGraph_edges BondAngleGraph_edges : edges)
    (masked_angle_indices : option indices) : result Qc :=
  ids ← tensor_arg masked_angle_indices;
  '(masked_atom_i, masked_atom_j, masked_atom_k) ←
    Bar_atom_indices AtomBondGraph_edges BondAngleGraph_edges ids;
  atom_attr_i ← index_select atom_attr masked_atom_i;
  atom_attr_j ← index_select atom_attr masked_atom_j;
  atom_attr_k ← index_select atom_attr masked_atom_k;
  atom_attr_ij ← cat2 atom_attr_i atom_attr_j;
  atom_attr_ijk ← cat2 atom_attr_ij atom_attr_k;
  hd ← head_attr h;
  pred ← head_mlp hd atom_attr_ijk;
  target ← target_column bond_angles ids;
  head_loss hd pred target.

(** Lines 377 to 383: a masked dihedral edge resolves to two bond-angle
    edges; the first bond of the first angle gives atoms i and j, the second
    bond of the second angle gives atoms k and l. *)
Definition Dar_atom_indices
    (AtomBondGraph_edges BondAngleGraph_edges AngleDihedralGraph_edges : edges)
    (masked_dihedral_indices : indices)
    : result (indices * indices * indices * indices) :=
  '(masked_angle_i, masked_angle_j) ←
    select_edges AngleDihedralGraph_edges masked_dihedral_indices;
  '(masked_bond_i, _) ← select_edges BondAngleGraph_edges masked_angle_i;
  '(_, masked_bond_k) ← select_edges BondAngleGraph_edges masked_angle_j;
  '(masked_atom_i, masked_atom_j) ← select_edges AtomBondGraph_edges masked_bond_i;
  '(masked_atom_k, masked_atom_l) ← select_edges AtomBondGraph_edges masked_bond_k;
  Ok (masked_atom_i, masked_atom_j, masked_atom_k, masked_atom_l).

Definition _get_Dar_loss (h : option head) (atom_attr : tensor) (dihedral_angles : vec)
    (AtomBondGraph_edges BondAngleGraph_edges AngleDihedralGraph_edges : edges)
    (masked_dihedral_indices : option indices) : result Qc :=
  ids ← tensor_arg masked_dihedral_indices;
  '(masked_atom_i, masked_atom_j, masked_atom_k, masked_atom_l) ←
    Dar_atom_indices AtomBondGraph_edges BondAngleGraph_edges
      AngleDihedralGraph_edges ids;
  atom_attr_i ← index_select atom_attr masked_atom_i;
  atom_attr_j ← index_select atom_attr masked_atom_j;
  atom_attr_k ← index_select atom_attr masked_atom_k;
  atom_attr_l ← index_select atom_attr masked_atom_l;
  atom_attr_ij ← cat2 atom_attr_i atom_attr_j;
  atom_attr_ijk ← cat2 atom_attr_ij atom_attr_k;
  atom_attr_ijkl ← cat2 atom_attr_ijk atom_attr_l;
  hd ← head_attr h;
  pred ← head_mlp hd atom_attr_ijkl;
  target ← target_column dihedral_angles ids;
  head_loss hd pred target.

(** [_get_cm5_loss], [_get_espc_loss], [_get_hirshfeld_loss] and
    [_get_npa_loss] have the same body up to the head and the target array. *)
Definition _get_charge_loss (h : option head) (atom_attr : tensor) (charges : vec)
    (masked_atom_indices : option indices) : result Qc :=
  masked_atom_i ← tensor_arg masked_atom_indices;
  atom_attr_i ← index_select atom_attr masked_atom_i;
  hd ← head_attr h;
  pred ← head_mlp hd atom_attr_i;
  target ← target_column charges masked_atom_i;
  head_loss hd pred target.

Definition _get_wiberg_loss (h : option head) (atom_attr : tensor) (bond_orders : vec)
    (AtomBondGraph_edges : edges) (masked_bond_indices : option indices) : result Qc :=
  ids ← tensor_arg masked_bond_indices;
  '(masked_atom_i, masked_atom_j) ← select_edges AtomBondGraph_edges ids;
  atom_attr_i ← index_select atom_attr masked_atom_i;
  atom_attr_j ← index_select atom_attr masked_atom_j;
  atom_attr_ij ← cat2 atom_attr_i atom_attr_j;
  hd ← head_attr h;
  pred ← head_mlp hd atom_attr_ij;
  target ← target_column bond_orders ids;
  head_loss hd pred target.

(** ** [EGEM.compute_loss] *)

(** The local [loss] starts as the Python integer 0 and becomes a tensor with
    the first [loss += task_loss]. *)
Inductive pyloss : Type :=
  | PyInt (z : Z)
  | PyTensor (q : Qc).

Definition loss_iadd (loss : pyloss) (t : Qc) : pyloss :=
  match loss with
  | PyInt z => PyTensor (Qc_of_Z z + t)
  | PyTensor q => PyTensor (q + t)
  end.

(** [loss.detach().item()] *)
Definition detach_item (loss : pyloss) : result Qc :=
  match loss with
  | PyInt _ => Raise AttributeError
  | PyTensor q => Ok q
  end.

Abbreviation loss_dict := (gmap string Qc).

(** One [if task in self.pretrain_tasks:] block of [compute_loss]. *)
Definition task_block (self : EGEM) (task key : string) (get_loss : result Qc)
    (st : pyloss * loss_dict) : result (pyloss * loss_dict) :=
  if active task (pretrain_tasks self) then
    task_loss ← get_loss;
    Ok (loss_iadd st.1 task_loss, <[key := task_loss]> st.2)
  else Ok st.

Definition compute_loss (self : EGEM)
    (bond_lengths bond_angles dihedral_angles : vec)
    (AtomBondGraph_edges : edges) (atom_attr : tensor)
    (BondAngleGraph_edges AngleDihedralGraph_edges : edges)
    (cm5_charges espc_charges hirshfeld_charges npa_charges bond_orders : vec)
    (masked_atom_indices masked_bond_indices
     masked_angle_indices masked_dihedral_indices : option indices)
    : result (pyloss * loss_dict) :=
  let st : pyloss * loss_dict := (PyInt 0, ∅) in
  st ← task_block self "Blr" "bond_length_loss"
         (_get_Blr_loss (Blr_head self) atom_attr bond_lengths
            AtomBondGraph_edges masked_bond_indices) st;
  st ← task_block self "Bar" "bond_angle_loss"
         (_get_Bar_loss (Bar_head self) atom_attr bond_angles
            AtomBondGraph_edges BondAngleGraph_edges masked_angle_indices) st;
  st ← task_block self "Dar" "dihedral_angle_loss"
         (_get_Dar_loss (Dar_head self) atom_attr dihedral_angles
            AtomBondGraph_edges BondAngleGraph_edges AngleDihedralGraph_edges
            masked_dihedral_indices) st;
  st ← task_block self "CM5" "cm5_charge_loss"
         (_get_charge_loss (cm5_head self) atom_attr cm5_charges
            masked_atom_indices) st;
  st ← task_block self "ESPC" "espc_charge_loss"
         (_get_charge_loss (espc_head self) atom_attr espc_charges
            masked_atom_indices) st;
  st ← task_block self "HIRSHFELD" "hirshfeld_charge_loss"
         (_get_charge_loss (hirshfeld_head self) atom_attr hirshfeld_charges
            masked_atom_indices) st;
  st ← task_block self "NPA" "npa_charge_loss"
         (_get_charge_loss (npa_head self) atom_attr npa_charges
            masked_atom_indices) st;
  st ← task_block self "WIBERG" "wiberg_order_loss"
         (_get_wiberg_loss (wiberg_head self) atom_attr bond_orders
            AtomBondGraph_edges masked_bond_indices) st;
  total ← detach_item st.1;
  Ok (st.1, <["loss" := total]> st.2).

(** The task names of the constructor, and those [compute_loss] has a block
    for. *)
Definition recognized_tasks : list string :=
  ["Blr"; "Bar"; "Dar"; "Adc"; "CM5"; "ESPC"; "HIRSHFELD"; "NPA"; "WIBERG"].

Definition loss_tasks : list (string * string) :=
  [("Blr", "bond_length_loss"); ("Bar", "bond_angle_loss");
   ("Dar", "dihedral_angle_loss"); ("CM5", "cm5_charge_loss");
   ("ESPC", "espc_charge_loss"); ("HIRSHFELD", "hirshfeld_charge_loss");
   ("NPA", "npa_charge_loss"); ("WIBERG", "wiberg_order_loss")].

(** ** The sub-layer applications of one layer as functions of contents *)

(** [bond_embedding_list[l](bond_attr) + bond_float_rbf_list[l](bond_lengths)]
    on the contents of the two tensors. *)
Definition bond_refresh (self : EGeoGNNModel) (layer_id : nat)
    (bond_attr bond_lengths : tval) : result tensor :=
  emb ← list_get (bond_embedding_list self) layer_id;
  e ← emb bond_attr;
  rbf ← list_get (bond_float_rbf_list self) layer_id;
  r ← rbf bond_lengths;
  tensor_add e r.

(** [bond_angle_float_rbf_list[l](bond_angles)] *)
Definition angle_refresh (self : EGeoGNNModel) (layer_id : nat)
    (bond_angles : tval) : result tensor :=
  rbf ← list_get (bond_angle_float_rbf_list self) layer_id;
  rbf bond_angles.

Definition module_list {A} (o : option (list A)) : result (list A) :=
  match o with
  | Some l => Ok l
  | None => Raise AttributeError
  end.

(** [dihedral_angle_float_rbf_list[l](dihedral_angles)] *)
Definition dihedral_refresh (self : EGeoGNNModel) (layer_id : nat)
    (dihedral_angles : tval) : result tensor :=
  rbfs ← module_list (dihedral_angle_float_rbf_list self);
  rbf ← list_get rbfs layer_id;
  rbf dihedral_angles.

(** [blocks[l](node_hidden, edge_hidden, edge_index, node_batches)] *)
Definition block_output (blocks : list block) (layer_id : nat)
    (node_hidden edge_hidden : tensor) (edge_index : edges) (node_batches : indices)
    : result tensor :=
  blk ← list_get blocks layer_id;
  blk node_hidden edge_hidden edge_index node_batches.

(** [c] is the call of the bond-angle block of layer [l] among the calls
    [new]. *)
Definition bond_angle_pass (new : list call) (l : nat) (c : call) : Prop :=
  c ∈ new /\ callee c = BondAngleBlock /\ layer c = l.

(** Shape contracts of the sub-layers (specification, sections 4.1 and 4.2):
    an RBF layer gives one row per scalar, a block one row per node. *)
Definition rbf_shape (f : layer1) : Prop :=
  forall v out, f (FloatT v) = Ok out -> length out = length v.

Definition block_shape (blk : block) : Prop :=
  forall node_hidden edge_hidden edge_index node_batches out,
    blk node_hidden edge_hidden edge_index node_batches = Ok out ->
    length out = length node_hidden.

(** ** Mean pooling, as the specification words it *)

(** The rows of [x] whose entry in [batch] is [g], in the order of [x]. *)
Definition group_rows (x : tensor) (batch : indices) (g : Z) : tensor :=
  (filter (fun p => p.1 = g) (zip batch x)).*2.

(** The sum of vectors of width [D] and their arithmetic mean. *)
Definition sum_rows (D : nat) (rows : tensor) : list Qc :=
  foldr (zip_with Qcplus) (replicate D 0%Qc) rows.

Definition mean_rows (D : nat) (rows : tensor) : list Qc :=
  (fun v => v / Qc_of_Z (Z.of_nat (length rows)))%Qc <$> sum_rows D rows.

(** The sources that [scatter_add] adds to position [g]. *)
Definition selected {A} (g : nat) (index : list nat) (src : list A) : list A :=
  (filter (fun p => p.1 = g) (zip index src)).*2.

(** ** The per-graph counts of a batch *)

(** A block that makes no use of its [node_batches] argument. *)
Definition ignores_node_batches (blk : block) : Prop :=
  forall node_hidden edge_hidden edge_index node_batches node_batches',
    blk node_hidden edge_hidden edge_index node_batches
    = blk node_hidden edge_hidden edge_index node_batches'.

(** The batch [b] with other tensors of per-graph counts. *)
Definition with_counts (b : batch) (num_bonds' num_angles' : indices) : batch :=
  {| AtomBondGraph_edges := AtomBondGraph_edges b;
     BondAngleGraph_edges := BondAngleGraph_edges b;
     AngleDihedralGraph_edges := AngleDihedralGraph_edges b;
     x := x b;
     bond_attr := bond_attr b;
     bond_lengths := bond_lengths b;
     bond_angles := bond_angles b;
     dihedral_angles := dihedral_angles b;
     atom_batch := atom_batch b;
     num_bonds := num_bonds';
     num_angles := num_angles';
     num_graphs := num_graphs b;
     masked_atom_indices := masked_atom_indices b;
     masked_bond_indices := masked_bond_indices b;
     masked_angle_indices := masked_angle_indices b;
     masked_dihedral_indices := masked_dihedral_indices b |}.

(** What the encoder requires of a tensor of per-graph counts: one count, or
    one count per graph, none of them negative. *)
Definition counts_per_graph (num_graphs : Z) (counts : indices) : Prop :=
  (length counts = 1%nat \/ length counts = Z.to_nat num_graphs) /\
  (0 < num_graphs -> Forall (fun c => 0 <= c) counts).

(** Two calls of the same block, at the same layer, with the same hidden
    states on the same graph: only their batch vectors may differ. *)
Definition same_pass (c1 c2 : call) : Prop :=
  callee c1 = callee c2 /\ layer c1 = layer c2 /\
  node_hidden_arg c1 = node_hidden_arg c2 /\
  edge_hidden_arg c1 = edge_hidden_arg c2 /\
  edge_index_arg c1 = edge_index_arg c2.

(** Two states with the same tensor objects and, up to the batch vectors,
    the same calls. *)
Definition same_state (w1 w2 : world) : Prop :=
  store w1 = store w2 /\ Forall2 same_pass (calls w1) (calls w2).

(** Two computations that, run on such states, have the same outcome, the
    value returned or the exception raised, and leave such states. *)
Definition same_outcome {A} (m1 m2 : M A) : Prop :=
  forall w1 w2, same_state w1 w2 ->
    (m1 w1).1 = (m2 w2).1 /\ same_state (m1 w1).2 (m2 w2).2.

(** ** The blocks of [compute_loss] as a table *)

(** The eight [if task in self.pretrain_tasks] blocks in the order of the
    source: task name, key of the breakdown, loss of the task. *)
Definition task_losses (self : EGEM)
    (bond_lengths bond_angles dihedral_angles : vec)
    (AtomBondGraph_edges : edges) (atom_attr : tensor)
    (BondAngleGraph_edges AngleDihedralGraph_edges : edges)
    (cm5_charges espc_charges hirshfeld_charges npa_charges bond_orders : vec)
    (masked_atom_indices masked_bond_indices
     masked_angle_indices masked_dihedral_indices : option indices)
    : list (string * string * result Qc) :=
  [("Blr", "bond_length_loss",
    _get_Blr_loss (Blr_head self) atom_attr bond_lengths
      AtomBondGraph_edges masked_bond_indices);
   ("Bar", "bond_angle_loss",
    _get_Bar_loss (Bar_head self) atom_attr bond_angles
      AtomBondGraph_edges BondAngleGraph_edges masked_angle_indices);
   ("Dar", "dihedral_angle_loss",
    _get_Dar_loss (Dar_head self) atom_attr dihedral_angles
      AtomBondGraph_edges BondAngleGraph_edges AngleDihedralGraph_edges
      masked_dihedral_indices);
   ("CM5", "cm5_charge_loss",
    _get_charge_loss (cm5_head self) atom_attr cm5_charges masked_atom_indices);
   ("ESPC", "espc_charge_loss",
    _get_charge_loss (espc_head self) atom_attr espc_charges masked_atom_indices);
   ("HIRSHFELD", "hirshfeld_charge_loss",
    _get_charge_loss (hirshfeld_head self) atom_attr hirshfeld_charges
      masked_atom_indices);
   ("NPA", "npa_charge_loss",
    _get_charge_loss (npa_head self) atom_attr npa_charges masked_atom_indices);
   ("WIBERG", "wiberg_order_loss",
    _get_wiberg_loss (wiberg_head self) atom_attr bond_orders
      AtomBondGraph_edges masked_bond_indices)].

Fixpoint run_blocks (self : EGEM) (table : list (string * string * result Qc))
    (st : pyloss * loss_dict) : result (pyloss * loss_dict) :=
  match table with
  | [] => Ok st
  | (task, key, get_loss) :: table' =>
      st' ← task_block self task key get_loss st; run_blocks self table' st'
  end.

(** The entries of the table whose task is listed, and the unweighted sum of
    a list of task losses. *)
Definition active_entries (self : EGEM) (table : list (string * string * result Qc))
    : list (string * string * result Qc) :=
  filter (fun e => e.1.1 ∈ pretrain_tasks self) table.

Definition total_loss (values : list Qc) : Qc := foldr Qcplus 0%Qc values.

(** ** The masking loops as functions of the tensor contents *)

(** The loop [for i in range(shape[1]): t[:, i][ids] = vocab[i] - 1] seen
    from the rows of [t]. *)
Fixpoint mask_columns (vocab : list Z) (ids : indices) (cols : list nat)
    (rows : list (list Z)) : result (list (list Z)) :=
  match cols with
  | [] => Ok rows
  | i :: cols' =>
      v ← list_get vocab i;
      c ← long_scalar (v - 1);
      rs ← norm_indices (length rows) ids;
      mask_columns vocab ids cols' (put_rows (fun row => <[i := c]> row) rs rows)
  end.

(** A row position is addressed by an index set when one of its indices
    denotes it (an index may be negative); [None] addresses nothing. *)
Definition addressed (n : nat) (ids : option indices) (r : nat) : Prop :=
  exists l i, ids = Some l /\ i ∈ l /\ norm_index n i = Some r.

(** Entry (r, i) of a feature matrix. *)
Definition entry (rows : list (list Z)) (r i : nat) : option Z :=
  row ← rows !! r; row !! i.

Definition rectangular {A} (ncol : nat) (rows : list (list A)) : Prop :=
  Forall (fun row => length row = ncol) rows.

(** The contents [mask_attr] leaves in the copy of a feature matrix and in
    the copy of a vector of scalars. *)
Definition masked_matrix (vocab : list Z) (ids : option indices) (ncol : nat)
    (rows : list (list Z)) : result (list (list Z)) :=
  match ids with
  | Some l => mask_columns vocab l (seq 0 ncol) rows
  | None => Ok rows
  end.

Definition masked_vector (ids : option indices) (v : vec) : result vec :=
  match ids with
  | Some l => rs ← norm_indices (length v) l; Ok (put_rows (fun _ => 0%Qc) rs v)
  | None => Ok v
  end.

(** The relation the specification states between a tensor and its masked
    copy.  Categorical features: at an addressed row every field [i] holds
    the last slot [vocab[i] - 1] of its vocabulary; the other rows are those
    of the original.  Scalars: 0 at an addressed position, the original
    value elsewhere. *)
Definition categorical_masked (vocab : list Z) (ids : option indices) (ncol : nat)
    (rows rows' : list (list Z)) : Prop :=
  length rows' = length rows /\
  (forall r i, addressed (length rows) ids r -> (i < ncol)%nat ->
     exists v, vocab !! i = Some v /\ entry rows' r i = Some (v - 1)) /\
  (forall r, ~ addressed (length rows) ids r -> rows' !! r = rows !! r) /\
  (ids = None -> rows' = rows).

Definition scalars_zeroed (ids : option indices) (v v' : vec) : Prop :=
  length v' = length v /\
  (forall r, addressed (length v) ids r -> v' !! r = Some 0%Qc) /\
  (forall r, ~ addressed (length v) ids r -> v' !! r = v !! r) /\
  (ids = None -> v' = v).

(** Position [p] of an index table or of a tensor holds [a]. *)
Definition holds_at {A} (t : list A) (p : Z) (a : A) : Prop :=
  0 <= p /\ t !! Z.to_nat p = Some a.

(** The indices of an index set are in range for a tensor of [n] rows. *)
Definition in_range (n : nat) (ids : option indices) : Prop :=
  forall l, ids = Some l -> Forall (fun i => - Z.of_nat n <= i < Z.of_nat n) l.

(** The vocabulary table covers the [ncol] fields when an index set is given. *)
Definition covers (vocab : list Z) (ids : option indices) (ncol : nat) : Prop :=
  ids <> None -> (ncol <= length vocab)%nat.

(** The mask tokens [vocab[i] - 1] of a vocabulary table are values of a long
    tensor. *)
Definition tokens_fit (vocab : list Z) : Prop :=
  Forall (fun v => int64 (v - 1)) vocab.

(** ** Specifications of computations over the state *)

(** [triple I m Q E]: [m] keeps the invariant [I] of the state, whether it
    returns or raises; a value it returns satisfies [Q]; an exception it
    raises satisfies [E]. *)
Definition triple {A} (I : world -> Prop) (m : M A) (Q : A -> Prop)
    (E : exn -> Prop) : Prop :=
  forall w, I w ->
    I (m w).2 /\ (forall a, (m w).1 = Ok a -> Q a) /\ (forall e, (m w).1 = Raise e -> E e).

Definition any {A} : A -> Prop := fun _ => True.

(** The invariant of [mask_attr]: every object of the initial store [s0] is
    still there, with the same contents, and the calls made are still [c0]. *)
Definition kept (s0 : heap) (c0 : list call) (w : world) : Prop :=
  s0 ⊆ store w /\ calls w = c0.

(** ** A small instance

    One molecule, the chain 0-1-2-3: four atoms with two categorical fields,
    three bonds with one field, two bond angles, one dihedral angle; latent
    size 2.  The sub-layers are simple total functions of the right shapes:
    an embedding adds the fields of a row, an RBF layer copies the scalar, a
    block adds to every node the messages (source node plus edge) of its
    incoming edges.  Layer [k] of a module list differs from the initial
    layers by the offset [k + 1]. *)
Module Demo.

Definition of_Z (z : Z) : Qc := Qc_of_Z z.

Definition embedding (k : Z) : layer1 := fun v =>
  match v with
  | LongT _ rows => Ok ((fun row => [of_Z (foldr Z.add 0 row + k); of_Z k]) <$> rows)
  | FloatT _ => Raise RuntimeError
  end.

Definition rbf (k : Z) : layer1 := fun v =>
  match v with
  | FloatT xs => Ok ((fun q => [(q + of_Z k)%Qc; q]) <$> xs)
  | LongT _ _ => Raise RuntimeError
  end.

Definition message_block : block := fun node_hidden edge_hidden edge_index _ =>
  if decide (length edge_index = length edge_hidden) then
    sources ← index_select node_hidden (map fst edge_index);
    targets ← mapM (select_index (length node_hidden)) (map snd edge_index);
    let messages := zip_with (zip_with Qcplus) sources edge_hidden in
    Ok (scatter_add (zip_with Qcplus) node_hidden targets messages)
  else Raise RuntimeError.

Definition layers : sublayers :=
  {| new_init_atom_embedding := embedding 0;
     new_init_bond_embedding := embedding 0;
     new_init_bond_float_rbf := rbf 0;
     new_init_bond_angle_float_rbf := rbf 0;
     new_bond_embedding := fun k => embedding (Z.of_nat k + 1);
     new_bond_float_rbf := fun k => rbf (Z.of_nat k + 1);
     new_bond_angle_float_rbf := fun k => rbf (Z.of_nat k + 1);
     new_dihedral_angle_float_rbf := fun k => rbf (Z.of_nat k + 1);
     new_atom_bond_block := fun _ => message_block;
     new_bond_angle_block := fun _ => message_block;
     new_angle_dihedral_block := fun _ => message_block |}.

Definition atom_dims : list Z := [10; 5].
Definition bond_dims : list Z := [4].

Definition encoder (n_layers : nat) (without_dihedral : bool) : EGeoGNNModel :=
  EGeoGNNModel_init n_layers atom_dims bond_dims without_dihedral layers.

(** The objects of the caller, at the references 1 to 5. *)
Definition x_ref : loc := 1%positive.
Definition bond_attr_ref : loc := 2%positive.
Definition bond_lengths_ref : loc := 3%positive.
Definition bond_angles_ref : loc := 4%positive.
Definition dihedral_angles_ref : loc := 5%positive.

Definition chain_store : heap :=
  <[x_ref := LongT 2 [[1; 0]; [2; 1]; [1; 1]; [3; 0]]]>
  (<[bond_attr_ref := LongT 1 [[0]; [1]; [0]]]>
  (<[bond_lengths_ref := FloatT [of_Z 3; of_Z 2; of_Z 3]]>
  (<[bond_angles_ref := FloatT [of_Z 2; of_Z 2]]>
  (<[dihedral_angles_ref := FloatT [of_Z 1]]> ∅)))).

Definition chain_world : world := World chain_store [].

Definition chain (num_bonds : indices) (ma mb mg md : option indices) : batch :=
  {| AtomBondGraph_edges := [(0, 1); (1, 2); (2, 3)];
     BondAngleGraph_edges := [(0, 1); (1, 2)];
     AngleDihedralGraph_edges := [(0, 1)];
     x := x_ref;
     bond_attr := bond_attr_ref;
     bond_lengths := bond_lengths_ref;
     bond_angles := bond_angles_ref;
     dihedral_angles := dihedral_angles_ref;
     atom_batch := [0; 0; 0; 0];
     num_bonds := num_bonds;
     num_angles := [2];
     num_graphs := 1;
     masked_atom_indices := ma;
     masked_bond_indices := mb;
     masked_angle_indices := mg;
     masked_dihedral_indices := md |}.

(** A batch of two molecules, the chains 0-1-2 and 3-4-5-6-7: three and five
    atoms, two and four bonds, one and three bond angles. *)
Definition pair_store : heap :=
  <[x_ref := LongT 2 [[1; 0]; [2; 1]; [1; 1]; [3; 0]; [1; 0]; [1; 1]; [2; 0]; [4; 1]]]>
  (<[bond_attr_ref := LongT 1 [[0]; [1]; [0]; [0]; [2]; [1]]]>
  (<[bond_lengths_ref := FloatT [of_Z 3; of_Z 2; of_Z 3; of_Z 1; of_Z 2; of_Z 2]]>
  (<[bond_angles_ref := FloatT [of_Z 2; of_Z 2; of_Z 1; of_Z 3]]>
  (<[dihedral_angles_ref := FloatT [of_Z 1; of_Z 1]]> ∅)))).

Definition pair_world : world := World pair_store [].

Definition pair : batch :=
  {| AtomBondGraph_edges := [(0, 1); (1, 2); (3, 4); (4, 5); (5, 6); (6, 7)];
     BondAngleGraph_edges := [(0, 1); (2, 3); (3, 4); (4, 5)];
     AngleDihedralGraph_edges := [(1, 2); (2, 3)];
     x := x_ref;
     bond_attr := bond_attr_ref;
     bond_lengths := bond_lengths_ref;
     bond_angles := bond_angles_ref;
     dihedral_angles := dihedral_angles_ref;
     atom_batch := [0; 0; 0; 1; 1; 1; 1; 1];
     num_bonds := [2; 4];
     num_angles := [1; 3];
     num_graphs := 2;
     masked_atom_indices := None;
     masked_bond_indices := None;
     masked_angle_indices := None;
     masked_dihedral_indices := None |}.

(** Heads for the pretraining tasks: the MLP adds the entries of each row,
    the criterion adds the squared differences. *)
Definition sum_mlp : mlp := fun t => Ok ((fun row => [foldr Qcplus 0%Qc row]) <$> t).

Definition square_loss : criterion := fun pred target =>
  if decide (length pred = length target) then
    Ok (foldr Qcplus 0%Qc
          (zip_with (fun p t => foldr Qcplus 0%Qc
                                  (zip_with (fun u v => (u - v) * (u - v))%Qc p t))
             pred target))
  else Raise RuntimeError.

Definition task_heads : heads :=
  let h := Head sum_mlp square_loss in
  {| new_Blr := h; new_Bar := h; new_Dar := h; new_Adc := h; new_cm5 := h;
     new_espc := h; new_hirshfeld := h; new_npa := h; new_wiberg := h |}.

Definition pretrainer (tasks : list string) : EGEM :=
  EGEM_init (encoder 1 false) tasks task_heads.

(** Node representations of the four atoms and the targets of the chain. *)
Definition atom_attr : tensor :=
  [[of_Z 1; of_Z 0]; [of_Z 7; of_Z 3]; [of_Z 8; of_Z 2]; [of_Z 8; of_Z 3]].

Definition chain_loss (tasks : list string) (ma mb mg md : option indices)
    : result (pyloss * loss_dict) :=
  compute_loss (pretrainer tasks)
    [of_Z 3; of_Z 2; of_Z 3] [of_Z 2; of_Z 2] [of_Z 1]
    [(0, 1); (1, 2); (2, 3)] atom_attr [(0, 1); (1, 2)] [(0, 1)]
    [of_Z 0; of_Z 0; of_Z 0; of_Z 0] [of_Z 0; of_Z 0; of_Z 0; of_Z 0]
    [of_Z 0; of_Z 0; of_Z 0; of_Z 0] [of_Z 0; of_Z 0; of_Z 0; of_Z 0]
    [of_Z 1; of_Z 1; of_Z 1]
    ma mb mg md.

End Demo.

(** ** The forward pass as a recurrence on hidden states

    The loop of [forward] seen from the contents of the masked copies: the
    hidden states after [n] layers.  The body of the loop maps the states
    after [l] layers to the states after [l + 1] layers. *)

(** [node_hidden], [bond_hidden] before the first layer. *)
Definition initial_hidden (self : EGeoGNNModel) (vx vba vbl : tval)
    : result (tensor * tensor) :=
  node_hidden ← init_atom_embedding self vx;
  bond_embed ← init_bond_embedding self vba;
  r ← init_bond_float_rbf self vbl;
  bond_hidden ← tensor_add bond_embed r;
  Ok (node_hidden, bond_hidden).

Fixpoint hidden_without_dihedral (self : EGeoGNNModel) (b : batch)
    (vba vbl vang : tval) (bond_batch : indices) (h0 : tensor * tensor) (n : nat)
    : result (tensor * tensor) :=
  match n with
  | O => Ok h0
  | S l =>
      h ← hidden_without_dihedral self b vba vbl vang bond_batch h0 l;
      node_hidden ← block_output (atom_bond_block_list self) l h.1 h.2
                       (AtomBondGraph_edges b) (atom_batch b);
      cur_edge_hidden ← bond_refresh self l vba vbl;
      cur_angle_hidden ← angle_refresh self l vang;
      edge_hidden ← block_output (bond_angle_block_list self) l
                       cur_edge_hidden cur_angle_hidden
                       (BondAngleGraph_edges b) bond_batch;
      Ok (node_hidden, edge_hidden)
  end.

Fixpoint hidden_with_dihedral (self : EGeoGNNModel) (b : batch)
    (vba vbl vang vdih : tval) (bond_batch angle_batch : indices)
    (h0 : tensor * tensor * tensor) (n : nat)
    : result (tensor * tensor * tensor) :=
  match n with
  | O => Ok h0
  | S l =>
      h ← hidden_with_dihedral self b vba vbl vang vdih bond_batch angle_batch h0 l;
      node_hidden ← block_output (atom_bond_block_list self) l h.1.1 h.1.2
                       (AtomBondGraph_edges b) (atom_batch b);
      cur_edge_hidden ← bond_refresh self l vba vbl;
      edge_hidden ← block_output (bond_angle_block_list self) l
                       cur_edge_hidden h.2
                       (BondAngleGraph_edges b) bond_batch;
      cur_angle_hidden ← angle_refresh self l vang;
      cur_dihedral_hidden ← dihedral_refresh self l vdih;
      blks ← module_list (angle_dihedral_block_list self);
      angle_hidden ← block_output blks l cur_angle_hidden cur_dihedral_hidden
                        (AngleDihedralGraph_edges b) angle_batch;
      Ok (node_hidden, edge_hidden, angle_hidden)
  end.

(** The five results of [forward] from the contents of the masked copies. *)
Definition encoding_of (self : EGeoGNNModel) (b : batch)
    (vx vba vbl vang vdih : tval) : result encoding :=
  h0 ← initial_hidden self vx vba vbl;
  if without_dihedral self then
    graph_idx ← arange (num_graphs b);
    bond_batch ← repeat_interleave graph_idx (num_bonds b);
    h ← hidden_without_dihedral self b vba vbl vang bond_batch h0 (n_layers self);
    graph_repr ← global_mean_pool h.1 (atom_batch b) (num_graphs b);
    Ok (Encoding h.1 h.2 None None graph_repr)
  else
    angle_hidden ← init_bond_angle_float_rbf self vang;
    graph_idx ← arange (num_graphs b);
    bond_batch ← repeat_interleave graph_idx (num_bonds b);
    angle_batch ← repeat_interleave graph_idx (num_angles b);
    h ← hidden_with_dihedral self b vba vbl vang vdih bond_batch angle_batch
          (h0.1, h0.2, angle_hidden) (n_layers self);
    dihedral_repr ← match n_layers self with
                    | O => Raise UnboundLocalError
                    | S l => dihedral_refresh self l vdih
                    end;
    graph_repr ← global_mean_pool h.1.1 (atom_batch b) (num_graphs b);
    Ok (Encoding h.1.1 h.1.2 (Some h.2) (Some dihedral_repr) graph_repr).

(** The block calls of layer [l], from the hidden states after [l] layers. *)
Definition calls_without_dihedral (self : EGeoGNNModel) (b : batch)
    (vba vbl vang : tval) (bond_batch : indices) (h : tensor * tensor) (l : nat)
    : result (list call) :=
  cur_edge_hidden ← bond_refresh self l vba vbl;
  cur_angle_hidden ← angle_refresh self l vang;
  Ok [Call AtomBondBlock l h.1 h.2 (AtomBondGraph_edges b) (atom_batch b);
      Call BondAngleBlock l cur_edge_hidden cur_angle_hidden
        (BondAngleGraph_edges b) bond_batch].

Definition calls_with_dihedral (self : EGeoGNNModel) (b : batch)
    (vba vbl vang vdih : tval) (bond_batch angle_batch : indices)
    (h : tensor * tensor * tensor) (l : nat) : result (list call) :=
  cur_edge_hidden ← bond_refresh self l vba vbl;
  cur_angle_hidden ← angle_refresh self l vang;
  cur_dihedral_hidden ← dihedral_refresh self l vdih;
  Ok [Call AtomBondBlock l h.1.1 h.1.2 (AtomBondGraph_edges b) (atom_batch b);
      Call BondAngleBlock l cur_edge_hidden h.2 (BondAngleGraph_edges b) bond_batch;
      Call AngleDihedralBlock l cur_angle_hidden cur_dihedral_hidden
        (AngleDihedralGraph_edges b) angle_batch].

(** The five results of [forward] from the contents of the five tensors of
    the caller: the contents are masked, then encoded. *)
Definition encoding_of_batch (self : EGeoGNNModel) (b : batch)
    (nx : nat) (rx : list (list Z)) (nb : nat) (rb : list (list Z))
    (vl va vd : vec) : result encoding :=
  rx' ← masked_matrix (atom_feature_dims self) (masked_atom_indices b) nx rx;
  rb' ← masked_matrix (bond_feature_dims self) (masked_bond_indices b) nb rb;
  vl' ← masked_vector (masked_bond_indices b) vl;
  va' ← masked_vector (masked_angle_indices b) va;
  vd' ← masked_vector (masked_dihedral_indices b) vd;
  encoding_of self b (LongT nx rx') (LongT nb rb') (FloatT vl') (FloatT va')
    (FloatT vd').

(** A computation that writes no tensor object. *)
Definition keeps_store {A} (m : M A) : Prop :=
  forall w, store (m w).2 = store w.

(** What identifies a message-passing pass: the block, the layer, the graph
    it runs on and the batch vector of its nodes. *)
Definition pass_signature (c : call) : block_id * nat * edges * indices :=
  (callee c, layer c, edge_index_arg c, node_batches_arg c).

(** The passes of layer [l] in the order of the loop body. *)
Definition layer_passes (self : EGeoGNNModel) (b : batch)
    (bond_batch angle_batch : indices) (l : nat)
    : list (block_id * nat * edges * indices) :=
  [(AtomBondBlock, l, AtomBondGraph_edges b, atom_batch b);
   (BondAngleBlock, l, BondAngleGraph_edges b, bond_batch)] ++
  (if without_dihedral self then []
   else [(AngleDihedralBlock, l, AngleDihedralGraph_edges b, angle_batch)]).

(** Two tensors of the same number of rows that agree at every row an index
    set does not address. *)
Definition agree_off {A} (ids : option indices) (t1 t2 : list A) : Prop :=
  length t1 = length t2 /\
  forall r, ~ addressed (length t1) ids r -> t1 !! r = t2 !! r.

(** ** [EGEM.forward] *)

(** The label tensors that only [compute_loss] reads, by their contents. *)
Record labels : Type := {
  cm5_charges : vec;
  espc_charges : vec;
  hirshfeld_charges : vec;
  npa_charges : vec;
  bond_orders : vec
}.

(** A tensor of the caller handed to [compute_loss] as a regression target.
    The targets are vectors of scalars; a feature matrix in this place is
    outside the model of the heads (RuntimeError). *)
Definition float_tensor (l : loc) : M vec :=
  v ← read l;
  match v with
  | FloatT xs => mret xs
  | LongT _ _ => throw RuntimeError
  end.

(** The encoder runs on the batch; of its five results only node_repr is
    used.  [compute_loss] then gets the tensors [bond_lengths], [bond_angles]
    and [dihedral_angles] of the caller, not the masked copies, which are
    local to the encoder. *)
Definition EGEM_forward (self : EGEM) (b : batch) (t : labels)
    : M (pyloss * loss_dict) :=
  enc ← forward (compound_encoder self) b;
  let atom_attr := node_repr enc in
  vl ← float_tensor (bond_lengths b);
  va ← float_tensor (bond_angles b);
  vd ← float_tensor (dihedral_angles b);
  lift (compute_loss self vl va vd (AtomBondGraph_edges b) atom_attr
          (BondAngleGraph_edges b) (AngleDihedralGraph_edges b)
          (cm5_charges t) (espc_charges t) (hirshfeld_charges t) (npa_charges t)
          (bond_orders t)
          (masked_atom_indices b) (masked_bond_indices b)
          (masked_angle_indices b) (masked_dihedral_indices b)).

(** The index set each block of [compute_loss] hands to its head. *)
Definition loss_index_sets
    (masked_atom_indices masked_bond_indices
     masked_angle_indices masked_dihedral_indices : option indices)
    : list (string * option indices) :=
  [("Blr", masked_bond_indices); ("Bar", masked_angle_indices);
   ("Dar", masked_dihedral_indices); ("CM5", masked_atom_indices);
   ("ESPC", masked_atom_indices); ("HIRSHFELD", masked_atom_indices);
   ("NPA", masked_atom_indices); ("WIBERG", masked_bond_indices)].

(** The chain of [Demo] with other values at atom 1, at bond 0 and at the
    second bond angle. *)
Module Variant.

Definition varied_store : heap :=
  <[Demo.x_ref := LongT 2 [[1; 0]; [9; 4]; [1; 1]; [3; 0]]]>
  (<[Demo.bond_attr_ref := LongT 1 [[3]; [1]; [0]]]>
  (<[Demo.bond_lengths_ref := FloatT [Demo.of_Z 8; Demo.of_Z 2; Demo.of_Z 3]]>
  (<[Demo.bond_angles_ref := FloatT [Demo.of_Z 2; Demo.of_Z 5]]>
  (<[Demo.dihedral_angles_ref := FloatT [Demo.of_Z 1]]> ∅)))).

Definition varied_world : world := World varied_store [].

(** Atom 1, bond 0 and the last bond angle are masked. *)
Definition masked_chain : batch :=
  Demo.chain [3] (Some [1]) (Some [0]) (Some [-1]) None.

(** All four index sets given, for the pretraining heads. *)
Definition pretrain_chain : batch :=
  Demo.chain [3] (Some [1]) (Some [0]) (Some [1]) (Some [0]).

(** The last bond masked by the index -1. *)
Definition last_bond_chain : batch :=
  Demo.chain [3] None (Some [-1]) None None.

(** The chain in a batch of two graphs, the second of which has no atom. *)
Definition chain_and_empty : batch :=
  {| AtomBondGraph_edges := [(0, 1); (1, 2); (2, 3)];
     BondAngleGraph_edges := [(0, 1); (1, 2)];
     AngleDihedralGraph_edges := [(0, 1)];
     x := Demo.x_ref;
     bond_attr := Demo.bond_attr_ref;
     bond_lengths := Demo.bond_lengths_ref;
     bond_angles := Demo.bond_angles_ref;
     dihedral_angles := Demo.dihedral_angles_ref;
     atom_batch := [0; 0; 0; 0];
     num_bonds := [3; 0];
     num_angles := [2; 0];
     num_graphs := 2;
     masked_atom_indices := None;
     masked_bond_indices := None;
     masked_angle_indices := None;
     masked_dihedral_indices := None |}.

(** The chain with an atom_batch of a single entry. *)
Definition single_entry_chain : batch :=
  {| AtomBondGraph_edges := [(0, 1); (1, 2); (2, 3)];
     BondAngleGraph_edges := [(0, 1); (1, 2)];
     AngleDihedralGraph_edges := [(0, 1)];
     x := Demo.x_ref;
     bond_attr := Demo.bond_attr_ref;
     bond_lengths := Demo.bond_lengths_ref;
     bond_angles := Demo.bond_angles_ref;
     dihedral_angles := Demo.dihedral_angles_ref;
     atom_batch := [0];
     num_bonds := [3];
     num_angles := [2];
     num_graphs := 1;
     masked_atom_indices := None;
     masked_bond_indices := None;
     masked_angle_indices := None;
     masked_dihedral_indices := None |}.

Definition chain_labels : labels :=
  {| cm5_charges := [Demo.of_Z 0; Demo.of_Z 4; Demo.of_Z 0; Demo.of_Z 0];
     espc_charges := [Demo.of_Z 0; Demo.of_Z 0; Demo.of_Z 0; Demo.of_Z 0];
     hirshfeld_charges := [Demo.of_Z 0; Demo.of_Z 0; Demo.of_Z 0; Demo.of_Z 0];
     npa_charges := [Demo.of_Z 0; Demo.of_Z 0; Demo.of_Z 0; Demo.of_Z 0];
     bond_orders := [Demo.of_Z 1; Demo.of_Z 1; Demo.of_Z 1] |}.

End Variant.

(** ** The attributes of an encoder

    The names [EGeoGNNModel.__init__] assigns on [self], in the order of
    the source.  ([nn.Module] defines attributes of its own; none of them
    is named embed_dim.) *)
Definition EGeoGNNModel_attribute_names (without_dihedral : bool) : list string :=
  ["without_dihedral"; "latent_size"; "dropout_rate"; "n_layers";
   "atom_names"; "bond_names";
   "init_atom_embedding"; "init_bond_embedding"; "init_bond_float_rbf";
   "init_bond_angle_float_rbf";
   "bond_embedding_list"; "bond_float_rbf_list"; "bond_angle_float_rbf_list"] ++
  (if without_dihedral then [] else ["dihedral_angle_float_rbf_list"]) ++
  ["atom_bond_block_list"; "bond_angle_block_list"] ++
  (if without_dihedral then [] else ["angle_dihedral_block_list"]).

(** [self.name]: the attribute, whatever its value, or AttributeError. *)
Definition getattr (names : list string) (name : string) : result unit :=
  if decide (name ∈ names) then Ok tt else Raise AttributeError.

(** The properties [node_dim] and [graph_dim] of an encoder as constructed:
    both return [self.embed_dim]. *)
Definition node_dim (without_dihedral : bool) : result unit :=
  getattr (EGeoGNNModel_attribute_names without_dihedral) "embed_dim".

Definition graph_dim (without_dihedral : bool) : result unit :=
  getattr (EGeoGNNModel_attribute_names without_dihedral) "embed_dim".

(** ** An [EGEM] with all nine heads

    [EGEM.__init__] as it would be if every head were created whatever the
    task list. *)
Definition EGEM_all_heads (encoder : EGeoGNNModel) (tasks : list string) (p : heads)
    : EGEM :=
  {| compound_encoder := encoder;
     pretrain_tasks := tasks;
     Blr_head := Some (new_Blr p);
     Bar_head := Some (new_Bar p);
     Dar_head := Some (new_Dar p);
     Adc_head := Some (new_Adc p);
     cm5_head := Some (new_cm5 p);
     espc_head := Some (new_espc p);
     hirshfeld_head := Some (new_hirshfeld p);
     npa_head := Some (new_npa p);
     wiberg_head := Some (new_wiberg p) |}.

(** ** The input sizes of the heads

    [input_size] of the MLP that [EGEM.__init__] creates for a task, a
    multiple of the latent size of the encoder.  (The constructor creates
    an MLP for the nine task names only.) *)
Definition MLP_input_size (latent_size : nat) (task : string) : nat :=
  if decide (task = "Blr") then latent_size * 2
  else if decide (task = "Bar") then latent_size * 3
  else if decide (task = "Dar") then latent_size * 4
  else if decide (task = "Adc") then latent_size * 2
  else if decide (task = "WIBERG") then latent_size * 2
  else latent_size.

(** An MLP of a given input size: its first linear layer accepts rows of
    that width only. *)
Definition expects (input_size : nat) (f : mlp) : mlp := fun t =>
  if decide (rectangular input_size t) then f t else Raise RuntimeError.

Definition sized (input_size : nat) (h : head) : head :=
  Head (expects input_size (head_mlp h)) (head_loss h).

(** * The inference script (inference_regr_transformer.py)

    The data path of the script: what [main_cli], [main] and [inference] do
    with the list of SMILES, the endpoints and the predictions.  Reading the
    files, building the models and writing the CSV file are left out.  The
    dataset and the downstream model are defined outside the two source
    files: a molecule is identified with its SMILES string, a batch with the
    list of its molecules, and the model (with the endpoints of the run) with
    a function from a batch to the flattened array of its predictions. *)

(** The exceptions of the script: those of numpy, pandas and the loader, a
    missing key of a dict, and whatever the model raises. *)
Inductive script_error : Type :=
  | ValueError
  | KeyError
  | Raised (e : exn).

Inductive outcome (A : Type) : Type :=
  | Returns (a : A)
  | Fails (e : script_error).
Arguments Returns {A} a.
Arguments Fails {A} e.

#[global] Instance outcome_ret : MRet outcome := @Returns.
#[global] Instance outcome_bind : MBind outcome := fun A B f m =>
  match m with
  | Returns a => f a
  | Fails e => Fails e
  end.

Definition downstream_model : Type := list string -> result (list Qc).

Definition call_model (model : downstream_model) (batch : list string)
    : outcome (list Qc) :=
  match model batch with
  | Ok pred => Returns pred
  | Raise e => Fails (Raised e)
  end.

(** [np.repeat(a, repeats)]: every element [repeats] times, in place. *)
Definition np_repeat {A} (a : list A) (repeats : nat) : list A :=
  a ≫= replicate repeats.

(** Consecutive pieces of [size] elements, the last one possibly shorter;
    [fuel] bounds the number of pieces. *)
Fixpoint pieces {A} (fuel size : nat) (l : list A) : list (list A) :=
  match fuel, l with
  | S fuel', _ :: _ => take size l :: pieces fuel' size (drop size l)
  | _, _ => []
  end.

(** [DataLoader(dataset, batch_size=batch_size, shuffle=False)], iterated
    once: the batches in the order of the dataset. *)
Definition DataLoader {A} (dataset : list A) (batch_size : nat)
    : outcome (list (list A)) :=
  if decide (batch_size = 0%nat) then Fails ValueError
  else Returns (pieces (length dataset) batch_size dataset).

(** [np.hstack(arrays)] on one-dimensional arrays. *)
Definition hstack (arrays : list (list Qc)) : outcome (list Qc) :=
  match arrays with
  | [] => Fails ValueError
  | _ => Returns (concat arrays)
  end.

(** [a.reshape(-1, ncol)] on a one-dimensional array, for [ncol] > 0. *)
Definition reshape (a : list Qc) (ncol : nat) : outcome (list (list Qc)) :=
  if decide (length a `mod` ncol = 0)%nat
  then Returns (pieces (length a) ncol a)
  else Fails ValueError.

(** The loop of [inference]: the predictions of the batches are appended to
    [results], their SMILES to [smiles]. *)
Fixpoint inference_loop (model : downstream_model) (loader : list (list string))
    (results : list (list Qc)) (smiles : list string)
    : outcome (list (list Qc) * list string) :=
  match loader with
  | [] => Returns (results, smiles)
  | batch :: loader' =>
      pred_scaled ← call_model model batch;
      inference_loop model loader' (results ++ [pred_scaled]) (smiles ++ batch)
  end.

Definition inference (model : downstream_model) (loader : list (list string))
    : outcome (list (list Qc) * list string) :=
  '(results, smiles) ← inference_loop model loader [] [];
  flat ← hstack results;
  results ← reshape flat 4;
  Returns (results, smiles).

(** [l[0::step]] *)
Fixpoint every_fuel {A} (fuel step : nat) (l : list A) : list A :=
  match fuel, l with
  | S fuel', a :: _ => a :: every_fuel fuel' step (drop step l)
  | _, _ => []
  end.

Definition every {A} (step : nat) (l : list A) : outcome (list A) :=
  if decide (step = 0%nat) then Fails ValueError
  else Returns (every_fuel (length l) step l).

(** A data frame: row labels, column labels and the rows. *)
Record DataFrame : Type := {
  frame_index : list string;
  frame_columns : list string;
  frame_values : list (list Qc)
}.

(** [pd.DataFrame(data, index=index, columns=columns)] on a two-dimensional
    array of [ncol] columns: the shape of the data has to be that of the
    labels. *)
Definition new_frame (data : list (list Qc)) (ncol : nat)
    (index columns : list string) : outcome DataFrame :=
  if decide (length data = length index /\ ncol = length columns)
  then Returns {| frame_index := index; frame_columns := columns;
                  frame_values := data |}
  else Fails ValueError.

(** [df[endpoint] = df[endpoint] * std + mean]: the entries of the columns
    labelled [endpoint] are rescaled. *)
Definition rescale_column (endpoint : string) (mean std : Qc) (df : DataFrame)
    : DataFrame :=
  {| frame_index := frame_index df;
     frame_columns := frame_columns df;
     frame_values :=
       (fun row =>
          imap (fun j v => if decide (frame_columns df !! j = Some endpoint)
                           then (v * std + mean)%Qc else v) row)
       <$> frame_values df |}.

(** The loop over the endpoints; [statuses] holds the mean and the standard
    deviation of each endpoint. *)
Fixpoint rescale (statuses : gmap string (Qc * Qc)) (endpoints : list string)
    (df : DataFrame) : outcome DataFrame :=
  match endpoints with
  | [] => Returns df
  | endpoint :: endpoints' =>
      match statuses !! endpoint with
      | Some (mean, std) =>
          rescale statuses endpoints' (rescale_column endpoint mean std df)
      | None => Fails KeyError
      end
  end.

(** [main], from the list of SMILES of the arguments to the frame that is
    written. *)
Definition main (model : downstream_model) (statuses : gmap string (Qc * Qc))
    (endpoints smiles_list : list string) : outcome DataFrame :=
  loader ← DataLoader smiles_list (length endpoints);
  '(pred_scaled, smiles) ← inference model loader;
  index ← every (length endpoints) smiles;
  pred_scaled_df ← new_frame pred_scaled 4 index endpoints;
  rescale statuses endpoints pred_scaled_df.

(** [main_cli]: every SMILES of the input file once per endpoint. *)
Definition main_cli (model : downstream_model) (statuses : gmap string (Qc * Qc))
    (endpoints data : list string) : outcome DataFrame :=
  main model statuses endpoints (np_repeat data (length endpoints)).

(** The value the script writes for a prediction. *)
Definition descale (statuses : gmap string (Qc * Qc)) (endpoint : string) (v : Qc)
    : Qc :=
  match statuses !! endpoint with
  | Some (mean, std) => (v * std + mean)%Qc
  | None => v
  end.

(** A small run of the script: the model predicts for each batch the length
    of its first SMILES, the size of the batch, and two constants. *)
Module Run.

Definition model : downstream_model := fun batch =>
  Ok [Demo.of_Z (Z.of_nat (String.length (hd EmptyString batch)));
      Demo.of_Z (Z.of_nat (length batch)); Demo.of_Z 0; Demo.of_Z 1].

Definition endpoints : list string := ["logP"; "logS"; "pKa"; "Tm"].

Definition statuses : gmap string (Qc * Qc) :=
  list_to_map [("logP", (Demo.of_Z 1, Demo.of_Z 2)); ("logS", (Demo.of_Z 0, Demo.of_Z 3));
               ("pKa", (Demo.of_Z 7, Demo.of_Z 1)); ("Tm", (Demo.of_Z 300, Demo.of_Z 50))].

Definition data : list string := ["CCO"; "C"].

End Run.

(** * Properties *)

(** ** Reasoning about computations over the state *)

Lemma bind_run {A B} (m : M A) (f : A -> M B) (w : world) :
  (m ≫= f) w = match m w with
               | (Ok a, w') => f a w'
               | (Raise e, w') => (Raise e, w')
               end.
Proof. reflexivity. Qed.

Lemma result_bind_ok {A B} (a : A) (f : A -> result B) : (Ok a ≫= f) = f a.
Proof. reflexivity. Qed.

Lemma result_bind_inv {A B} (m : result A) (f : A -> result B) (b : B) :
  (m ≫= f) = Ok b -> exists a, m = Ok a /\ f a = Ok b.
Proof. destruct m as [a|e]; [|done]. intros H. by exists a. Qed.

Section Triples.
Context (I : world -> Prop) (E : exn -> Prop).

Lemma triple_ret {A} (a : A) (Q : A -> Prop) : Q a -> triple I (mret a) Q E.
Proof.
  intros HQ w HI. split; [exact HI|]. split; [|intros e [=]].
  intros a' [= <-]. exact HQ.
Qed.

Lemma triple_throw {A} (e : exn) (Q : A -> Prop) : E e -> triple I (throw e) Q E.
Proof.
  intros HE w HI. split; [exact HI|]. split; [intros a' [=]|].
  intros e' [= <-]. exact HE.
Qed.

Lemma triple_lift {A} (r : result A) (Q : A -> Prop) :
  (forall a, r = Ok a -> Q a) -> (forall e, r = Raise e -> E e) ->
  triple I (lift r) Q E.
Proof. intros HQ HE w HI. split; [exact HI|]. split; [exact HQ | exact HE]. Qed.

Lemma triple_bind {A B} (m : M A) (f : A -> M B) (Q : A -> Prop) (R : B -> Prop) :
  triple I m Q E -> (forall a, Q a -> triple I (f a) R E) -> triple I (m ≫= f) R E.
Proof.
  intros Hm Hf w HI. rewrite bind_run.
  destruct (Hm w HI) as (HI' & HQ & HE). destruct (m w) as [[a|e] w']; simpl in *.
  - apply (Hf a (HQ a eq_refl) w' HI').
  - split; [exact HI'|]. split; [intros a' [=]|]. intros e' [= <-]. by apply HE.
Qed.

Lemma triple_forM_ {A} (xs : list A) (body : A -> M unit) :
  (forall x, x ∈ xs -> triple I (body x) any E) ->
  triple I (forM_ xs body) any E.
Proof.
  induction xs as [|x xs IH]; intros Hbody; simpl.
  - by apply triple_ret.
  - eapply triple_bind.
    + apply Hbody. left.
    + intros _ _. apply IH. intros y Hy. apply Hbody. by right.
Qed.

Lemma triple_for_layers {S} (body : S -> nat -> M S) (P : S -> Prop)
    (ids : list nat) (st : S) :
  (forall s i, i ∈ ids -> P s -> triple I (body s i) P E) ->
  P st -> triple I (for_layers body ids st) P E.
Proof.
  revert st. induction ids as [|i ids IH]; intros st Hbody HP; simpl.
  - by apply triple_ret.
  - eapply triple_bind.
    + apply Hbody; [left | exact HP].
    + intros s Hs. apply IH; [|exact Hs].
      intros s' j Hj. apply Hbody. by right.
Qed.
End Triples.

(** ** [mask_attr] leaves the objects of the caller as they were *)

Section MaskAttrTriple.
(** An invariant [I] that survives the allocation of a new object and the
    update of an object that is writable ([P]); new objects are writable. *)
Context (I : world -> Prop) (P : loc -> Prop) (E : exn -> Prop).
Hypothesis I_alloc : forall w c v, I w -> store w !! c = None ->
  I (World (<[c := v]> (store w)) (calls w)) /\ P c.
Hypothesis I_write : forall w c v, I w -> P c ->
  I (World (<[c := v]> (store w)) (calls w)).
Hypothesis E_index : E IndexError.
Hypothesis E_runtime : E RuntimeError.
Hypothesis E_unallocated : E Unallocated.

Lemma mask_read l : triple I (read l) any E.
Proof.
  intros w HI. unfold read. destruct (store w !! l); simpl.
  - by repeat split.
  - split; [done|]. split; [done|]. by intros e [= <-].
Qed.

Lemma mask_norm_indices n ids : triple I (lift (norm_indices n ids)) any E.
Proof.
  apply triple_lift; [done|]. intros e. unfold norm_indices.
  induction ids as [|i ids IH]; simpl; [done|].
  destruct (norm_index n i); simpl; [|by intros [= <-]].
  destruct (mapM _ ids); simpl; [done|]. intros [= <-]. by apply IH.
Qed.

Lemma mask_list_get {A} (l : list A) i : triple I (lift (list_get l i)) any E.
Proof.
  apply triple_lift; [done|]. intros e. unfold list_get.
  destruct (l !! i); [done|]. by intros [= <-].
Qed.

Lemma mask_deepcopy l : triple I (deepcopy l) P E.
Proof.
  intros w HI. unfold deepcopy.
  pose proof (is_fresh (dom (store w))) as Hfresh.
  apply not_elem_of_dom in Hfresh.
  destruct (store w !! l) as [v|]; simpl.
  - destruct (I_alloc w (fresh (dom (store w))) v HI Hfresh) as [HI' HP].
    split; [done|]. split; [|done]. by intros a [= <-].
  - split; [done|]. split; [done|]. by intros e [= <-].
Qed.

Lemma mask_write l v : P l -> triple I (write l v) any E.
Proof. intros Hl w HI. split; [|done]. by apply I_write. Qed.

Lemma mask_shape1 l : triple I (shape1 l) any E.
Proof.
  eapply triple_bind; [apply mask_read|]. intros [n rows|v] _.
  - by apply triple_ret.
  - by apply triple_throw.
Qed.

Lemma mask_long_scalar c : triple I (lift (long_scalar c)) any E.
Proof.
  apply triple_lift; [done|]. intros e. unfold long_scalar.
  case_decide; [done|]. by intros [= <-].
Qed.

Lemma mask_column_put l i ids c : P l -> triple I (column_put l i ids c) any E.
Proof.
  intros Hl. eapply triple_bind; [apply mask_read|]. intros [n rows|v] _.
  - case_decide; [|by apply triple_throw].
    eapply triple_bind; [apply mask_long_scalar|]. intros c' _.
    eapply triple_bind; [apply mask_norm_indices|].
    intros rs _. by apply mask_write.
  - by apply triple_throw.
Qed.

Lemma mask_zero_put l ids : P l -> triple I (zero_put l ids) any E.
Proof.
  intros Hl. eapply triple_bind; [apply mask_read|]. intros [n rows|v] _.
  - eapply triple_bind; [apply mask_norm_indices|].
    intros rs _. by apply mask_write.
  - eapply triple_bind; [apply mask_norm_indices|].
    intros rs _. by apply mask_write.
Qed.

Lemma mask_column_loop l vocab (ids : option indices) cols :
  P l ->
  triple I (forM_ cols (fun i =>
              match ids with
              | Some ids => v ← lift (list_get vocab i); column_put l i ids (v - 1)
              | None => mret tt
              end)) any E.
Proof.
  intros Hl. apply triple_forM_. intros i _. destruct ids as [ids|].
  - eapply triple_bind; [apply mask_list_get|].
    intros v _. by apply mask_column_put.
  - by apply triple_ret.
Qed.

Lemma mask_opt_zero_put l (ids : option indices) :
  P l ->
  triple I (match ids with
            | Some ids => zero_put l ids
            | None => mret tt
            end) any E.
Proof. intros Hl. destruct ids; [by apply mask_zero_put | by apply triple_ret]. Qed.

Lemma mask_attr_triple self x ba bl ang dih ma mb mg md :
  triple I (mask_attr self x ba bl ang dih ma mb mg md) any E.
Proof.
  unfold mask_attr.
  eapply triple_bind; [apply mask_deepcopy|]. intros c1 H1.
  eapply triple_bind; [apply mask_deepcopy|]. intros c2 H2.
  eapply triple_bind; [apply mask_deepcopy|]. intros c3 H3.
  eapply triple_bind; [apply mask_deepcopy|]. intros c4 H4.
  eapply triple_bind; [apply mask_deepcopy|]. intros c5 H5.
  eapply triple_bind; [apply mask_shape1|]. intros nx _.
  eapply triple_bind; [by apply mask_column_loop|]. intros _ _.
  eapply triple_bind; [apply mask_shape1|]. intros nb _.
  eapply triple_bind; [by apply mask_column_loop|]. intros _ _.
  eapply triple_bind; [by apply mask_opt_zero_put|]. intros _ _.
  eapply triple_bind; [by apply mask_opt_zero_put|]. intros _ _.
  eapply triple_bind; [by apply mask_opt_zero_put|]. intros _ _.
  by apply triple_ret.
Qed.
End MaskAttrTriple.

(** [mask_attr] keeps the objects of the initial store and calls no block. *)
Lemma kept_mask_attr s0 c0 self x ba bl ang dih ma mb mg md :
  triple (kept s0 c0) (mask_attr self x ba bl ang dih ma mb mg md) any any.
Proof.
  apply (mask_attr_triple (kept s0 c0) (fun c => s0 !! c = None) any); try done.
  - intros w c v [Hs Hc] Hnone. split; [split; [|done]|].
    + simpl. etrans; [exact Hs|]. by apply insert_subseteq.
    + destruct (s0 !! c) as [v'|] eqn:Hv; [|done].
      eapply lookup_weaken in Hv; [|exact Hs]. congruence.
  - intros w c v [Hs Hc] Hnone. split; [|done]. simpl. by apply insert_subseteq_r.
Qed.

(** C4. [mask_attr] never mutates its inputs: whatever the five tensors, the
    four index sets (including [None]) and the state, every tensor object
    that exists before the call, the five arguments among them, has the same
    contents after the call, whether the call returns or raises. *)
Theorem mask_attr_keeps_inputs (self : EGeoGNNModel)
    (x bond_attr bond_lengths bond_angles dihedral_angles : loc)
    (ma mb mg md : option indices) (w : world) (l : loc) :
  is_Some (store w !! l) ->
  store (mask_attr self x bond_attr bond_lengths bond_angles dihedral_angles
           ma mb mg md w).2 !! l = store w !! l.
Proof.
  intros [v Hv].
  destruct (kept_mask_attr (store w) (calls w) self x bond_attr bond_lengths
              bond_angles dihedral_angles ma mb mg md w) as [[H _] _]; [by split|].
  rewrite Hv. eapply lookup_weaken; [exact Hv | exact H].
Qed.

(** ** What [mask_attr] writes into the copies *)

Lemma mapM_Forall2 {A B} (f : A -> result B) (xs : list A) (ys : list B) :
  mapM f xs = Ok ys -> Forall2 (fun x y => f x = Ok y) xs ys.
Proof.
  revert ys. induction xs as [|x xs IH]; intros ys; simpl.
  - intros [= <-]. constructor.
  - destruct (f x) as [y|e] eqn:Ef; simpl; [|done].
    destruct (mapM f xs) as [ys'|e] eqn:Em; simpl; [|done].
    intros [= <-]. constructor; [exact Ef | by apply IH].
Qed.

Lemma norm_index_lt (n : nat) (i : Z) (r : nat) :
  norm_index n i = Some r -> (r < n)%nat.
Proof. unfold norm_index. repeat case_decide; intros [=]; lia. Qed.

Lemma norm_indices_elem (n : nat) (ids : indices) (rs : list nat) (r : nat) :
  norm_indices n ids = Ok rs ->
  r ∈ rs <-> addressed n (Some ids) r.
Proof.
  intros H. apply mapM_Forall2 in H. split.
  - intros Hr. induction H as [|i r' ids rs Hi H IH].
    + by apply elem_of_nil in Hr.
    + apply elem_of_cons in Hr as [->|Hr].
      * exists (i :: ids), i. split; [done|]. split; [left|].
        destruct (norm_index n i); congruence.
      * destruct (IH Hr) as (l & j & [= <-] & Hj & Hn).
        exists (i :: ids), j. split; [done|]. split; [by right | done].
  - intros (l & j & [= <-] & Hj & Hn). induction H as [|i r' ids rs Hi H IH].
    + by apply elem_of_nil in Hj.
    + apply elem_of_cons in Hj as [->|Hj].
      * rewrite Hn in Hi. injection Hi as ->. left.
      * right. by apply IH.
Qed.

Lemma put_rows_length {A} (f : A -> A) (rs : list nat) (t : list A) :
  length (put_rows f rs t) = length t.
Proof.
  unfold put_rows. revert t. induction rs as [|r rs IH]; intros t; simpl; [done|].
  rewrite IH. apply length_alter.
Qed.

Lemma put_rows_notin {A} (f : A -> A) (rs : list nat) (t : list A) (r : nat) :
  r ∉ rs -> put_rows f rs t !! r = t !! r.
Proof.
  unfold put_rows. revert t. induction rs as [|r0 rs IH]; intros t Hr; simpl; [done|].
  apply not_elem_of_cons in Hr as [Hne Hr].
  rewrite IH by done. by apply list_lookup_alter_ne.
Qed.

Lemma put_rows_in {A} (f : A -> A) (rs : list nat) (t : list A) (r : nat) :
  (forall a, f (f a) = f a) ->
  r ∈ rs -> put_rows f rs t !! r = f <$> t !! r.
Proof.
  intros Hf. unfold put_rows. revert t.
  induction rs as [|r0 rs IH]; intros t Hr; simpl.
  - by apply elem_of_nil in Hr.
  - destruct (decide (r ∈ rs)) as [Hin|Hnotin].
    + rewrite IH by done. destruct (decide (r0 = r)) as [->|Hne].
      * rewrite list_lookup_alter_eq. destruct (t !! r); simpl; by rewrite ?Hf.
      * by rewrite list_lookup_alter_ne.
    + apply elem_of_cons in Hr as [->|Hr]; [|done].
      fold (put_rows f rs (alter f r0 t)). rewrite put_rows_notin by done.
      apply list_lookup_alter_eq.
Qed.

Lemma rectangular_put_rows (ncol i : nat) (c : Z) (rs : list nat) (rows : list (list Z)) :
  rectangular ncol rows ->
  rectangular ncol (put_rows (fun row => <[i := c]> row) rs rows).
Proof.
  unfold put_rows. revert rows. induction rs as [|r rs IH]; intros rows H; simpl; [done|].
  apply IH. unfold rectangular in *. apply Forall_alter; [done|].
  intros row _ Hrow. by rewrite length_insert.
Qed.

(** The effect of the column loop on the entries. *)
Lemma mask_columns_spec (vocab : list Z) (ids : indices) (ncol : nat) (cols : list nat) :
  forall rows rows',
  mask_columns vocab ids cols rows = Ok rows' ->
  rectangular ncol rows ->
  length rows' = length rows /\
  rectangular ncol rows' /\
  (forall r, ~ addressed (length rows) (Some ids) r -> rows' !! r = rows !! r) /\
  (forall r i, i ∉ cols -> entry rows' r i = entry rows r i) /\
  (forall r i, addressed (length rows) (Some ids) r -> i ∈ cols -> (i < ncol)%nat ->
     exists v, vocab !! i = Some v /\ entry rows' r i = Some (v - 1)).
Proof.
  induction cols as [|i0 cols IH]; intros rows rows'; simpl.
  - intros [= <-] Hrect. repeat split; try done.
    intros r i _ Hi. by apply elem_of_nil in Hi.
  - unfold list_get. destruct (vocab !! i0) as [v0|] eqn:Ev; simpl; [|done].
    unfold long_scalar. case_decide as Hfit; simpl; [|done].
    destruct (norm_indices (length rows) ids) as [rs|e] eqn:Ers; simpl; [|done].
    intros Hrun Hrect.
    set (rows1 := put_rows (fun row => <[i0 := v0 - 1]> row) rs rows) in *.
    assert (Hlen1 : length rows1 = length rows) by apply put_rows_length.
    assert (Hrect1 : rectangular ncol rows1) by by apply rectangular_put_rows.
    destruct (IH rows1 rows' Hrun Hrect1) as (Hlen & Hrect' & Hun & Hcol & Hset).
    rewrite Hlen1 in *.
    assert (Hidem : forall row : list Z, <[i0 := v0 - 1]> (<[i0 := v0 - 1]> row)
                                         = <[i0 := v0 - 1]> row).
    { intros row. apply list_insert_insert_eq. }
    assert (Hstep : forall r i, entry rows1 r i =
              if decide (r ∈ rs) then row ← rows !! r; <[i0 := v0 - 1]> row !! i
              else entry rows r i).
    { intros r i. unfold entry, rows1. case_decide as Hr.
      - rewrite put_rows_in by done. by destruct (rows !! r).
      - by rewrite put_rows_notin. }
    split; [done|]. split; [done|]. split; [|split].
    + intros r Hr. rewrite Hun by done. unfold rows1.
      apply put_rows_notin. intros Hin. apply Hr.
      by apply (norm_indices_elem (length rows) ids rs r Ers).
    + intros r i Hi. apply not_elem_of_cons in Hi as [Hne Hi].
      rewrite Hcol by done. rewrite Hstep. case_decide; [|done].
      unfold entry. destruct (rows !! r) as [row|]; simpl; [|done].
      by apply list_lookup_insert_ne.
    + intros r i Hr Hi Hlt.
      destruct (decide (i ∈ cols)) as [Hin|Hnotin]; [by apply Hset|].
      apply elem_of_cons in Hi as [->|Hi]; [|done].
      exists v0. split; [done|]. rewrite Hcol by done. rewrite Hstep.
      assert (Hrl : (r < length rows)%nat).
      { destruct Hr as (l & j & _ & _ & Hn). by apply norm_index_lt in Hn. }
      apply (norm_indices_elem (length rows) ids rs r Ers) in Hr.
      rewrite decide_True by done.
      destruct (lookup_lt_is_Some_2 rows r Hrl) as [row Erow].
      rewrite Erow. simpl. apply list_lookup_insert_eq.
      unfold rectangular in Hrect. rewrite Forall_lookup in Hrect.
      by rewrite (Hrect r row Erow).
Qed.

(** Running the primitives: what a successful run says about the state. *)
Lemma bind_ok {A B} (m : M A) (f : A -> M B) (w w' : world) (b : B) :
  (m ≫= f) w = (Ok b, w') ->
  exists a w1, m w = (Ok a, w1) /\ f a w1 = (Ok b, w').
Proof.
  rewrite bind_run. destruct (m w) as [[a|e] w1]; [|done]. intros H. by exists a, w1.
Qed.

Lemma read_ok (l : loc) (w w' : world) (v : tval) :
  read l w = (Ok v, w') -> store w !! l = Some v /\ w' = w.
Proof. unfold read. destruct (store w !! l); intros [= <- <-]; done. Qed.

Lemma lift_ok {A} (r : result A) (w w' : world) (a : A) :
  lift r w = (Ok a, w') -> r = Ok a /\ w' = w.
Proof. unfold lift. by intros [= -> ->]. Qed.

Lemma deepcopy_ok (l c : loc) (w w' : world) :
  deepcopy l w = (Ok c, w') ->
  exists v, store w !! l = Some v /\ store w !! c = None /\
            store w' = <[c := v]> (store w) /\ calls w' = calls w.
Proof.
  unfold deepcopy. destruct (store w !! l) as [v|]; [|done].
  intros [= <- <-]. exists v. repeat split; try done.
  apply not_elem_of_dom, is_fresh.
Qed.

Lemma shape1_ok (l : loc) (w w' : world) (n : nat) :
  shape1 l w = (Ok n, w') ->
  exists rows, store w !! l = Some (LongT n rows) /\ w' = w.
Proof.
  unfold shape1. intros H. apply bind_ok in H as (v & w1 & Hr & H).
  apply read_ok in Hr as [Hr ->]. destruct v as [n' rows|v]; [|done].
  injection H as <- <-. by exists rows.
Qed.

Lemma column_put_ok (l : loc) (i : nat) (ids : indices) (c : Z) (w w' : world)
    (n : nat) (rows : list (list Z)) :
  store w !! l = Some (LongT n rows) ->
  column_put l i ids c w = (Ok tt, w') ->
  exists rs, int64 c /\ norm_indices (length rows) ids = Ok rs /\
    store w' = <[l := LongT n (put_rows (fun row => <[i := c]> row) rs rows)]> (store w) /\
    calls w' = calls w.
Proof.
  intros Hl H. unfold column_put in H. apply bind_ok in H as (v & w1 & Hr & H).
  apply read_ok in Hr as [Hr ->]. rewrite Hl in Hr. injection Hr as <-.
  case_decide; [|done]. apply bind_ok in H as (c' & w1 & Hc & H).
  apply lift_ok in Hc as [Hc ->]. unfold long_scalar in Hc.
  case_decide as Hfit; [|done]. injection Hc as <-.
  apply bind_ok in H as (rs & w1 & Hrs & H).
  apply lift_ok in Hrs as [Hrs ->]. exists rs. split; [done|]. split; [done|].
  unfold write in H. by injection H as <-.
Qed.

Lemma zero_put_ok (l : loc) (ids : indices) (w w' : world) (xs : vec) :
  store w !! l = Some (FloatT xs) ->
  zero_put l ids w = (Ok tt, w') ->
  exists xs', masked_vector (Some ids) xs = Ok xs' /\
    store w' = <[l := FloatT xs']> (store w) /\ calls w' = calls w.
Proof.
  intros Hl H. unfold zero_put in H. apply bind_ok in H as (v & w1 & Hr & H).
  apply read_ok in Hr as [Hr ->]. rewrite Hl in Hr. injection Hr as <-.
  apply bind_ok in H as (rs & w1 & Hrs & H).
  apply lift_ok in Hrs as [Hrs ->]. simpl. rewrite Hrs. simpl.
  eexists. split; [done|]. unfold write in H. by injection H as <-.
Qed.

Lemma column_loop_ok (l : loc) (vocab : list Z) (ids : option indices) (n : nat)
    (cols : list nat) :
  forall rows w w',
  store w !! l = Some (LongT n rows) ->
  forM_ cols (fun i =>
    match ids with
    | Some ids => v ← lift (list_get vocab i); column_put l i ids (v - 1)
    | None => mret tt
    end) w = (Ok tt, w') ->
  exists rows',
    match ids with
    | Some ids => mask_columns vocab ids cols rows
    | None => Ok rows
    end = Ok rows' /\
    store w' = <[l := LongT n rows']> (store w) /\ calls w' = calls w.
Proof.
  induction cols as [|i cols IH]; intros rows w w' Hl H; simpl in H.
  - injection H as <-. exists rows. split; [by destruct ids|].
    split; [|done]. symmetry. by apply insert_id.
  - apply bind_ok in H as ([] & w1 & Hbody & H). destruct ids as [ids|].
    + apply bind_ok in Hbody as (v & w2 & Hv & Hput).
      apply lift_ok in Hv as [Hv ->].
      destruct (column_put_ok _ _ _ _ _ _ _ _ Hl Hput) as (rs & Hfit & Hrs & Hst & Hc).
      destruct (IH (put_rows (fun row => <[i := v - 1]> row) rs rows) w1 w')
        as (rows' & Hm & Hst' & Hc'); [by rewrite Hst, lookup_insert_eq | done |].
      exists rows'. simpl. rewrite Hv. simpl.
      unfold long_scalar. rewrite decide_True by done. simpl. rewrite Hrs. simpl.
      split; [done|]. split; [|congruence].
      by rewrite Hst', Hst, insert_insert_eq.
    + injection Hbody as <-. by apply (IH rows w w').
Qed.

Lemma opt_zero_put_ok (l : loc) (ids : option indices) (w w' : world) (xs : vec) :
  store w !! l = Some (FloatT xs) ->
  match ids with
  | Some ids => zero_put l ids
  | None => mret tt
  end w = (Ok tt, w') ->
  exists xs', masked_vector ids xs = Ok xs' /\
    store w' = <[l := FloatT xs']> (store w) /\ calls w' = calls w.
Proof.
  intros Hl H. destruct ids as [ids|].
  - by apply zero_put_ok.
  - injection H as <-. exists xs. split; [done|]. split; [|done].
    symmetry. by apply insert_id.
Qed.

(** A successful run of [mask_attr] on a well-typed batch: the five results
    are new objects, distinct from each other, holding the masked contents;
    no block is called. *)
Lemma mask_attr_ok (self : EGeoGNNModel) (x ba bl ang dih : loc)
    (ma mb mg md : option indices) (w w' : world) (x' ba' bl' ang' dih' : loc)
    (nx nb : nat) (rx rb : list (list Z)) (vl va vd : vec) :
  store w !! x = Some (LongT nx rx) ->
  store w !! ba = Some (LongT nb rb) ->
  store w !! bl = Some (FloatT vl) ->
  store w !! ang = Some (FloatT va) ->
  store w !! dih = Some (FloatT vd) ->
  mask_attr self x ba bl ang dih ma mb mg md w = (Ok (x', ba', bl', ang', dih'), w') ->
  exists rx' rb' vl' va' vd',
    (masked_matrix (atom_feature_dims self) ma nx rx = Ok rx' /\
     masked_matrix (bond_feature_dims self) mb nb rb = Ok rb' /\
     masked_vector mb vl = Ok vl' /\
     masked_vector mg va = Ok va' /\
     masked_vector md vd = Ok vd') /\
    (store w' !! x' = Some (LongT nx rx') /\
     store w' !! ba' = Some (LongT nb rb') /\
     store w' !! bl' = Some (FloatT vl') /\
     store w' !! ang' = Some (FloatT va') /\
     store w' !! dih' = Some (FloatT vd')) /\
    Forall (fun c => store w !! c = None) [x'; ba'; bl'; ang'; dih'] /\
    NoDup [x'; ba'; bl'; ang'; dih'] /\
    calls w' = calls w.
Proof.
  intros Hx Hba Hbl Hang Hdih H. unfold mask_attr in H.
  apply bind_ok in H as (c1 & w1 & E1 & H).
  apply deepcopy_ok in E1 as (v1 & Ev1 & F1 & S1 & C1).
  apply bind_ok in H as (c2 & w2 & E2 & H).
  apply deepcopy_ok in E2 as (v2 & Ev2 & F2 & S2 & C2).
  apply bind_ok in H as (c3 & w3 & E3 & H).
  apply deepcopy_ok in E3 as (v3 & Ev3 & F3 & S3 & C3).
  apply bind_ok in H as (c4 & w4 & E4 & H).
  apply deepcopy_ok in E4 as (v4 & Ev4 & F4 & S4 & C4).
  apply bind_ok in H as (c5 & w5 & E5 & H).
  apply deepcopy_ok in E5 as (v5 & Ev5 & F5 & S5 & C5).
  rewrite S4, S3, S2, S1 in F5. rewrite S3, S2, S1 in F4.
  rewrite S2, S1 in F3. rewrite S1 in F2.
  rewrite !lookup_insert_None in F2. rewrite !lookup_insert_None in F3.
  rewrite !lookup_insert_None in F4. rewrite !lookup_insert_None in F5.
  destruct F2 as [F2 N21]. destruct F3 as [[F3 N31] N32].
  destruct F4 as [[[F4 N41] N42] N43]. destruct F5 as [[[[F5 N51] N52] N53] N54].
  assert (x <> c1 /\ ba <> c1 /\ bl <> c1 /\ bl <> c2 /\ ang <> c1 /\ ang <> c2
          /\ ang <> c3 /\ dih <> c1 /\ dih <> c2 /\ dih <> c3 /\ dih <> c4)
    as (? & ? & ? & ? & ? & ? & ? & ? & ? & ? & ?) by (repeat split; congruence).
  rewrite Hx in Ev1. injection Ev1 as <-.
  rewrite S1, lookup_insert_ne, Hba in Ev2 by done. injection Ev2 as <-.
  rewrite S2, S1, !lookup_insert_ne, Hbl in Ev3 by done. injection Ev3 as <-.
  rewrite S3, S2, S1, !lookup_insert_ne, Hang in Ev4 by done. injection Ev4 as <-.
  rewrite S4, S3, S2, S1, !lookup_insert_ne, Hdih in Ev5 by done. injection Ev5 as <-.
  apply bind_ok in H as (nx' & w6 & E6 & H).
  apply shape1_ok in E6 as (rows & E6 & ->).
  rewrite S5, S4, S3, S2, S1 in E6.
  rewrite !(lookup_insert_ne _ _ c1), lookup_insert_eq in E6 by done.
  injection E6 as <- <-.
  apply bind_ok in H as ([] & w7 & E7 & H).
  eapply (column_loop_ok c1 _ _ nx _ rx) in E7 as (rx' & Mx & S7 & C7).
  2: { rewrite S5, S4, S3, S2, S1.
       rewrite !(lookup_insert_ne _ _ c1) by done. by rewrite lookup_insert_eq. }
  apply bind_ok in H as (nb' & w8 & E8 & H).
  apply shape1_ok in E8 as (rows & E8 & ->).
  rewrite S7, S5, S4, S3, S2 in E8.
  rewrite !(lookup_insert_ne _ _ c2), lookup_insert_eq in E8 by done.
  injection E8 as <- <-.
  apply bind_ok in H as ([] & w9 & E9 & H).
  eapply (column_loop_ok c2 _ _ nb _ rb) in E9 as (rb' & Mb & S9 & C9).
  2: { rewrite S7, S5, S4, S3, S2.
       rewrite !(lookup_insert_ne _ _ c2) by done. by rewrite lookup_insert_eq. }
  apply bind_ok in H as ([] & w10 & E10 & H).
  eapply (opt_zero_put_ok c3 _ _ _ vl) in E10 as (vl' & Ml & S10 & C10).
  2: { rewrite S9, S7, S5, S4, S3.
       rewrite !(lookup_insert_ne _ _ c3) by done. by rewrite lookup_insert_eq. }
  apply bind_ok in H as ([] & w11 & E11 & H).
  eapply (opt_zero_put_ok c4 _ _ _ va) in E11 as (va' & Ma & S11 & C11).
  2: { rewrite S10, S9, S7, S5, S4.
       rewrite !(lookup_insert_ne _ _ c4) by done. by rewrite lookup_insert_eq. }
  apply bind_ok in H as ([] & w12 & E12 & H).
  eapply (opt_zero_put_ok c5 _ _ _ vd) in E12 as (vd' & Md & S12 & C12).
  2: { rewrite S11, S10, S9, S7, S5.
       rewrite !(lookup_insert_ne _ _ c5) by done. by rewrite lookup_insert_eq. }
  injection H as <- <- <- <- <- <-.
  exists rx', rb', vl', va', vd'. split; [done|]. split; [|split; [|split]].
  - rewrite S12, S11, S10, S9, S7. repeat split.
    + rewrite !(lookup_insert_ne _ _ c1) by done. by rewrite lookup_insert_eq.
    + rewrite !(lookup_insert_ne _ _ c2) by done. by rewrite lookup_insert_eq.
    + rewrite !(lookup_insert_ne _ _ c3) by done. by rewrite lookup_insert_eq.
    + rewrite !(lookup_insert_ne _ _ c4) by done. by rewrite lookup_insert_eq.
    + by rewrite lookup_insert_eq.
  - repeat constructor; done.
  - repeat (apply NoDup_cons; split;
            [rewrite ?elem_of_cons, elem_of_nil; intuition congruence|]).
    apply NoDup_nil_2.
  - congruence.
Qed.

Lemma masked_matrix_spec (vocab : list Z) (ids : option indices) (ncol : nat)
    (rows rows' : list (list Z)) :
  masked_matrix vocab ids ncol rows = Ok rows' ->
  rectangular ncol rows ->
  categorical_masked vocab ids ncol rows rows'.
Proof.
  intros H Hrect. destruct ids as [ids|]; simpl in H.
  - destruct (mask_columns_spec vocab ids ncol (seq 0 ncol) rows rows' H Hrect)
      as (Hlen & _ & Hun & _ & Hset).
    split; [done|]. split; [|split; [done | done]].
    intros r i Hr Hi. apply Hset; [done | | done].
    apply elem_of_seq. lia.
  - injection H as <-. split; [done|]. split; [|done].
    intros r i (l & j & [=] & _).
Qed.

Lemma masked_vector_spec (ids : option indices) (v v' : vec) :
  masked_vector ids v = Ok v' -> scalars_zeroed ids v v'.
Proof.
  intros H. destruct ids as [ids|]; simpl in H.
  - destruct (norm_indices (length v) ids) as [rs|e] eqn:Ers; simpl in H; [|done].
    injection H as <-. split; [apply put_rows_length|]. split; [|split; [|done]].
    + intros r Hr.
      assert (Hlt : (r < length v)%nat).
      { destruct Hr as (l & j & _ & _ & Hn). by apply norm_index_lt in Hn. }
      apply (norm_indices_elem (length v) ids rs r Ers) in Hr.
      rewrite put_rows_in by done.
      by destruct (lookup_lt_is_Some_2 v r Hlt) as [q ->].
    + intros r Hr. apply put_rows_notin. intros Hin. apply Hr.
      by apply (norm_indices_elem (length v) ids rs r Ers).
  - injection H as <-. split; [done|]. split; [|done].
    intros r (l & j & [=] & _).
Qed.

(** Running the primitives forwards: in-range indices and a covering
    vocabulary make every step return. *)
Lemma bind_returns {A B} (m : M A) (f : A -> M B) (w w1 : world) (a : A) :
  m w = (Ok a, w1) -> (m ≫= f) w = f a w1.
Proof. intros H. by rewrite bind_run, H. Qed.

Lemma norm_indices_returns (n : nat) (l : indices) :
  Forall (fun i => - Z.of_nat n <= i < Z.of_nat n) l ->
  exists rs, norm_indices n l = Ok rs.
Proof.
  unfold norm_indices. induction 1 as [|i l Hi _ [rs IH]]; cbn [mapM].
  - by exists [].
  - destruct (norm_index n i) as [r|] eqn:Hr.
    + rewrite result_bind_ok, IH. by eexists.
    + unfold norm_index in Hr. repeat case_decide; (done || lia).
Qed.

Lemma long_scalar_returns (vocab : list Z) (i : nat) (v : Z) :
  tokens_fit vocab -> vocab !! i = Some v -> long_scalar (v - 1) = Ok (v - 1).
Proof.
  intros Hfit Hv. unfold long_scalar. rewrite decide_True; [done|].
  unfold tokens_fit in Hfit. rewrite Forall_lookup in Hfit. by apply (Hfit i).
Qed.

Lemma long_scalar_ok (c c' : Z) : long_scalar c = Ok c' -> c' = c /\ int64 c.
Proof. unfold long_scalar. case_decide; [|done]. by intros [= <-]. Qed.

Lemma mask_columns_returns (vocab : list Z) (ids : indices) (cols : list nat) :
  forall rows,
  tokens_fit vocab ->
  Forall (fun i => (i < length vocab)%nat) cols ->
  Forall (fun i => - Z.of_nat (length rows) <= i < Z.of_nat (length rows)) ids ->
  exists rows', mask_columns vocab ids cols rows = Ok rows'.
Proof.
  induction cols as [|i cols IH]; intros rows Hfit Hcols Hids; simpl.
  - by exists rows.
  - apply Forall_cons in Hcols as [Hi Hcols].
    destruct (lookup_lt_is_Some_2 vocab i Hi) as [v Hv].
    unfold list_get. rewrite Hv, result_bind_ok.
    rewrite (long_scalar_returns vocab i v Hfit Hv), result_bind_ok.
    destruct (norm_indices_returns _ _ Hids) as [rs ->]. rewrite result_bind_ok.
    apply IH; [done | done |]. by rewrite put_rows_length.
Qed.

Lemma masked_matrix_returns (vocab : list Z) (ids : option indices) (ncol : nat)
    (rows : list (list Z)) :
  tokens_fit vocab -> covers vocab ids ncol -> in_range (length rows) ids ->
  exists rows', masked_matrix vocab ids ncol rows = Ok rows'.
Proof.
  intros Hfit Hcov Hin. destruct ids as [l|]; simpl; [|by exists rows].
  apply mask_columns_returns; [done | | by apply Hin].
  apply Forall_forall. intros i Hi. apply elem_of_seq in Hi.
  specialize (Hcov ltac:(done)). lia.
Qed.

Lemma masked_vector_returns (ids : option indices) (v : vec) :
  in_range (length v) ids -> exists v', masked_vector ids v = Ok v'.
Proof.
  intros Hin. destruct ids as [l|]; simpl; [|by exists v].
  destruct (norm_indices_returns _ _ (Hin l eq_refl)) as [rs ->]. by eexists.
Qed.

Lemma deepcopy_returns (l : loc) (v : tval) (w : world) :
  store w !! l = Some v ->
  exists c w', deepcopy l w = (Ok c, w') /\ store w !! c = None /\
               store w' = <[c := v]> (store w) /\ calls w' = calls w.
Proof.
  intros H. unfold deepcopy. rewrite H. eexists _, _. split; [done|].
  split; [apply not_elem_of_dom, is_fresh | done].
Qed.

Lemma shape1_returns (l : loc) (n : nat) (rows : list (list Z)) (w : world) :
  store w !! l = Some (LongT n rows) -> shape1 l w = (Ok n, w).
Proof. intros H. unfold shape1. rewrite bind_run. unfold read. by rewrite H. Qed.

Lemma column_loop_returns (l : loc) (vocab : list Z) (ids : option indices)
    (n : nat) (cols : list nat) :
  forall rows rows' w,
  store w !! l = Some (LongT n rows) ->
  Forall (fun i => (i < n)%nat) cols ->
  match ids with
  | Some ids => mask_columns vocab ids cols rows
  | None => Ok rows
  end = Ok rows' ->
  exists w',
    forM_ cols (fun i =>
      match ids with
      | Some ids => v ← lift (list_get vocab i); column_put l i ids (v - 1)
      | None => mret tt
      end) w = (Ok tt, w') /\
    store w' = <[l := LongT n rows']> (store w) /\ calls w' = calls w.
Proof.
  induction cols as [|i cols IH]; intros rows rows' w Hl Hcols Hm.
  - exists w. split; [done|]. split; [|done].
    assert (rows' = rows) as -> by (destruct ids; simpl in Hm; congruence).
    symmetry. by apply insert_id.
  - apply Forall_cons in Hcols as [Hi Hcols]. destruct ids as [ids|].
    + simpl in Hm. apply result_bind_inv in Hm as (v & Hv & Hm).
      apply result_bind_inv in Hm as (c & Hfit & Hm).
      apply result_bind_inv in Hm as (rs & Hrs & Hm).
      set (w1 := World (<[l := LongT n (put_rows (fun row => <[i := c]> row)
                                          rs rows)]> (store w)) (calls w)).
      destruct (IH (put_rows (fun row => <[i := c]> row) rs rows) rows' w1)
        as (w' & Hrun & Hst & Hc); [| done | done |].
      { simpl. apply lookup_insert_eq. }
      exists w'. split; [|split; [|done]].
      * cbn [forM_]. erewrite bind_returns; [exact Hrun|].
        rewrite bind_run. unfold lift at 1. rewrite Hv.
        unfold column_put. rewrite bind_run. unfold read. rewrite Hl.
        rewrite decide_True by done. rewrite bind_run. unfold lift at 1. rewrite Hfit.
        rewrite bind_run. unfold lift. by rewrite Hrs.
      * rewrite Hst. simpl. apply insert_insert_eq.
    + destruct (IH rows rows' w) as (w' & Hrun & Hst & Hc); try done.
      exists w'. split; [|done]. cbn [forM_]. by erewrite bind_returns.
Qed.

Lemma opt_zero_put_returns (l : loc) (ids : option indices) (w : world) (xs xs' : vec) :
  store w !! l = Some (FloatT xs) ->
  masked_vector ids xs = Ok xs' ->
  exists w',
    match ids with
    | Some ids => zero_put l ids
    | None => mret tt
    end w = (Ok tt, w') /\
    store w' = <[l := FloatT xs']> (store w) /\ calls w' = calls w.
Proof.
  intros Hl Hm. destruct ids as [ids|]; simpl in Hm.
  - apply result_bind_inv in Hm as (rs & Hrs & Hm). injection Hm as <-.
    eexists. split.
    + unfold zero_put. rewrite bind_run. unfold read. rewrite Hl.
      rewrite bind_run. unfold lift. rewrite Hrs. reflexivity.
    + done.
  - injection Hm as <-. exists w. split; [done|]. split; [|done].
    symmetry. by apply insert_id.
Qed.

(** [mask_attr] returns whenever the five masked contents are defined. *)
Lemma mask_attr_runs (self : EGeoGNNModel) (x ba bl ang dih : loc)
    (ma mb mg md : option indices) (w : world)
    (nx nb : nat) (rx rb rx' rb' : list (list Z)) (vl va vd vl' va' vd' : vec) :
  store w !! x = Some (LongT nx rx) ->
  store w !! ba = Some (LongT nb rb) ->
  store w !! bl = Some (FloatT vl) ->
  store w !! ang = Some (FloatT va) ->
  store w !! dih = Some (FloatT vd) ->
  masked_matrix (atom_feature_dims self) ma nx rx = Ok rx' ->
  masked_matrix (bond_feature_dims self) mb nb rb = Ok rb' ->
  masked_vector mb vl = Ok vl' ->
  masked_vector mg va = Ok va' ->
  masked_vector md vd = Ok vd' ->
  exists copies w', mask_attr self x ba bl ang dih ma mb mg md w = (Ok copies, w').
Proof.
  intros Hx Hba Hbl Hang Hdih Mx Mb Ml Ma Md.
  unfold mask_attr.
  destruct (deepcopy_returns x _ w Hx) as (c1 & w1 & E1 & F1 & S1 & C1).
  erewrite bind_returns by exact E1.
  assert (x <> c1 /\ ba <> c1 /\ bl <> c1 /\ ang <> c1 /\ dih <> c1)
    as (? & ? & ? & ? & ?) by (repeat split; congruence).
  destruct (deepcopy_returns ba (LongT nb rb) w1) as (c2 & w2 & E2 & F2 & S2 & C2);
    [by rewrite S1, lookup_insert_ne|].
  erewrite bind_returns by exact E2.
  rewrite S1 in F2. apply lookup_insert_None in F2 as [F2 N21].
  assert (bl <> c2 /\ ang <> c2 /\ dih <> c2)
    as (? & ? & ?) by (repeat split; congruence).
  destruct (deepcopy_returns bl (FloatT vl) w2) as (c3 & w3 & E3 & F3 & S3 & C3);
    [by rewrite S2, S1, !lookup_insert_ne|].
  erewrite bind_returns by exact E3.
  rewrite S2, S1 in F3. rewrite !lookup_insert_None in F3.
  destruct F3 as [[F3 N31] N32].
  assert (ang <> c3 /\ dih <> c3) as (? & ?) by (repeat split; congruence).
  destruct (deepcopy_returns ang (FloatT va) w3) as (c4 & w4 & E4 & F4 & S4 & C4);
    [by rewrite S3, S2, S1, !lookup_insert_ne|].
  erewrite bind_returns by exact E4.
  rewrite S3, S2, S1 in F4. rewrite !lookup_insert_None in F4.
  destruct F4 as [[[F4 N41] N42] N43].
  assert (dih <> c4) by congruence.
  destruct (deepcopy_returns dih (FloatT vd) w4) as (c5 & w5 & E5 & F5 & S5 & C5);
    [by rewrite S4, S3, S2, S1, !lookup_insert_ne|].
  erewrite bind_returns by exact E5.
  rewrite S4, S3, S2, S1 in F5. rewrite !lookup_insert_None in F5.
  destruct F5 as [[[[F5 N51] N52] N53] N54].
  assert (L1 : store w5 !! c1 = Some (LongT nx rx)).
  { rewrite S5, S4, S3, S2, S1.
    rewrite !(lookup_insert_ne _ _ c1) by done. apply lookup_insert_eq. }
  erewrite bind_returns by exact (shape1_returns c1 nx rx w5 L1).
  destruct (column_loop_returns c1 (atom_feature_dims self) ma nx (seq 0 nx)
              rx rx' w5 L1) as (w6 & E6 & S6 & C6).
  { apply Forall_forall. intros i Hi. apply elem_of_seq in Hi. lia. }
  { exact Mx. }
  erewrite bind_returns by exact E6.
  assert (L2 : store w6 !! c2 = Some (LongT nb rb)).
  { rewrite S6, S5, S4, S3, S2.
    rewrite !(lookup_insert_ne _ _ c2) by done. apply lookup_insert_eq. }
  erewrite bind_returns by exact (shape1_returns c2 nb rb w6 L2).
  destruct (column_loop_returns c2 (bond_feature_dims self) mb nb (seq 0 nb)
              rb rb' w6 L2) as (w7 & E7 & S7 & C7).
  { apply Forall_forall. intros i Hi. apply elem_of_seq in Hi. lia. }
  { exact Mb. }
  erewrite bind_returns by exact E7.
  destruct (opt_zero_put_returns c3 mb w7 vl vl') as (w8 & E8 & S8 & C8); [|done|].
  { rewrite S7, S6, S5, S4, S3.
    rewrite !(lookup_insert_ne _ _ c3) by done. apply lookup_insert_eq. }
  erewrite bind_returns by exact E8.
  destruct (opt_zero_put_returns c4 mg w8 va va') as (w9 & E9 & S9 & C9); [|done|].
  { rewrite S8, S7, S6, S5, S4.
    rewrite !(lookup_insert_ne _ _ c4) by done. apply lookup_insert_eq. }
  erewrite bind_returns by exact E9.
  destruct (opt_zero_put_returns c5 md w9 vd vd') as (w10 & E10 & S10 & C10); [|done|].
  { rewrite S9, S8, S7, S6, S5.
    rewrite !(lookup_insert_ne _ _ c5) by done. apply lookup_insert_eq. }
  erewrite bind_returns by exact E10.
  by eexists _, _.
Qed.

(** On a well-typed batch whose masked indices are in range and whose
    vocabulary tables cover the fields with tokens of a long tensor,
    [mask_attr] returns. *)
Lemma mask_attr_returns (self : EGeoGNNModel) (x ba bl ang dih : loc)
    (ma mb mg md : option indices) (w : world)
    (nx nb : nat) (rx rb : list (list Z)) (vl va vd : vec) :
  store w !! x = Some (LongT nx rx) ->
  store w !! ba = Some (LongT nb rb) ->
  store w !! bl = Some (FloatT vl) ->
  store w !! ang = Some (FloatT va) ->
  store w !! dih = Some (FloatT vd) ->
  tokens_fit (atom_feature_dims self) -> tokens_fit (bond_feature_dims self) ->
  covers (atom_feature_dims self) ma nx -> in_range (length rx) ma ->
  covers (bond_feature_dims self) mb nb -> in_range (length rb) mb ->
  in_range (length vl) mb -> in_range (length va) mg -> in_range (length vd) md ->
  exists copies w', mask_attr self x ba bl ang dih ma mb mg md w = (Ok copies, w').
Proof.
  intros Hx Hba Hbl Hang Hdih Fx Fb Cx Rx Cb Rb Rl Ra Rd.
  destruct (masked_matrix_returns _ _ _ _ Fx Cx Rx) as [rx' Mx].
  destruct (masked_matrix_returns _ _ _ _ Fb Cb Rb) as [rb' Mb].
  destruct (masked_vector_returns _ _ Rl) as [vl' Ml].
  destruct (masked_vector_returns _ _ Ra) as [va' Ma].
  destruct (masked_vector_returns _ _ Rd) as [vd' Md].
  by eapply mask_attr_runs.
Qed.

(** C5. On a batch whose five tensors have their kinds (two feature matrices,
    three vectors of scalars): when the masked indices are in range, the
    vocabulary tables cover the fields and the mask tokens vocab_sizes[i] - 1
    are values of a long (int64) tensor, [mask_attr] returns; and whenever it
    returns, it gives five new tensor objects, the copies; the copy of [x]
    (of [bond_attr]) holds [vocab_sizes[i] - 1] in every field [i] of every
    row addressed by the masked atom (bond) indices, the copies of the three
    vectors hold 0 at the positions addressed by the masked bond, angle and
    dihedral indices, and every other entry is that of the original; an index
    set [None] leaves the copy equal to the original. *)
Theorem mask_attr_masks_copies (self : EGeoGNNModel)
    (x bond_attr bond_lengths bond_angles dihedral_angles : loc)
    (ma mb mg md : option indices) (w : world)
    (nx nb : nat) (rx rb : list (list Z)) (vl va vd : vec) :
  store w !! x = Some (LongT nx rx) -> rectangular nx rx ->
  store w !! bond_attr = Some (LongT nb rb) -> rectangular nb rb ->
  store w !! bond_lengths = Some (FloatT vl) ->
  store w !! bond_angles = Some (FloatT va) ->
  store w !! dihedral_angles = Some (FloatT vd) ->
  (tokens_fit (atom_feature_dims self) -> tokens_fit (bond_feature_dims self) ->
   covers (atom_feature_dims self) ma nx -> in_range (length rx) ma ->
   covers (bond_feature_dims self) mb nb -> in_range (length rb) mb ->
   in_range (length vl) mb -> in_range (length va) mg -> in_range (length vd) md ->
   exists copies w',
     mask_attr self x bond_attr bond_lengths bond_angles dihedral_angles
       ma mb mg md w = (Ok copies, w')) /\
  (forall x' ba' bl' ang' dih' w',
   mask_attr self x bond_attr bond_lengths bond_angles dihedral_angles
     ma mb mg md w = (Ok (x', ba', bl', ang', dih'), w') ->
   exists rx' rb' vl' va' vd',
     Forall (fun c => store w !! c = None) [x'; ba'; bl'; ang'; dih'] /\
     NoDup [x'; ba'; bl'; ang'; dih'] /\
     store w' !! x' = Some (LongT nx rx') /\
     store w' !! ba' = Some (LongT nb rb') /\
     store w' !! bl' = Some (FloatT vl') /\
     store w' !! ang' = Some (FloatT va') /\
     store w' !! dih' = Some (FloatT vd') /\
     categorical_masked (atom_feature_dims self) ma nx rx rx' /\
     categorical_masked (bond_feature_dims self) mb nb rb rb' /\
     scalars_zeroed mb vl vl' /\
     scalars_zeroed mg va va' /\
     scalars_zeroed md vd vd').
Proof.
  intros Hx Rx Hba Rb Hbl Hang Hdih. split.
  { intros. by eapply mask_attr_returns. }
  intros x' ba' bl' ang' dih' w' H.
  destruct (mask_attr_ok _ _ _ _ _ _ _ _ _ _ _ _ _ _ _ _ _ _ _ _ _ _ _ _
              Hx Hba Hbl Hang Hdih H)
    as (rx' & rb' & vl' & va' & vd' & (Mx & Mb & Ml & Ma & Md)
        & (Sx & Sb & Sl & Sa & Sd) & Hnew & Hdup & _).
  exists rx', rb', vl', va', vd'.
  repeat (split; [done|]).
  split; [by apply masked_matrix_spec|].
  split; [by apply masked_matrix_spec|].
  split; [by apply masked_vector_spec|].
  split; by apply masked_vector_spec.
Qed.

Lemma mask_attr_keeps_inputs_witness :
  is_Some (store Demo.chain_world !! Demo.x_ref) /\
  store (mask_attr (Demo.encoder 1 false) Demo.x_ref Demo.bond_attr_ref
           Demo.bond_lengths_ref Demo.bond_angles_ref Demo.dihedral_angles_ref
           (Some [1; -1]) (Some [0]) None (Some [0]) Demo.chain_world).2
    !! Demo.x_ref
  = store Demo.chain_world !! Demo.x_ref.
Proof.
  split.
  - vm_compute. eauto.
  - apply mask_attr_keeps_inputs. vm_compute. eauto.
Defined.

Lemma mask_attr_masks_copies_witness :
  exists x' ba' bl' ang' dih' w' rx' rb' vl' va' vd',
    mask_attr (Demo.encoder 1 false) Demo.x_ref Demo.bond_attr_ref
      Demo.bond_lengths_ref Demo.bond_angles_ref Demo.dihedral_angles_ref
      (Some [1; -1]) (Some [0]) None (Some [0]) Demo.chain_world
    = (Ok (x', ba', bl', ang', dih'), w') /\
    categorical_masked Demo.atom_dims (Some [1; -1]) 2
      [[1; 0]; [2; 1]; [1; 1]; [3; 0]] rx' /\
    categorical_masked Demo.bond_dims (Some [0]) 1 [[0]; [1]; [0]] rb' /\
    scalars_zeroed (Some [0]) [Demo.of_Z 3; Demo.of_Z 2; Demo.of_Z 3] vl' /\
    scalars_zeroed None [Demo.of_Z 2; Demo.of_Z 2] va' /\
    scalars_zeroed (Some [0]) [Demo.of_Z 1] vd'.
Proof.
  destruct (mask_attr_masks_copies (Demo.encoder 1 false) Demo.x_ref
              Demo.bond_attr_ref Demo.bond_lengths_ref Demo.bond_angles_ref
              Demo.dihedral_angles_ref (Some [1; -1]) (Some [0]) None (Some [0])
              Demo.chain_world
              2%nat 1%nat [[1; 0]; [2; 1]; [1; 1]; [3; 0]] [[0]; [1]; [0]]
              [Demo.of_Z 3; Demo.of_Z 2; Demo.of_Z 3] [Demo.of_Z 2; Demo.of_Z 2]
              [Demo.of_Z 1])
    as [Hreturns Hmasks].
  - vm_compute. reflexivity.
  - repeat constructor.
  - vm_compute. reflexivity.
  - repeat constructor.
  - vm_compute. reflexivity.
  - vm_compute. reflexivity.
  - vm_compute. reflexivity.
  - destruct Hreturns as ([[[[x' ba'] bl'] ang'] dih'] & w' & Hrun).
    + repeat constructor; simpl; lia.
    + repeat constructor; simpl; lia.
    + intros _. simpl. lia.
    + intros l [= <-]. repeat constructor; simpl; lia.
    + intros _. simpl. lia.
    + intros l [= <-]. repeat constructor; simpl; lia.
    + intros l [= <-]. repeat constructor; simpl; lia.
    + intros l [=].
    + intros l [= <-]. repeat constructor; simpl; lia.
    + destruct (Hmasks _ _ _ _ _ _ Hrun)
        as (rx' & rb' & vl' & va' & vd' & _ & _ & _ & _ & _ & _ & _ & H).
      by exists x', ba', bl', ang', dih', w', rx', rb', vl', va', vd'.
Defined.

(** ** Index resolution of the regression heads *)

Lemma index_select_one {A} (t : list A) (p : Z) (a : A) :
  holds_at t p a -> index_select t [p] = Ok [a].
Proof.
  intros [Hp Ha]. unfold index_select, select_index. simpl.
  pose proof (lookup_lt_Some _ _ _ Ha) as Hlt.
  rewrite decide_True by lia. simpl. by rewrite Ha.
Qed.

Lemma select_edges_one (E : edges) (p a b : Z) :
  holds_at E p (a, b) -> select_edges E [p] = Ok ([a], [b]).
Proof. intros H. unfold select_edges. by rewrite (index_select_one E p (a, b) H). Qed.

(** C3. In a chain i-j-k-l whose bonds (i,j), (j,k), (k,l) stand at the
    positions b0, b1, b2 of the atom-bond table, whose angles (b0,b1) and
    (b1,b2) stand at the positions a0, a1 of the bond-angle table and whose
    dihedral edge (a0,a1) stands at position d of the angle-dihedral table,
    the index resolution of [_get_Dar_loss] for the masked dihedral d yields
    the atom indices i, j, k, l in this order, and the regression head is
    applied to the rows of atoms i, j, k, l concatenated in this order. *)
Theorem Dar_chain_resolves_in_order
    (AtomBond BondAngle AngleDihedral : edges) (i j k l b0 b1 b2 a0 a1 d : Z)
    (atom_attr : tensor) (ri rj rk rl : list Qc) (h : head) (dihedrals : vec) :
  holds_at AtomBond b0 (i, j) ->
  holds_at AtomBond b1 (j, k) ->
  holds_at AtomBond b2 (k, l) ->
  holds_at BondAngle a0 (b0, b1) ->
  holds_at BondAngle a1 (b1, b2) ->
  holds_at AngleDihedral d (a0, a1) ->
  holds_at atom_attr i ri -> holds_at atom_attr j rj ->
  holds_at atom_attr k rk -> holds_at atom_attr l rl ->
  Dar_atom_indices AtomBond BondAngle AngleDihedral [d] = Ok ([i], [j], [k], [l]) /\
  _get_Dar_loss (Some h) atom_attr dihedrals AtomBond BondAngle AngleDihedral (Some [d])
  = (pred ← head_mlp h [ri ++ rj ++ rk ++ rl];
     target ← target_column dihedrals [d];
     head_loss h pred target).
Proof.
  intros B0 B1 B2 A0 A1 D Ri Rj Rk Rl.
  assert (Hres : Dar_atom_indices AtomBond BondAngle AngleDihedral [d]
                 = Ok ([i], [j], [k], [l])).
  { unfold Dar_atom_indices.
    rewrite (select_edges_one _ _ _ _ D). simpl.
    rewrite (select_edges_one _ _ _ _ A0). simpl.
    rewrite (select_edges_one _ _ _ _ A1). simpl.
    rewrite (select_edges_one _ _ _ _ B0). simpl.
    by rewrite (select_edges_one _ _ _ _ B2). }
  split; [exact Hres|].
  unfold _get_Dar_loss. simpl. rewrite Hres. simpl.
  rewrite (index_select_one _ _ _ Ri), (index_select_one _ _ _ Rj),
    (index_select_one _ _ _ Rk), (index_select_one _ _ _ Rl).
  simpl. unfold cat2. simpl. by rewrite <- !(assoc_L (++)).
Qed.

Lemma Dar_chain_resolves_in_order_witness :
  Dar_atom_indices [(0, 1); (1, 2); (2, 3)] [(0, 1); (1, 2)] [(0, 1)] [0]
  = Ok ([0], [1], [2], [3]).
Proof.
  refine (proj1 (Dar_chain_resolves_in_order
            [(0, 1); (1, 2); (2, 3)] [(0, 1); (1, 2)] [(0, 1)]
            0 1 2 3 0 1 2 0 1 0 Demo.atom_attr
            [Demo.of_Z 1; Demo.of_Z 0] [Demo.of_Z 7; Demo.of_Z 3]
            [Demo.of_Z 8; Demo.of_Z 2] [Demo.of_Z 8; Demo.of_Z 3]
            (Head Demo.sum_mlp Demo.square_loss) [Demo.of_Z 1]
            _ _ _ _ _ _ _ _ _ _));
    (split; [lia | reflexivity]).
Defined.

(** ** Loss accumulation *)


Lemma task_block_inactive (self : EGEM) (task key : string) (get_loss : result Qc)
    (st : pyloss * loss_dict) :
  task ∉ pretrain_tasks self -> task_block self task key get_loss st = Ok st.
Proof.
  intros H. unfold task_block, active. by rewrite bool_decide_eq_false_2.
Qed.

Lemma task_block_active (self : EGEM) (task key : string) (get_loss : result Qc)
    (st : pyloss * loss_dict) :
  task ∈ pretrain_tasks self ->
  task_block self task key get_loss st =
  (task_loss ← get_loss; Ok (loss_iadd st.1 task_loss, <[key := task_loss]> st.2)).
Proof.
  intros H. unfold task_block, active. by rewrite bool_decide_eq_true_2.
Qed.

(** Without a task that has a block in [compute_loss], [loss] is still the
    integer 0 at [loss.detach()]. *)
Lemma compute_loss_no_block (self : EGEM) (bl ba da : vec) (AB : edges)
    (atom_attr : tensor) (BA AD : edges) (cm5 espc hirshfeld npa orders : vec)
    (ma mb mg md : option indices) :
  (forall t, t ∈ map fst loss_tasks -> t ∉ pretrain_tasks self) ->
  compute_loss self bl ba da AB atom_attr BA AD cm5 espc hirshfeld npa orders
    ma mb mg md = Raise AttributeError.
Proof.
  intros H. unfold compute_loss.
  repeat (rewrite task_block_inactive
            by (apply H; simpl; rewrite !elem_of_cons; tauto);
          rewrite result_bind_ok).
  reflexivity.
Qed.

(** C10. If the task list of an [EGEM] holds none of the nine task names,
    [compute_loss] does not return: [loss] is the Python integer 0 when
    [loss.detach()] is reached, which raises AttributeError.  Hence a call
    that returns has at least one recognized task in the list. *)
Theorem compute_loss_needs_a_task (encoder : EGeoGNNModel) (tasks : list string)
    (p : heads) (bl ba da : vec) (AB : edges)
    (atom_attr : tensor) (BA AD : edges) (cm5 espc hirshfeld npa orders : vec)
    (ma mb mg md : option indices) :
  ((forall t, t ∈ recognized_tasks -> t ∉ tasks) ->
   compute_loss (EGEM_init encoder tasks p) bl ba da AB atom_attr BA AD
     cm5 espc hirshfeld npa orders ma mb mg md = Raise AttributeError) /\
  (forall r,
   compute_loss (EGEM_init encoder tasks p) bl ba da AB atom_attr BA AD
     cm5 espc hirshfeld npa orders ma mb mg md = Ok r ->
   exists t, t ∈ recognized_tasks /\ t ∈ tasks).
Proof.
  assert (Hsub : forall t, t ∈ map fst loss_tasks -> t ∈ recognized_tasks).
  { intros t. unfold recognized_tasks. simpl. rewrite !elem_of_cons. tauto. }
  split.
  - intros H. apply compute_loss_no_block. intros t Ht. apply H. by apply Hsub.
  - intros r Hr.
    destruct (decide (Exists (fun t => t ∈ tasks) (map fst loss_tasks))) as [Hex|Hno].
    + apply Exists_exists in Hex as (t & Ht & Hin). exists t. split; [by apply Hsub | done].
    + rewrite compute_loss_no_block in Hr; [done|].
      intros t Ht Hin. apply Hno. apply Exists_exists. by exists t.
Qed.

Lemma compute_loss_needs_a_task_witness :
  Demo.chain_loss ["Pretrain"] (Some [0]) (Some [0]) (Some [0]) (Some [0])
  = Raise AttributeError.
Proof.
  refine (proj1 (compute_loss_needs_a_task _ ["Pretrain"] _ _ _ _ _ _ _ _ _ _ _ _ _
                   _ _ _ _) _).
  intros t Ht Hin. apply list_elem_of_singleton in Hin. subst t.
  revert Ht. unfold recognized_tasks. rewrite !elem_of_cons, elem_of_nil.
  intros H. repeat (destruct H as [H|H]; [discriminate H|]). exact H.
Defined.

Lemma compute_loss_table (self : EGEM) (bl ba da : vec) (AB : edges)
    (atom_attr : tensor) (BA AD : edges) (cm5 espc hirshfeld npa orders : vec)
    (ma mb mg md : option indices) :
  compute_loss self bl ba da AB atom_attr BA AD cm5 espc hirshfeld npa orders
    ma mb mg md
  = (st ← run_blocks self
            (task_losses self bl ba da AB atom_attr BA AD cm5 espc hirshfeld npa
               orders ma mb mg md) (PyInt 0, ∅);
     total ← detach_item st.1;
     Ok (st.1, <["loss" := total]> st.2)).
Proof.
  unfold compute_loss, task_losses, run_blocks.
  repeat (destruct (task_block _ _ _ _ _) as [?|?]; [rewrite !result_bind_ok|done]).
  reflexivity.
Qed.

Lemma run_blocks_ok (self : EGEM) (table : list (string * string * result Qc)) :
  forall st st',
  run_blocks self table st = Ok st' ->
  exists values,
    Forall2 (fun e v => e.2 = Ok v) (active_entries self table) values /\
    st'.1 = foldl loss_iadd st.1 values /\
    st'.2 = foldl (fun d kv => <[kv.1 := kv.2]> d) st.2
              (zip (map (fun e => e.1.2) (active_entries self table)) values).
Proof.
  induction table as [|[[task key] get_loss] table IH]; intros st st' H; simpl in H.
  - injection H as <-. exists []. split; [constructor | done].
  - unfold active_entries. rewrite filter_cons. simpl.
    destruct (decide (task ∈ pretrain_tasks self)) as [Hin|Hout].
    + rewrite task_block_active in H by done.
      destruct get_loss as [v|e]; simpl in H; [|done].
      destruct (IH _ _ H) as (values & Hall & Hloss & Hdict).
      exists (v :: values). split; [by constructor|]. by split.
    + rewrite task_block_inactive in H by done. apply (IH _ _ H).
Qed.

Lemma foldl_loss_iadd_tensor (q : Qc) (values : list Qc) :
  foldl loss_iadd (PyTensor q) values = PyTensor (q + total_loss values).
Proof.
  revert q. induction values as [|v values IH]; intros q; simpl.
  - by rewrite Qcplus_0_r.
  - rewrite IH. f_equal. unfold total_loss. simpl. by rewrite Qcplus_assoc.
Qed.

Lemma foldl_loss_iadd_int (values : list Qc) :
  values <> [] -> foldl loss_iadd (PyInt 0) values = PyTensor (total_loss values).
Proof.
  destruct values as [|v values]; [done|]. intros _. simpl.
  rewrite foldl_loss_iadd_tensor. f_equal. unfold total_loss. simpl.
  by rewrite Z2Qc_inj_0, Qcplus_0_l.
Qed.

Lemma foldl_insert_dom (kvs : list (string * Qc)) (d : loss_dict) :
  dom (foldl (fun d kv => <[kv.1 := kv.2]> d) d kvs)
  = list_to_set (map fst kvs) ∪ dom d.
Proof.
  revert d. induction kvs as [|[k v] kvs IH]; intros d; simpl.
  - set_solver.
  - rewrite IH, dom_insert_L. set_solver.
Qed.

(** What a returning call of [compute_loss] returns: with [values] the
    losses of the listed tasks among the eight that have a block, in the
    order of the source, the loss is their unweighted sum and the breakdown
    has the keys of these tasks and the key "loss", which holds the sum. *)
Lemma compute_loss_sums_blocks (self : EGEM) (bl ba da : vec) (AB : edges)
    (atom_attr : tensor) (BA AD : edges) (cm5 espc hirshfeld npa orders : vec)
    (ma mb mg md : option indices) (loss : pyloss) (d : loss_dict) :
  compute_loss self bl ba da AB atom_attr BA AD cm5 espc hirshfeld npa orders
    ma mb mg md = Ok (loss, d) ->
  let entries := active_entries self
                   (task_losses self bl ba da AB atom_attr BA AD cm5 espc
                      hirshfeld npa orders ma mb mg md) in
  exists values,
    Forall2 (fun e v => e.2 = Ok v) entries values /\
    entries <> [] /\
    loss = PyTensor (total_loss values) /\
    d !! "loss" = Some (total_loss values) /\
    dom d = list_to_set (map (fun e => e.1.2) entries) ∪ {["loss"]}.
Proof.
  intros H entries. rewrite compute_loss_table in H.
  destruct (run_blocks _ _ _) as [[loss' d']|e] eqn:Hrun; [|done].
  rewrite result_bind_ok in H. simpl in H.
  destruct (run_blocks_ok _ _ _ _ Hrun) as (values & Hall & Hloss & Hdict).
  fold entries in Hall, Hdict. simpl in Hloss, Hdict.
  destruct values as [|v values].
  { simpl in Hloss. subst loss'. done. }
  rewrite foldl_loss_iadd_int in Hloss by done. subst loss'. simpl in H.
  injection H as <- <-. exists (v :: values).
  split; [done|]. split; [|split; [done|split]].
  - intros Hnil. rewrite Hnil in Hall. inversion Hall.
  - apply lookup_insert_eq.
  - rewrite dom_insert_L, Hdict, foldl_insert_dom, dom_empty_L.
    rewrite fst_zip by (apply Forall2_length in Hall; rewrite length_map; lia).
    set_solver.
Qed.

(** With Blr the only listed task that has a block, the breakdown of a
    returning call has exactly the keys "bond_length_loss" and "loss", and
    the loss is the bond-length loss. *)
Lemma compute_loss_Blr_only (self : EGEM) (bl ba da : vec) (AB : edges)
    (atom_attr : tensor) (BA AD : edges) (cm5 espc hirshfeld npa orders : vec)
    (ma mb mg md : option indices) (loss : pyloss) (d : loss_dict) :
  "Blr" ∈ pretrain_tasks self ->
  (forall t, t ∈ ["Bar"; "Dar"; "CM5"; "ESPC"; "HIRSHFELD"; "NPA"; "WIBERG"] ->
             t ∉ pretrain_tasks self) ->
  compute_loss self bl ba da AB atom_attr BA AD cm5 espc hirshfeld npa orders
    ma mb mg md = Ok (loss, d) ->
  exists v, _get_Blr_loss (Blr_head self) atom_attr bl AB mb = Ok v /\
            loss = PyTensor v /\
            d = {["bond_length_loss" := v; "loss" := v]}.
Proof.
  intros Hin Hout H. unfold compute_loss in H.
  rewrite task_block_active in H by done.
  destruct (_get_Blr_loss _ _ _ _ _) as [v|e]; [|done].
  rewrite !result_bind_ok in H.
  repeat (rewrite task_block_inactive in H
            by (apply Hout; rewrite !elem_of_cons; tauto);
          rewrite result_bind_ok in H).
  simpl in H. injection H as <- <-. exists v. split; [done|].
  rewrite Z2Qc_inj_0, Qcplus_0_l. split; [done|].
  apply insert_insert_ne. done.
Qed.

(** C6. The breakdown misses tasks: an [EGEM] constructed with the tasks Blr
    and Adc owns a head for each of them, and [compute_loss], which has no
    block for Adc, returns the bond-length loss alone as the loss and a
    breakdown with the two keys "bond_length_loss" and "loss" only. *)
Theorem compute_loss_has_no_Adc_block :
  is_Some (Blr_head (Demo.pretrainer ["Blr"; "Adc"])) /\
  is_Some (Adc_head (Demo.pretrainer ["Blr"; "Adc"])) /\
  exists v,
    _get_Blr_loss (Blr_head (Demo.pretrainer ["Blr"; "Adc"])) Demo.atom_attr
      [Demo.of_Z 3; Demo.of_Z 2; Demo.of_Z 3] [(0, 1); (1, 2); (2, 3)] (Some [1])
    = Ok v /\
    Demo.chain_loss ["Blr"; "Adc"] None (Some [1]) None None
    = Ok (PyTensor v, {["bond_length_loss" := v; "loss" := v]}).
Proof.
  split; [vm_compute; eauto|]. split; [vm_compute; eauto|].
  destruct (Demo.chain_loss ["Blr"; "Adc"] None (Some [1]) None None)
    as [[loss d]|e] eqn:H; [|by vm_compute in H].
  unfold Demo.chain_loss in H.
  apply compute_loss_Blr_only in H as (v & Hv & -> & ->).
  - by exists v.
  - change ("Blr" ∈ ["Blr"; "Adc"]). left.
  - intros t Ht Hin. change (t ∈ ["Blr"; "Adc"]) in Hin.
    rewrite !elem_of_cons, elem_of_nil in Hin.
    rewrite !elem_of_cons, elem_of_nil in Ht.
    destruct Hin as [->|[->|[]]];
      repeat (destruct Ht as [Ht|Ht]; [discriminate Ht|]); exact Ht.
Qed.

(** ** Running the forward pass *)

Lemma apply_layer_ok (f : layer1) (l : loc) (w w' : world) (t : tensor) :
  apply_layer f l w = (Ok t, w') ->
  w' = w /\ exists v, store w !! l = Some v /\ f v = Ok t.
Proof.
  unfold apply_layer. intros H. apply bind_ok in H as (v & w1 & Hr & H).
  apply read_ok in Hr as [Hr ->]. apply lift_ok in H as [H ->].
  split; [done|]. by exists v.
Qed.

Lemma module_at_ok {A} (ms : list A) (i : nat) (w w' : world) (m : A) :
  module_at ms i w = (Ok m, w') -> w' = w /\ ms !! i = Some m.
Proof.
  unfold module_at, list_get. intros H. apply lift_ok in H as [H ->].
  split; [done|]. by destruct (ms !! i); simplify_eq.
Qed.

Lemma list_get_ok {A} (l : list A) (i : nat) (a : A) :
  list_get l i = Ok a -> l !! i = Some a.
Proof. unfold list_get. by destruct (l !! i); intros [=]; subst. Qed.

Lemma attribute_ok {A} (o : option A) (w w' : world) (a : A) :
  attribute o w = (Ok a, w') -> w' = w /\ o = Some a.
Proof. unfold attribute. destruct o; [|done]. by intros [= <- <-]. Qed.

Lemma list_last_ok {A} (l : list A) (w w' : world) (a : A) :
  list_last l w = (Ok a, w') -> w' = w /\ last l = Some a.
Proof. unfold list_last. destruct (last l); [|done]. by intros [= <- <-]. Qed.

Lemma call_block_ok (b : block_id) (l : nat) (blk : block) (n e : tensor)
    (idx : edges) (bt : indices) (w w' : world) (out : tensor) :
  call_block b l blk n e idx bt w = (Ok out, w') ->
  store w' = store w /\ calls w' = calls w ++ [Call b l n e idx bt] /\
  blk n e idx bt = Ok out.
Proof.
  unfold call_block. intros H. apply bind_ok in H as ([] & w1 & Hr & H).
  unfold record in Hr. injection Hr as <-.
  apply lift_ok in H as [H ->]. done.
Qed.

Lemma refresh_bond_ok (self : EGeoGNNModel) (l : nat) (ba bl : loc)
    (w w' : world) (t : tensor) :
  refresh_bond self l ba bl w = (Ok t, w') ->
  w' = w /\ exists vba vbl, store w !! ba = Some vba /\ store w !! bl = Some vbl /\
                            bond_refresh self l vba vbl = Ok t.
Proof.
  unfold refresh_bond. intros H.
  apply bind_ok in H as (emb & w1 & H1 & H). apply module_at_ok in H1 as [-> H1].
  apply bind_ok in H as (e & w1 & H2 & H).
  apply apply_layer_ok in H2 as [-> (vba & Hba & H2)].
  apply bind_ok in H as (rbf & w1 & H3 & H). apply module_at_ok in H3 as [-> H3].
  apply bind_ok in H as (r & w1 & H4 & H).
  apply apply_layer_ok in H4 as [-> (vbl & Hbl & H4)].
  apply lift_ok in H as [H ->]. split; [done|]. exists vba, vbl.
  split; [done|]. split; [done|].
  unfold bond_refresh, list_get. rewrite H1. simpl. rewrite H2. simpl.
  rewrite H3. simpl. by rewrite H4.
Qed.

(** One layer of the variant with dihedral angles, when it returns. *)
Lemma layer_with_dihedral_ok (self : EGeoGNNModel) (b : batch)
    (ba bl ang dih : loc) (bond_batch angle_batch : indices)
    (nl el al : list tensor) (cd : option tensor) (l : nat) (w w' : world)
    (st' : list tensor * list tensor * list tensor * option tensor) :
  layer_with_dihedral self b ba bl ang dih bond_batch angle_batch
    (nl, el, al, cd) l w = (Ok st', w') ->
  exists nh eh ah vba vbl vang vdih node_hidden cur_edge edge_hidden
         cur_angle cur_dihedral angle_hidden blks,
    store w' = store w /\
    (nl !! l = Some nh /\ el !! l = Some eh /\ al !! l = Some ah) /\
    (store w !! ba = Some vba /\ store w !! bl = Some vbl /\
     store w !! ang = Some vang /\ store w !! dih = Some vdih) /\
    block_output (atom_bond_block_list self) l nh eh
      (AtomBondGraph_edges b) (atom_batch b) = Ok node_hidden /\
    bond_refresh self l vba vbl = Ok cur_edge /\
    block_output (bond_angle_block_list self) l cur_edge ah
      (BondAngleGraph_edges b) bond_batch = Ok edge_hidden /\
    angle_refresh self l vang = Ok cur_angle /\
    dihedral_refresh self l vdih = Ok cur_dihedral /\
    angle_dihedral_block_list self = Some blks /\
    block_output blks l cur_angle cur_dihedral
      (AngleDihedralGraph_edges b) angle_batch = Ok angle_hidden /\
    calls w' = calls w ++
      [Call AtomBondBlock l nh eh (AtomBondGraph_edges b) (atom_batch b);
       Call BondAngleBlock l cur_edge ah (BondAngleGraph_edges b) bond_batch;
       Call AngleDihedralBlock l cur_angle cur_dihedral
         (AngleDihedralGraph_edges b) angle_batch] /\
    st' = (nl ++ [node_hidden], el ++ [edge_hidden], al ++ [angle_hidden],
           Some cur_dihedral).
Proof.
  unfold layer_with_dihedral. intros H.
  apply bind_ok in H as (blk1 & w1 & H1 & H). apply module_at_ok in H1 as [-> H1].
  apply bind_ok in H as (nh & w1 & Hnh & H). apply lift_ok in Hnh as [Hnh ->].
  apply bind_ok in H as (eh & w1 & Heh & H). apply lift_ok in Heh as [Heh ->].
  apply bind_ok in H as (node_hidden & w1 & Hc1 & H).
  apply call_block_ok in Hc1 as (S1 & C1 & O1).
  apply bind_ok in H as (cur_edge & w2 & Hre & H).
  apply refresh_bond_ok in Hre as [-> (vba & vbl & Hba & Hbl & Hre)].
  apply bind_ok in H as (blk2 & w2 & H2 & H). apply module_at_ok in H2 as [-> H2].
  apply bind_ok in H as (ah & w2 & Hah & H). apply lift_ok in Hah as [Hah ->].
  apply bind_ok in H as (edge_hidden & w2 & Hc2 & H).
  apply call_block_ok in Hc2 as (S2 & C2 & O2).
  apply bind_ok in H as (rbfa & w3 & H3 & H). apply module_at_ok in H3 as [-> H3].
  apply bind_ok in H as (cur_angle & w3 & Hra & H).
  apply apply_layer_ok in Hra as [-> (vang & Hang & Hra)].
  apply bind_ok in H as (rbfs & w3 & H4 & H). apply attribute_ok in H4 as [-> H4].
  apply bind_ok in H as (rbfd & w3 & H5 & H). apply module_at_ok in H5 as [-> H5].
  apply bind_ok in H as (cur_dihedral & w3 & Hrd & H).
  apply apply_layer_ok in Hrd as [-> (vdih & Hdih & Hrd)].
  apply bind_ok in H as (blks & w3 & H6 & H). apply attribute_ok in H6 as [-> H6].
  apply bind_ok in H as (blk3 & w3 & H7 & H). apply module_at_ok in H7 as [-> H7].
  apply bind_ok in H as (angle_hidden & w3 & Hc3 & H).
  apply call_block_ok in Hc3 as (S3 & C3 & O3).
  injection H as <- <-.
  rewrite S1 in Hba, Hbl. rewrite S2, S1 in Hang, Hdih.
  apply list_get_ok in Hnh, Heh, Hah.
  exists nh, eh, ah, vba, vbl, vang, vdih, node_hidden, cur_edge, edge_hidden,
    cur_angle, cur_dihedral, angle_hidden, blks.
  split; [congruence|]. split; [done|]. split; [done|].
  unfold block_output, angle_refresh, dihedral_refresh, module_list, list_get.
  unfold layer1, block in *.
  rewrite H1, H2, H3, H4, H7. simpl. rewrite H5. simpl.
  repeat (split; [done|]). split; [|done].
  rewrite C3, C2, C1. by rewrite <- !(assoc_L (++)).
Qed.

(** One layer of the variant without dihedral angles, when it returns. *)
Lemma layer_without_dihedral_ok (self : EGeoGNNModel) (b : batch)
    (ba bl ang : loc) (bond_batch : indices)
    (nl el : list tensor) (l : nat) (w w' : world)
    (st' : list tensor * list tensor) :
  layer_without_dihedral self b ba bl ang bond_batch (nl, el) l w = (Ok st', w') ->
  exists nh eh vba vbl vang node_hidden cur_edge cur_angle edge_hidden,
    store w' = store w /\
    (nl !! l = Some nh /\ el !! l = Some eh) /\
    (store w !! ba = Some vba /\ store w !! bl = Some vbl /\
     store w !! ang = Some vang) /\
    block_output (atom_bond_block_list self) l nh eh
      (AtomBondGraph_edges b) (atom_batch b) = Ok node_hidden /\
    bond_refresh self l vba vbl = Ok cur_edge /\
    angle_refresh self l vang = Ok cur_angle /\
    block_output (bond_angle_block_list self) l cur_edge cur_angle
      (BondAngleGraph_edges b) bond_batch = Ok edge_hidden /\
    calls w' = calls w ++
      [Call AtomBondBlock l nh eh (AtomBondGraph_edges b) (atom_batch b);
       Call BondAngleBlock l cur_edge cur_angle (BondAngleGraph_edges b) bond_batch] /\
    st' = (nl ++ [node_hidden], el ++ [edge_hidden]).
Proof.
  unfold layer_without_dihedral. intros H.
  apply bind_ok in H as (blk1 & w1 & H1 & H). apply module_at_ok in H1 as [-> H1].
  apply bind_ok in H as (nh & w1 & Hnh & H). apply lift_ok in Hnh as [Hnh ->].
  apply bind_ok in H as (eh & w1 & Heh & H). apply lift_ok in Heh as [Heh ->].
  apply bind_ok in H as (node_hidden & w1 & Hc1 & H).
  apply call_block_ok in Hc1 as (S1 & C1 & O1).
  apply bind_ok in H as (cur_edge & w2 & Hre & H).
  apply refresh_bond_ok in Hre as [-> (vba & vbl & Hba & Hbl & Hre)].
  apply bind_ok in H as (rbfa & w2 & H3 & H). apply module_at_ok in H3 as [-> H3].
  apply bind_ok in H as (cur_angle & w2 & Hra & H).
  apply apply_layer_ok in Hra as [-> (vang & Hang & Hra)].
  apply bind_ok in H as (blk2 & w2 & H2 & H). apply module_at_ok in H2 as [-> H2].
  apply bind_ok in H as (edge_hidden & w2 & Hc2 & H).
  apply call_block_ok in Hc2 as (S2 & C2 & O2).
  injection H as <- <-.
  rewrite S1 in Hba, Hbl, Hang.
  apply list_get_ok in Hnh, Heh.
  exists nh, eh, vba, vbl, vang, node_hidden, cur_edge, cur_angle, edge_hidden.
  split; [congruence|]. split; [done|]. split; [done|].
  unfold block_output, angle_refresh, list_get.
  unfold layer1, block in *.
  rewrite H1, H2, H3. simpl.
  repeat (split; [done|]). split; [|done].
  rewrite C2, C1. by rewrite <- !(assoc_L (++)).
Qed.

(** An invariant indexed by the number of iterations done holds after a
    returning loop over [range(n)]. *)
Lemma for_layers_range {S} (body : S -> nat -> M S)
    (Inv : nat -> S -> world -> Prop) (n : nat) :
  (forall k s w s' w', (k < n)%nat -> Inv k s w ->
     body s k w = (Ok s', w') -> Inv (Datatypes.S k) s' w') ->
  forall st w st' w',
    Inv 0%nat st w ->
    for_layers body (seq 0 n) st w = (Ok st', w') -> Inv n st' w'.
Proof.
  intros Hbody.
  assert (Hgen : forall m a st w st' w', (a + m = n)%nat -> Inv a st w ->
            for_layers body (seq a m) st w = (Ok st', w') -> Inv n st' w').
  { induction m as [|m IH]; intros a st w st' w' Ha HI H; simpl in H.
    - injection H as <- <-. by replace n with a by lia.
    - apply bind_ok in H as (s1 & w1 & Hb & H).
      apply (IH (Datatypes.S a) s1 w1 st' w'); [lia | | done].
      apply (Hbody a st w); [lia | done | done]. }
  intros st w st' w'. by apply Hgen.
Qed.

(** A returning forward pass of the variant without dihedral angles. *)
Lemma forward_without_ok (self : EGeoGNNModel) (b : batch) (w w' : world)
    (enc : encoding) :
  without_dihedral self = true ->
  forward self b w = (Ok enc, w') ->
  exists x' ba' bl' ang' dih' w1 node_hidden bond_hidden graph_idx bond_batch nl el,
    mask_attr self (x b) (bond_attr b) (bond_lengths b) (bond_angles b)
      (dihedral_angles b) (masked_atom_indices b) (masked_bond_indices b)
      (masked_angle_indices b) (masked_dihedral_indices b) w
    = (Ok (x', ba', bl', ang', dih'), w1) /\
    arange (num_graphs b) = Ok graph_idx /\
    repeat_interleave graph_idx (num_bonds b) = Ok bond_batch /\
    for_layers (layer_without_dihedral self b ba' bl' ang' bond_batch)
      (seq 0 (n_layers self)) ([node_hidden], [bond_hidden]) w1
    = (Ok (nl, el), w') /\
    last nl = Some (node_repr enc) /\
    last el = Some (edge_repr enc) /\
    angle_repr enc = None /\ dihedral_repr enc = None /\
    global_mean_pool (node_repr enc) (atom_batch b) (num_graphs b)
    = Ok (graph_repr enc).
Proof.
  intros Hwd H. unfold forward in H.
  apply bind_ok in H as ([[[[x' ba'] bl'] ang'] dih'] & w1 & Hmask & H).
  apply bind_ok in H as (node_hidden & w2 & H1 & H).
  apply apply_layer_ok in H1 as [-> _].
  apply bind_ok in H as (bond_embed & w2 & H2 & H).
  apply apply_layer_ok in H2 as [-> _].
  apply bind_ok in H as (r & w2 & H3 & H).
  apply apply_layer_ok in H3 as [-> _].
  apply bind_ok in H as (bond_hidden & w2 & H4 & H).
  apply lift_ok in H4 as [_ ->].
  rewrite Hwd in H.
  apply bind_ok in H as (graph_idx & w2 & H5 & H). apply lift_ok in H5 as [H5 ->].
  apply bind_ok in H as (bond_batch & w2 & H6 & H). apply lift_ok in H6 as [H6 ->].
  apply bind_ok in H as ([nl el] & w2 & Hloop & H).
  apply bind_ok in H as (nr & w3 & H7 & H). apply list_last_ok in H7 as [-> H7].
  apply bind_ok in H as (er & w3 & H8 & H). apply list_last_ok in H8 as [-> H8].
  apply bind_ok in H as (gr & w3 & H9 & H). apply lift_ok in H9 as [H9 ->].
  injection H as <- <-. simpl.
  exists x', ba', bl', ang', dih', w1, node_hidden, bond_hidden, graph_idx,
    bond_batch, nl, el.
  done.
Qed.

(** A returning forward pass of the variant with dihedral angles. *)
Lemma forward_with_ok (self : EGeoGNNModel) (b : batch) (w w' : world)
    (enc : encoding) :
  without_dihedral self = false ->
  forward self b w = (Ok enc, w') ->
  exists x' ba' bl' ang' dih' w1 node_hidden bond_hidden angle_hidden vang
         graph_idx bond_batch angle_batch nl el al a d,
    mask_attr self (x b) (bond_attr b) (bond_lengths b) (bond_angles b)
      (dihedral_angles b) (masked_atom_indices b) (masked_bond_indices b)
      (masked_angle_indices b) (masked_dihedral_indices b) w
    = (Ok (x', ba', bl', ang', dih'), w1) /\
    (store w1 !! ang' = Some vang /\
     init_bond_angle_float_rbf self vang = Ok angle_hidden) /\
    arange (num_graphs b) = Ok graph_idx /\
    repeat_interleave graph_idx (num_bonds b) = Ok bond_batch /\
    repeat_interleave graph_idx (num_angles b) = Ok angle_batch /\
    for_layers (layer_with_dihedral self b ba' bl' ang' dih' bond_batch angle_batch)
      (seq 0 (n_layers self)) ([node_hidden], [bond_hidden], [angle_hidden], None) w1
    = (Ok (nl, el, al, Some d), w') /\
    last nl = Some (node_repr enc) /\
    last el = Some (edge_repr enc) /\
    last al = Some a /\
    angle_repr enc = Some a /\ dihedral_repr enc = Some d /\
    global_mean_pool (node_repr enc) (atom_batch b) (num_graphs b)
    = Ok (graph_repr enc).
Proof.
  intros Hwd H. unfold forward in H.
  apply bind_ok in H as ([[[[x' ba'] bl'] ang'] dih'] & w1 & Hmask & H).
  apply bind_ok in H as (node_hidden & w2 & H1 & H).
  apply apply_layer_ok in H1 as [-> _].
  apply bind_ok in H as (bond_embed & w2 & H2 & H).
  apply apply_layer_ok in H2 as [-> _].
  apply bind_ok in H as (r & w2 & H3 & H).
  apply apply_layer_ok in H3 as [-> _].
  apply bind_ok in H as (bond_hidden & w2 & H4 & H).
  apply lift_ok in H4 as [_ ->].
  rewrite Hwd in H.
  apply bind_ok in H as (angle_hidden & w2 & Ha & H).
  apply apply_layer_ok in Ha as [-> (vang & Hvang & Ha)].
  apply bind_ok in H as (graph_idx & w2 & H5 & H). apply lift_ok in H5 as [H5 ->].
  apply bind_ok in H as (bond_batch & w2 & H6 & H). apply lift_ok in H6 as [H6 ->].
  apply bind_ok in H as (angle_batch & w2 & H6' & H). apply lift_ok in H6' as [H6' ->].
  apply bind_ok in H as ([[[nl el] al] cd] & w2 & Hloop & H).
  apply bind_ok in H as (nr & w3 & H7 & H). apply list_last_ok in H7 as [-> H7].
  apply bind_ok in H as (er & w3 & H8 & H). apply list_last_ok in H8 as [-> H8].
  apply bind_ok in H as (ar & w3 & H8' & H). apply list_last_ok in H8' as [-> H8'].
  apply bind_ok in H as (dr & w3 & Hd & H).
  destruct cd as [d|]; [|done]. injection Hd as <- <-.
  apply bind_ok in H as (gr & w3 & H9 & H). apply lift_ok in H9 as [H9 ->].
  injection H as <- <-. simpl.
  exists x', ba', bl', ang', dih', w1, node_hidden, bond_hidden, angle_hidden, vang,
    graph_idx, bond_batch, angle_batch, nl, el, al, ar, d.
  done.
Qed.

Lemma mask_attr_calls self x ba bl ang dih ma mb mg md (w : world) :
  calls (mask_attr self x ba bl ang dih ma mb mg md w).2 = calls w.
Proof.
  destruct (kept_mask_attr (store w) (calls w) self x ba bl ang dih ma mb mg md w)
    as [[_ H] _]; [by split | done].
Qed.

(** ** The bond-angle pass of every layer *)

(** The calls of a returning loop of the variant with dihedral angles: one
    bond-angle pass per layer, whose node input is the refreshed bond
    embedding of that layer. *)
Lemma loop_with_dihedral_calls (self : EGeoGNNModel) (b : batch)
    (ba bl ang dih : loc) (bond_batch angle_batch : indices) (n : nat)
    (st st' : list tensor * list tensor * list tensor * option tensor)
    (w w' : world) :
  for_layers (layer_with_dihedral self b ba bl ang dih bond_batch angle_batch)
    (seq 0 n) st w = (Ok st', w') ->
  store w' = store w /\
  exists new,
    calls w' = calls w ++ new /\
    (forall l, (l < n)%nat -> exists c, bond_angle_pass new l c) /\
    (forall l c, bond_angle_pass new l c ->
       exists vba vbl, store w !! ba = Some vba /\ store w !! bl = Some vbl /\
                       bond_refresh self l vba vbl = Ok (node_hidden_arg c)).
Proof.
  apply (for_layers_range _ (fun k _ w' =>
    store w' = store w /\
    exists new,
      calls w' = calls w ++ new /\
      (forall l, (l < k)%nat -> exists c, bond_angle_pass new l c) /\
      (forall l c, bond_angle_pass new l c ->
         exists vba vbl, store w !! ba = Some vba /\ store w !! bl = Some vbl /\
                         bond_refresh self l vba vbl = Ok (node_hidden_arg c)))).
  - intros k [[[nl el] al] cd] wk s' wk' Hk (Hst & new & Hcalls & Hex & Hall) Hrun.
    apply layer_with_dihedral_ok in Hrun
      as (nh & eh & ah & vba & vbl & vang & vdih & node_hidden & cur_edge
          & edge_hidden & cur_angle & cur_dihedral & angle_hidden & blks
          & Hst' & _ & (Hba & Hbl & _ & _) & _ & Hre & _ & _ & _ & _ & _ & Hc & _).
    rewrite Hst in Hst', Hba, Hbl. split; [done|].
    eexists. split; [rewrite Hc, Hcalls, <- app_assoc; reflexivity|]. split.
    + intros l Hl. destruct (decide (l = k)) as [->|Hne].
      * eexists.
        split; [apply elem_of_app; right; right; left | split; reflexivity].
      * destruct (Hex l) as (c & Hin & Hc'); [lia|].
        exists c. split; [|done]. apply elem_of_app. by left.
    + intros l c (Hin & Hcallee & Hlayer). apply elem_of_app in Hin as [Hin|Hin].
      * by apply Hall.
      * rewrite !elem_of_cons, elem_of_nil in Hin.
        destruct Hin as [->|[->|[->|[]]]]; try discriminate Hcallee.
        simpl in Hlayer. subst l. by exists vba, vbl.
  - split; [done|]. exists []. split; [by rewrite app_nil_r|].
    split; [intros l Hl; lia|].
    intros l c (Hin & _). by apply elem_of_nil in Hin.
Qed.

(** C8. In a returning forward pass of the variant with dihedral angles,
    there is a bond-angle pass for every layer l, and the node input of each
    bond-angle pass of layer l is bond_embedding_list[l](bond_attr) +
    bond_float_rbf_list[l](bond_lengths) on the masked copies of the raw bond
    features: a function of the tables of layer l and of these two tensors,
    in which the edge_hidden of the previous layer does not occur. *)
Theorem bond_angle_pass_node_input (self : EGeoGNNModel) (b : batch) (w w' : world)
    (enc : encoding) :
  without_dihedral self = false ->
  forward self b w = (Ok enc, w') ->
  exists x' ba' bl' ang' dih' w1 new,
    mask_attr self (x b) (bond_attr b) (bond_lengths b) (bond_angles b)
      (dihedral_angles b) (masked_atom_indices b) (masked_bond_indices b)
      (masked_angle_indices b) (masked_dihedral_indices b) w
    = (Ok (x', ba', bl', ang', dih'), w1) /\
    calls w' = calls w ++ new /\
    (forall l, (l < n_layers self)%nat -> exists c, bond_angle_pass new l c) /\
    (forall l c, bond_angle_pass new l c ->
       exists vba vbl, store w1 !! ba' = Some vba /\ store w1 !! bl' = Some vbl /\
                       bond_refresh self l vba vbl = Ok (node_hidden_arg c)).
Proof.
  intros Hwd H.
  apply forward_with_ok in H
    as (x' & ba' & bl' & ang' & dih' & w1 & node_hidden & bond_hidden
        & angle_hidden & vang & graph_idx & bond_batch & angle_batch & nl & el & al
        & a & d & Hmask & _ & _ & _ & _ & Hloop & _); [|done].
  apply loop_with_dihedral_calls in Hloop as (_ & new & Hcalls & Hex & Hall).
  exists x', ba', bl', ang', dih', w1, new. split; [done|].
  split; [|done]. rewrite Hcalls.
  by rewrite <- (mask_attr_calls self (x b) (bond_attr b) (bond_lengths b)
                   (bond_angles b) (dihedral_angles b) (masked_atom_indices b)
                   (masked_bond_indices b) (masked_angle_indices b)
                   (masked_dihedral_indices b) w), Hmask.
Qed.

Lemma bond_angle_pass_node_input_witness :
  without_dihedral (Demo.encoder 1 false) = false /\
  exists enc w',
    forward (Demo.encoder 1 false) (Demo.chain [3] None None None None)
      Demo.chain_world = (Ok enc, w') /\
    exists c, bond_angle_pass (calls w') 0 c.
Proof.
  split; [reflexivity|].
  destruct (forward (Demo.encoder 1 false) (Demo.chain [3] None None None None)
              Demo.chain_world) as [[enc|e] w'] eqn:H;
    [|vm_compute in H; discriminate H].
  exists enc, w'. split; [reflexivity|].
  destruct (bond_angle_pass_node_input (Demo.encoder 1 false) _ _ _ _ eq_refl H)
    as (x' & ba' & bl' & ang' & dih' & w1 & new & _ & Hcalls & Hex & _).
  destruct (Hex 0%nat) as (c & Hc); [simpl; lia|].
  exists c. by rewrite Hcalls.
Defined.

(** The calls of a returning loop of the variant without dihedral angles:
    one bond-angle pass per layer, whose node input is the refreshed bond
    embedding and whose edge input is the refreshed angle embedding of that
    layer. *)
Lemma loop_without_dihedral_calls (self : EGeoGNNModel) (b : batch)
    (ba bl ang : loc) (bond_batch : indices) (n : nat)
    (st st' : list tensor * list tensor) (w w' : world) :
  for_layers (layer_without_dihedral self b ba bl ang bond_batch)
    (seq 0 n) st w = (Ok st', w') ->
  store w' = store w /\
  exists new,
    calls w' = calls w ++ new /\
    (forall l, (l < n)%nat -> exists c, bond_angle_pass new l c) /\
    (forall l c, bond_angle_pass new l c ->
       exists vba vbl vang,
         store w !! ba = Some vba /\ store w !! bl = Some vbl /\
         store w !! ang = Some vang /\
         bond_refresh self l vba vbl = Ok (node_hidden_arg c) /\
         angle_refresh self l vang = Ok (edge_hidden_arg c)).
Proof.
  apply (for_layers_range _ (fun k _ w' =>
    store w' = store w /\
    exists new,
      calls w' = calls w ++ new /\
      (forall l, (l < k)%nat -> exists c, bond_angle_pass new l c) /\
      (forall l c, bond_angle_pass new l c ->
         exists vba vbl vang,
           store w !! ba = Some vba /\ store w !! bl = Some vbl /\
           store w !! ang = Some vang /\
           bond_refresh self l vba vbl = Ok (node_hidden_arg c) /\
           angle_refresh self l vang = Ok (edge_hidden_arg c)))).
  - intros k [nl el] wk s' wk' Hk (Hst & new & Hcalls & Hex & Hall) Hrun.
    apply layer_without_dihedral_ok in Hrun
      as (nh & eh & vba & vbl & vang & node_hidden & cur_edge & cur_angle
          & edge_hidden & Hst' & _ & (Hba & Hbl & Hang) & _ & Hre & Hra & _ & Hc & _).
    rewrite Hst in Hst', Hba, Hbl, Hang. split; [done|].
    eexists. split; [rewrite Hc, Hcalls, <- app_assoc; reflexivity|]. split.
    + intros l Hl. destruct (decide (l = k)) as [->|Hne].
      * eexists.
        split; [apply elem_of_app; right; right; left | split; reflexivity].
      * destruct (Hex l) as (c & Hin & Hc'); [lia|].
        exists c. split; [|done]. apply elem_of_app. by left.
    + intros l c (Hin & Hcallee & Hlayer). apply elem_of_app in Hin as [Hin|Hin].
      * by apply Hall.
      * rewrite !elem_of_cons, elem_of_nil in Hin.
        destruct Hin as [->|[->|[]]]; try discriminate Hcallee.
        simpl in Hlayer. subst l. by exists vba, vbl, vang.
  - split; [done|]. exists []. split; [by rewrite app_nil_r|].
    split; [intros l Hl; lia|].
    intros l c (Hin & _). by apply elem_of_nil in Hin.
Qed.

(** C2, as the code has it.  In a returning forward pass of the variant
    without dihedral angles there is a bond-angle pass for every layer l, and
    the edge hidden states of each bond-angle pass of layer l are
    bond_angle_float_rbf_list[l](bond_angles) on the masked copy of the bond
    angles, the angle embedding refreshed by the RBF layer of layer l; its
    node input is the refreshed bond embedding, as in the variant with
    dihedral angles. *)
Theorem bond_angle_pass_without_dihedral (self : EGeoGNNModel) (b : batch)
    (w w' : world) (enc : encoding) :
  without_dihedral self = true ->
  forward self b w = (Ok enc, w') ->
  exists x' ba' bl' ang' dih' w1 new,
    mask_attr self (x b) (bond_attr b) (bond_lengths b) (bond_angles b)
      (dihedral_angles b) (masked_atom_indices b) (masked_bond_indices b)
      (masked_angle_indices b) (masked_dihedral_indices b) w
    = (Ok (x', ba', bl', ang', dih'), w1) /\
    calls w' = calls w ++ new /\
    (forall l, (l < n_layers self)%nat -> exists c, bond_angle_pass new l c) /\
    (forall l c, bond_angle_pass new l c ->
       exists vba vbl vang,
         store w1 !! ba' = Some vba /\ store w1 !! bl' = Some vbl /\
         store w1 !! ang' = Some vang /\
         bond_refresh self l vba vbl = Ok (node_hidden_arg c) /\
         angle_refresh self l vang = Ok (edge_hidden_arg c)).
Proof.
  intros Hwd H.
  apply forward_without_ok in H
    as (x' & ba' & bl' & ang' & dih' & w1 & node_hidden & bond_hidden
        & graph_idx & bond_batch & nl & el & Hmask & _ & _ & Hloop & _); [|done].
  apply loop_without_dihedral_calls in Hloop as (_ & new & Hcalls & Hex & Hall).
  exists x', ba', bl', ang', dih', w1, new. split; [done|].
  split; [|done]. rewrite Hcalls.
  by rewrite <- (mask_attr_calls self (x b) (bond_attr b) (bond_lengths b)
                   (bond_angles b) (dihedral_angles b) (masked_atom_indices b)
                   (masked_bond_indices b) (masked_angle_indices b)
                   (masked_dihedral_indices b) w), Hmask.
Qed.

Lemma bond_angle_pass_without_dihedral_witness :
  without_dihedral (Demo.encoder 1 true) = true /\
  exists enc w',
    forward (Demo.encoder 1 true) (Demo.chain [3] None None None None)
      Demo.chain_world = (Ok enc, w') /\
    exists c, bond_angle_pass (calls w') 0 c.
Proof.
  split; [reflexivity|].
  destruct (forward (Demo.encoder 1 true) (Demo.chain [3] None None None None)
              Demo.chain_world) as [[enc|e] w'] eqn:H;
    [|vm_compute in H; discriminate H].
  exists enc, w'. split; [reflexivity|].
  destruct (bond_angle_pass_without_dihedral (Demo.encoder 1 true) _ _ _ _ eq_refl H)
    as (x' & ba' & bl' & ang' & dih' & w1 & new & _ & Hcalls & Hex & _).
  destruct (Hex 0%nat) as (c & Hc); [simpl; lia|].
  exists c. by rewrite Hcalls.
Defined.

(** C2, counterexample.  On the chain, with one layer and without dihedral
    angles, the bond-angle pass of layer 0 does not take the initial
    bond-angle RBF embedding as its edge hidden states. *)
Lemma bond_angle_pass_not_initial_embedding :
  exists c initial,
    calls (forward (Demo.encoder 1 true) (Demo.chain [3] None None None None)
             Demo.chain_world).2 !! 1%nat = Some c /\
    callee c = BondAngleBlock /\ layer c = 0%nat /\
    init_bond_angle_float_rbf (Demo.encoder 1 true)
      (FloatT [Demo.of_Z 2; Demo.of_Z 2]) = Ok initial /\
    edge_hidden_arg c <> initial.
Proof.
  eexists _, _. split; [vm_compute; reflexivity|].
  split; [reflexivity|]. split; [reflexivity|].
  split; [vm_compute; reflexivity|].
  vm_compute. intros H. discriminate H.
Qed.

(** ** The angle and dihedral representations *)

Lemma angle_refresh_ok (self : EGeoGNNModel) (l : nat) (v : tval) (t : tensor) :
  angle_refresh self l v = Ok t ->
  exists rbf, bond_angle_float_rbf_list self !! l = Some rbf /\ rbf v = Ok t.
Proof.
  unfold angle_refresh. intros H. apply result_bind_inv in H as (rbf & Hget & H).
  apply list_get_ok in Hget. by exists rbf.
Qed.

Lemma dihedral_refresh_ok (self : EGeoGNNModel) (l : nat) (v : tval) (t : tensor) :
  dihedral_refresh self l v = Ok t ->
  exists rbfs rbf, dihedral_angle_float_rbf_list self = Some rbfs /\
                   rbfs !! l = Some rbf /\ rbf v = Ok t.
Proof.
  unfold dihedral_refresh. intros H. apply result_bind_inv in H as (rbfs & Hl & H).
  apply result_bind_inv in H as (rbf & Hget & H). apply list_get_ok in Hget.
  exists rbfs, rbf. split; [|done].
  unfold module_list in Hl. destruct (dihedral_angle_float_rbf_list self); [|done].
  by injection Hl as ->.
Qed.

Lemma block_output_ok (blocks : list block) (l : nat) (n e : tensor) (idx : edges)
    (bt : indices) (out : tensor) :
  block_output blocks l n e idx bt = Ok out ->
  exists blk, blocks !! l = Some blk /\ blk n e idx bt = Ok out.
Proof.
  unfold block_output. intros H. apply result_bind_inv in H as (blk & Hget & H).
  apply list_get_ok in Hget. by exists blk.
Qed.

Lemma bond_refresh_ok (self : EGeoGNNModel) (l : nat) (vba vbl : tval) (t : tensor) :
  bond_refresh self l vba vbl = Ok t ->
  exists emb rbf e r,
    bond_embedding_list self !! l = Some emb /\ emb vba = Ok e /\
    bond_float_rbf_list self !! l = Some rbf /\ rbf vbl = Ok r /\
    tensor_add e r = Ok t.
Proof.
  unfold bond_refresh. intros H.
  apply result_bind_inv in H as (emb & H1 & H). apply list_get_ok in H1.
  apply result_bind_inv in H as (e & H2 & H).
  apply result_bind_inv in H as (rbf & H3 & H). apply list_get_ok in H3.
  apply result_bind_inv in H as (r & H4 & H).
  by exists emb, rbf, e, r.
Qed.

(** After a returning loop of at least one layer, the last angle hidden state
    has one row per bond angle and [cur_dihedral_hidden] one row per dihedral
    angle. *)
Lemma loop_with_dihedral_shapes (self : EGeoGNNModel) (b : batch)
    (ba bl ang dih : loc) (bond_batch angle_batch : indices)
    (node_hidden bond_hidden angle_hidden : tensor) (va vd : vec)
    (nl el al : list tensor) (d : tensor) (w w' : world) :
  Forall rbf_shape (bond_angle_float_rbf_list self) ->
  (forall l, dihedral_angle_float_rbf_list self = Some l -> Forall rbf_shape l) ->
  (forall l, angle_dihedral_block_list self = Some l -> Forall block_shape l) ->
  store w !! ang = Some (FloatT va) ->
  store w !! dih = Some (FloatT vd) ->
  for_layers (layer_with_dihedral self b ba bl ang dih bond_batch angle_batch)
    (seq 0 (n_layers self)) ([node_hidden], [bond_hidden], [angle_hidden], None) w
  = (Ok (nl, el, al, Some d), w') ->
  length d = length vd /\ exists a, last al = Some a /\ length a = length va.
Proof.
  intros Hrbfa Hrbfd Hblk Hang Hdih Hloop.
  set (Inv := fun (k : nat)
                  (st : list tensor * list tensor * list tensor * option tensor)
                  (w0 : world) =>
    store w0 = store w /\
    forall d', st.2 = Some d' ->
      length d' = length vd /\
      exists a, last st.1.2 = Some a /\ length a = length va).
  assert (Hstep : forall k s wk s' wk', (k < n_layers self)%nat -> Inv k s wk ->
    layer_with_dihedral self b ba bl ang dih bond_batch angle_batch s k wk
    = (Ok s', wk') -> Inv (S k) s' wk').
  { intros k [[[nl0 el0] al0] cd0] wk s' wk' Hk [Hst _] Hrun.
    apply layer_with_dihedral_ok in Hrun
      as (nh & eh & ah & vba & vbl & vang & vdih & node_hidden' & cur_edge
          & edge_hidden & cur_angle & cur_dihedral & angle_hidden' & blks
          & Hst' & _ & (_ & _ & Hang' & Hdih') & _ & _ & _ & Hra & Hrd & Hblks
          & Hout & _ & ->).
    rewrite Hst in Hst', Hang', Hdih'. split; [done|]. simpl.
    rewrite Hang in Hang'. rewrite Hdih in Hdih'.
    injection Hang' as <-. injection Hdih' as <-.
    intros d' [= <-]. split.
    - apply dihedral_refresh_ok in Hrd as (rbfs & rbf & Hrbfs & Hget & Hrd).
      pose proof (Hrbfd rbfs Hrbfs) as HF. rewrite Forall_lookup in HF.
      by apply (HF k rbf Hget).
    - exists angle_hidden'. split; [apply last_snoc|].
      apply block_output_ok in Hout as (blk & Hget & Hout).
      pose proof (Hblk blks Hblks) as HF. rewrite Forall_lookup in HF.
      rewrite (HF k blk Hget _ _ _ _ _ Hout).
      apply angle_refresh_ok in Hra as (rbf & Hget' & Hra).
      rewrite Forall_lookup in Hrbfa. by apply (Hrbfa k rbf Hget'). }
  assert (H0 : Inv 0%nat ([node_hidden], [bond_hidden], [angle_hidden], None) w).
  { split; [done|]. simpl. intros d' [=]. }
  destruct (for_layers_range _ Inv _ Hstep _ _ _ _ H0 Hloop) as [_ H].
  by apply H.
Qed.

Lemma scatter_add_length {A} (add : A -> A -> A) (out : list A) (index : list nat)
    (src : list A) :
  length (scatter_add add out index src) = length out.
Proof.
  unfold scatter_add. generalize (zip index src). intros ps. revert out.
  induction ps as [|p ps IH]; intros out; simpl; [done|].
  rewrite IH. apply length_alter.
Qed.

Lemma init_list_Forall {A} (P : A -> Prop) (f : nat -> A) (n : nat) :
  (forall k, P (f k)) -> Forall P (f <$> seq 0 n).
Proof. intros H. apply Forall_fmap, Forall_forall. intros k _. apply H. Qed.

(** C7. For a batch whose five tensors have their kinds and sub-layers that
    keep the number of rows (an RBF layer one row per scalar, a block one row
    per node): a forward pass of an encoder constructed with
    without_dihedral=True returns angle_repr = None and dihedral_repr = None;
    one of an encoder constructed with without_dihedral=False returns two
    tensors, with as many rows as the batch has bond angles and dihedral
    angles. *)
Theorem forward_angle_dihedral_repr (n : nat) (atom_dims bond_dims : list Z)
    (wd : bool) (p : sublayers) (b : batch) (w w' : world) (enc : encoding)
    (nx nb : nat) (rx rb : list (list Z)) (vl va vd : vec) :
  store w !! x b = Some (LongT nx rx) ->
  store w !! bond_attr b = Some (LongT nb rb) ->
  store w !! bond_lengths b = Some (FloatT vl) ->
  store w !! bond_angles b = Some (FloatT va) ->
  store w !! dihedral_angles b = Some (FloatT vd) ->
  (forall k, rbf_shape (new_bond_angle_float_rbf p k)) ->
  (forall k, rbf_shape (new_dihedral_angle_float_rbf p k)) ->
  (forall k, block_shape (new_angle_dihedral_block p k)) ->
  forward (EGeoGNNModel_init n atom_dims bond_dims wd p) b w = (Ok enc, w') ->
  if wd then angle_repr enc = None /\ dihedral_repr enc = None
  else exists a d, angle_repr enc = Some a /\ dihedral_repr enc = Some d /\
                   length a = length va /\ length d = length vd.
Proof.
  intros Hx Hba Hbl Hang Hdih Hrbfa Hrbfd Hblk H. destruct wd.
  - apply forward_without_ok in H
      as (x' & ba' & bl' & ang' & dih' & w1 & node_hidden & bond_hidden
          & graph_idx & bond_batch & nl & el & _ & _ & _ & _ & _ & _ & Ha & Hd & _);
      [done | done].
  - apply forward_with_ok in H
      as (x' & ba' & bl' & ang' & dih' & w1 & node_hidden & bond_hidden
          & angle_hidden & vang & graph_idx & bond_batch & angle_batch & nl & el & al
          & a & d & Hmask & _ & _ & _ & _ & Hloop & _ & _ & Hlast & Ha & Hd & _);
      [|done].
    destruct (mask_attr_ok _ _ _ _ _ _ _ _ _ _ _ _ _ _ _ _ _ _ _ _ _ _ _ _
                Hx Hba Hbl Hang Hdih Hmask)
      as (rx' & rb' & vl' & va' & vd' & (_ & _ & _ & Ma & Md)
          & (_ & _ & _ & Sa & Sd) & _).
    apply masked_vector_spec in Ma as [La _]. apply masked_vector_spec in Md as [Ld _].
    eapply (loop_with_dihedral_shapes _ _ _ _ _ _ _ _ _ _ _ va' vd') in Hloop
      as (Hd' & a' & Hlast' & Ha'); try done.
    + exists a, d. rewrite Hlast in Hlast'. injection Hlast' as <-.
      repeat split; [done | done | congruence | congruence].
    + simpl. by apply init_list_Forall.
    + simpl. intros l [= <-]. by apply init_list_Forall.
    + simpl. intros l [= <-]. by apply init_list_Forall.
Qed.

Lemma demo_rbf_shape (k : Z) : rbf_shape (Demo.rbf k).
Proof. intros v out [= <-]. apply length_fmap. Qed.

Lemma demo_block_shape : block_shape Demo.message_block.
Proof.
  intros nh eh idx bt out. unfold Demo.message_block.
  case_decide as Hlen; [|done]. intros Hrun.
  apply result_bind_inv in Hrun as (sources & _ & Hrun).
  apply result_bind_inv in Hrun as (targets & _ & Hrun).
  injection Hrun as <-. apply scatter_add_length.
Qed.

Lemma forward_angle_dihedral_repr_witness :
  exists enc w',
    forward (Demo.encoder 1 false) (Demo.chain [3] None None None None)
      Demo.chain_world = (Ok enc, w') /\
    exists a d, angle_repr enc = Some a /\ dihedral_repr enc = Some d /\
                length a = 2%nat /\ length d = 1%nat.
Proof.
  destruct (forward (Demo.encoder 1 false) (Demo.chain [3] None None None None)
              Demo.chain_world) as [[enc|e] w'] eqn:H;
    [|vm_compute in H; discriminate H].
  exists enc, w'. split; [reflexivity|].
  refine (forward_angle_dihedral_repr 1 Demo.atom_dims Demo.bond_dims false
            Demo.layers (Demo.chain [3] None None None None) Demo.chain_world w' enc
            2 1 [[1; 0]; [2; 1]; [1; 1]; [3; 0]] [[0]; [1]; [0]]
            [Demo.of_Z 3; Demo.of_Z 2; Demo.of_Z 3] [Demo.of_Z 2; Demo.of_Z 2]
            [Demo.of_Z 1] _ _ _ _ _ _ _ _ H);
    try (vm_compute; reflexivity).
  - intros k. apply demo_rbf_shape.
  - intros k. apply demo_rbf_shape.
  - intros k. apply demo_block_shape.
Defined.

(** The same batch through the encoder without dihedral angles. *)
Lemma forward_without_dihedral_example :
  exists enc w',
    forward (Demo.encoder 1 true) (Demo.chain [3] None None None None)
      Demo.chain_world = (Ok enc, w') /\
    angle_repr enc = None /\ dihedral_repr enc = None /\
    length (node_repr enc) = 4%nat /\ length (edge_repr enc) = 3%nat /\
    length (graph_repr enc) = 1%nat.
Proof.
  destruct (forward (Demo.encoder 1 true) (Demo.chain [3] None None None None)
              Demo.chain_world) as [[enc|e] w'] eqn:H;
    [|vm_compute in H; discriminate H].
  vm_compute in H. injection H as <- <-. eexists _, _. by split.
Qed.

(** With no layer, the variant with dihedral angles reads the local
    [cur_dihedral_hidden] before any assignment. *)
Lemma forward_zero_layers_unbound :
  (forward (Demo.encoder 0 false) (Demo.chain [3] None None None None)
     Demo.chain_world).1 = Raise UnboundLocalError.
Proof. vm_compute. reflexivity. Qed.

(** ** Mean pooling *)

Lemma scatter_add_lookup {A} (add : A -> A -> A) (index : list nat) (src : list A)
    (g : nat) :
  forall out,
  scatter_add add out index src !! g
  = (fun o => foldl add o (selected g index src)) <$> out !! g.
Proof.
  unfold scatter_add, selected. generalize (zip index src). intros ps.
  induction ps as [|[i a] ps IH]; intros out; simpl.
  - by destruct (out !! g).
  - rewrite IH. rewrite filter_cons. simpl.
    destruct (decide (i = g)) as [->|Hne].
    + rewrite list_lookup_alter_eq. by destruct (out !! g).
    + by rewrite list_lookup_alter_ne.
Qed.

Lemma select_indices_ok (n : nat) (batch : indices) (index : list nat) :
  mapM (select_index n) batch = Ok index ->
  index = Z.to_nat <$> batch /\ Forall (fun i => 0 <= i < Z.of_nat n) batch.
Proof.
  revert index. induction batch as [|i batch IH]; intros index; simpl.
  - intros [= <-]. by split.
  - intros H. apply result_bind_inv in H as (r & Hr & H).
    apply result_bind_inv in H as (index' & Hm & H). injection H as <-.
    unfold select_index in Hr. destruct (decide (0 <= i < Z.of_nat n)) as [Hi|Hi].
    + injection Hr as <-. destruct (IH _ Hm) as [-> HF].
      split; [done|]. by constructor.
    + discriminate Hr.
Qed.

Lemma selected_group (x : tensor) (batch : indices) (g : Z) :
  0 <= g -> Forall (fun i => 0 <= i) batch ->
  selected (Z.to_nat g) (Z.to_nat <$> batch) x = group_rows x batch g.
Proof.
  intros Hg HF. unfold selected, group_rows. revert x.
  induction HF as [|i batch Hi HF IH]; intros x; [done|].
  destruct x as [|row x]; [done|]. simpl. rewrite !filter_cons. simpl.
  destruct (decide (i = g)) as [->|Hne].
  - rewrite decide_True by done. simpl. by rewrite IH.
  - rewrite decide_False by lia. apply IH.
Qed.

Lemma selected_length {A B} (g : nat) (index : list nat) (src : list A) (src' : list B) :
  length src = length index -> length src' = length index ->
  length (selected g index src) = length (selected g index src').
Proof.
  unfold selected. rewrite !length_fmap. revert src src'.
  induction index as [|i index IH]; intros src src' H H'; [done|].
  destruct src as [|a src]; [done|]. destruct src' as [|a' src']; [done|].
  simpl in H, H'. cbn [zip zip_with]. rewrite !filter_cons. cbn [fst].
  destruct (decide (i = g)); cbn [length]; rewrite (IH src src') by lia; done.
Qed.

Lemma selected_ones (g : nat) (index : list nat) (m : nat) :
  Forall (fun c => c = 1%Qc) (selected g index (replicate m 1%Qc)).
Proof.
  unfold selected. apply Forall_fmap, Forall_forall. intros [i c] Hin.
  apply list_elem_of_filter in Hin as [_ Hin]. apply elem_of_zip_r in Hin.
  simpl in *. by apply elem_of_replicate in Hin as [-> _].
Qed.

Lemma foldl_ones (cs : list Qc) (a : Qc) :
  Forall (fun c => c = 1%Qc) cs ->
  foldl Qcplus a cs = (a + Qc_of_Z (Z.of_nat (length cs)))%Qc.
Proof.
  intros H. revert a. induction H as [|c cs -> H IH]; intros a; cbn [foldl length].
  - change (Z.of_nat 0) with 0. by rewrite Z2Qc_inj_0, Qcplus_0_r.
  - rewrite IH. rewrite Nat2Z.inj_succ, <- Z.add_1_l, Z2Qc_inj_add, Z2Qc_inj_1.
    by rewrite Qcplus_assoc.
Qed.

Lemma clamp_min1_count (m : nat) :
  (0 < m)%nat -> clamp_min1 (Qc_of_Z (Z.of_nat m)) = Qc_of_Z (Z.of_nat m).
Proof.
  intros Hm. unfold clamp_min1. case_decide as Hlt; [|done].
  rewrite <- Z2Qc_inj_1 in Hlt. apply Z2Qc_inj_lt in Hlt. lia.
Qed.

(** Vector addition is associative and commutative, so the accumulation of
    [scatter_add_] is the sum of the group. *)
Lemma zip_with_Qcplus_assoc (a b c : list Qc) :
  zip_with Qcplus (zip_with Qcplus a b) c = zip_with Qcplus a (zip_with Qcplus b c).
Proof.
  revert b c. induction a as [|u a IH]; intros [|v b] [|t c]; simpl; try done.
  by rewrite IH, Qcplus_assoc.
Qed.

Lemma foldl_sum_rows (rows : tensor) :
  forall acc : list Qc,
  rectangular (length acc) rows ->
  foldl (zip_with Qcplus) acc rows
  = zip_with Qcplus acc (foldr (zip_with Qcplus) (replicate (length acc) 0%Qc) rows).
Proof.
  induction rows as [|row rows IH]; intros acc Hrect; simpl.
  - clear Hrect. induction acc as [|u acc IHacc]; simpl; [done|].
    by rewrite <- IHacc, Qcplus_0_r.
  - apply Forall_cons in Hrect as [Hrow Hrect].
    assert (Hlen : length (zip_with Qcplus acc row) = length acc).
    { rewrite length_zip_with. lia. }
    rewrite IH by by rewrite Hlen.
    rewrite Hlen. by rewrite zip_with_Qcplus_assoc.
Qed.

Lemma zip_with_zero_l (D : nat) (v : list Qc) :
  length v = D -> zip_with Qcplus (replicate D 0%Qc) v = v.
Proof.
  intros <-. induction v as [|u v IH]; simpl; [done|].
  by rewrite IH, Qcplus_0_l.
Qed.

Lemma sum_rows_length (D : nat) (rows : tensor) :
  rectangular D rows -> length (sum_rows D rows) = D.
Proof.
  unfold sum_rows. induction 1 as [|row rows Hrow _ IH]; simpl.
  - apply length_replicate.
  - rewrite length_zip_with. lia.
Qed.

Lemma group_rows_rectangular (D : nat) (x : tensor) (batch : indices) (g : Z) :
  rectangular D x -> rectangular D (group_rows x batch g).
Proof.
  intros H. unfold group_rows. apply Forall_fmap, Forall_forall. intros [i row] Hin.
  apply list_elem_of_filter in Hin as [_ Hin]. apply elem_of_zip_r in Hin.
  unfold rectangular in H. rewrite Forall_forall in H. by apply H.
Qed.

(** What a returning [global_mean_pool] has computed. *)
Lemma expand_index_ok (index : list nat) (n : nat) (index' : list nat) :
  expand_index index n = Ok index' ->
  length index' = n /\
  (forall g, g ∈ index' -> g ∈ index) /\
  (length index = n -> index' = index) /\
  (forall i, index = [i] -> index' = replicate n i).
Proof.
  unfold expand_index. case_decide as Hlen.
  - intros [= <-]. repeat split; try done.
    intros i ->. simpl in Hlen. by subst n.
  - destruct index as [|i [|j index]]; try done. intros [= <-].
    split; [apply length_replicate|]. split; [|split; [done|]].
    + intros g Hg. apply elem_of_replicate in Hg as [-> _]. left.
    + by intros i' [= <-].
Qed.

Lemma global_mean_pool_inv (x : tensor) (batch : indices) (size : Z) (out : tensor) :
  global_mean_pool x batch size = Ok out ->
  0 <= size /\ (length batch <= length x)%nat /\
  Forall (fun i => 0 <= i < size) batch /\
  exists index,
    expand_index (Z.to_nat <$> batch) (length x) = Ok index /\
    out = zip_with (fun row c => (fun v => v / c)%Qc <$> row)
            (scatter_add (zip_with Qcplus)
               (replicate (Z.to_nat size) (replicate (width x) 0%Qc)) index x)
            (clamp_min1 <$>
               scatter_add Qcplus (replicate (Z.to_nat size) 0%Qc)
                 (Z.to_nat <$> batch) (replicate (length x) 1%Qc)).
Proof.
  unfold global_mean_pool. intros H.
  destruct (decide (size < 0)) as [|Hsize]; [done|].
  destruct (decide (length batch <= length x)%nat) as [Hle|]; [|done].
  destruct (mapM (select_index (Z.to_nat size)) batch) as [index|e] eqn:Hindex;
    [|done].
  cbv zeta in H. apply result_bind_inv in H as (index' & Hexp & H).
  injection H as <-.
  apply select_indices_ok in Hindex as [-> Hrange].
  split; [lia|]. split; [done|]. split.
  { eapply Forall_impl; [exact Hrange|]. simpl. intros i Hi. lia. }
  by exists index'.
Qed.

Lemma global_mean_pool_length (x : tensor) (batch : indices) (size : Z) (out : tensor) :
  global_mean_pool x batch size = Ok out -> Z.of_nat (length out) = size.
Proof.
  intros H. apply global_mean_pool_inv in H as (Hsize & _ & _ & index & _ & ->).
  rewrite length_zip_with, length_fmap, !scatter_add_length, !length_replicate. lia.
Qed.

(** [global_mean_pool] against the wording of the specification: one row per
    graph; and with one batch entry per row of [x], the row of a graph that
    has nodes is the arithmetic mean of the rows of its nodes. *)
Lemma global_mean_pool_spec (x : tensor) (batch : indices) (size : Z)
    (out : tensor) (D : nat) :
  global_mean_pool x batch size = Ok out ->
  rectangular D x ->
  length batch = length x ->
  forall g, 0 <= g < size -> group_rows x batch g <> [] ->
    out !! Z.to_nat g = Some (mean_rows D (group_rows x batch g)).
Proof.
  intros H Hrect Hlen.
  apply global_mean_pool_inv in H as (Hsize & _ & Hrange & index & Hexp & ->).
  apply expand_index_ok in Hexp as (_ & _ & Hsame & _).
  rewrite Hsame by (by rewrite length_fmap). clear Hsame index.
  intros g Hg Hgroup.
  assert (Hgn : (Z.to_nat g < Z.to_nat size)%nat) by lia.
  assert (Hnonneg : Forall (fun i => 0 <= i) batch).
  { eapply Forall_impl; [exact Hrange|]. simpl. intros i Hi. lia. }
  rewrite lookup_zip_with, list_lookup_fmap, !scatter_add_lookup.
  rewrite !lookup_replicate_2 by done. simpl. f_equal.
  rewrite (selected_group x batch g) by (done || lia).
  set (rows := group_rows x batch g) in *.
  assert (Hrows : rectangular D rows) by by apply group_rows_rectangular.
  assert (HD : width x = D).
  { destruct x as [|row x'].
    - exfalso. apply Hgroup. unfold rows, group_rows. by rewrite zip_with_nil_r.
    - simpl. by apply Forall_cons in Hrect as [-> _]. }
  rewrite HD.
  assert (Hcount : length (selected (Z.to_nat g) (Z.to_nat <$> batch)
                             (replicate (length x) 1%Qc)) = length rows).
  { unfold rows. rewrite <- (selected_group x batch g) by (done || lia).
    apply selected_length; rewrite ?length_replicate, ?length_fmap; lia. }
  rewrite (foldl_ones _ _ (selected_ones _ _ _)), Hcount, Qcplus_0_l.
  rewrite clamp_min1_count by (destruct rows; [done | simpl; lia]).
  unfold mean_rows. f_equal.
  rewrite foldl_sum_rows by by rewrite length_replicate.
  rewrite length_replicate. fold (sum_rows D rows).
  apply zip_with_zero_l. by apply sum_rows_length.
Qed.

Lemma forward_graph_repr (self : EGeoGNNModel) (b : batch) (w w' : world)
    (enc : encoding) :
  forward self b w = (Ok enc, w') ->
  global_mean_pool (node_repr enc) (atom_batch b) (num_graphs b) = Ok (graph_repr enc).
Proof.
  intros H. destruct (without_dihedral self) eqn:Hwd.
  - apply forward_without_ok in H; [|done].
    destruct H as (? & ? & ? & ? & ? & ? & ? & ? & ? & ? & ? & ? & H).
    apply H.
  - apply forward_with_ok in H; [|done].
    destruct H as (? & ? & ? & ? & ? & ? & ? & ? & ? & ? & ? & ? & ? & ? & ? & ?
                   & ? & ? & H).
    apply H.
Qed.

(** C9. In a returning forward pass graph_repr has num_graphs rows.  When
    atom_batch has one entry per row of node_repr, and these rows have a
    common width, the row of each graph g that has atoms is the arithmetic
    mean of the rows of node_repr whose atom_batch entry is g. *)
Theorem graph_repr_is_mean_of_nodes (self : EGeoGNNModel) (b : batch)
    (w w' : world) (enc : encoding) (D : nat) :
  forward self b w = (Ok enc, w') ->
  rectangular D (node_repr enc) ->
  length (atom_batch b) = length (node_repr enc) ->
  Z.of_nat (length (graph_repr enc)) = num_graphs b /\
  forall g, 0 <= g < num_graphs b ->
    group_rows (node_repr enc) (atom_batch b) g <> [] ->
    graph_repr enc !! Z.to_nat g
    = Some (mean_rows D (group_rows (node_repr enc) (atom_batch b) g)).
Proof.
  intros H Hrect Hlen. apply forward_graph_repr in H. split.
  - by apply global_mean_pool_length in H.
  - by apply (global_mean_pool_spec _ _ _ _ D H).
Qed.

Lemma graph_repr_is_mean_of_nodes_witness :
  exists enc w',
    forward (Demo.encoder 1 false) Demo.pair Demo.pair_world = (Ok enc, w') /\
    length (graph_repr enc) = 2%nat /\
    graph_repr enc !! 0%nat
    = Some (mean_rows 2 (group_rows (node_repr enc) [0; 0; 0; 1; 1; 1; 1; 1] 0)) /\
    graph_repr enc !! 1%nat
    = Some (mean_rows 2 (group_rows (node_repr enc) [0; 0; 0; 1; 1; 1; 1; 1] 1)).
Proof.
  destruct (forward (Demo.encoder 1 false) Demo.pair Demo.pair_world)
    as [[enc|e] w'] eqn:H; [|vm_compute in H; discriminate H].
  exists enc, w'. split; [reflexivity|].
  assert (Hrect : rectangular 2 (node_repr enc)).
  { pose proof H as H'. vm_compute in H'. injection H' as <- _.
    repeat constructor. }
  assert (Hrows : length (atom_batch Demo.pair) = length (node_repr enc)).
  { pose proof H as H'. vm_compute in H'. injection H' as <- _. reflexivity. }
  assert (Hgroups : forall g, 0 <= g < 2 ->
            group_rows (node_repr enc) [0; 0; 0; 1; 1; 1; 1; 1] g <> []).
  { pose proof H as H'. vm_compute in H'. injection H' as <- _.
    intros g Hg. assert (g = 0 \/ g = 1) as [->| ->] by lia; vm_compute; discriminate. }
  destruct (graph_repr_is_mean_of_nodes (Demo.encoder 1 false) Demo.pair
              Demo.pair_world w' enc 2 H Hrect Hrows) as [Hlen Hmean].
  split; [simpl in Hlen; lia|].
  split; [apply (Hmean 0) | apply (Hmean 1)]; (simpl; lia) || (apply Hgroups; lia).
Defined.

(** ** No check of the batch counts *)

(** Computations that do not tell apart two states with the same tensor
    objects. *)
Lemma same_state_refl (w : world) : same_state w w.
Proof.
  split; [done|]. apply Forall_Forall2_diag, Forall_forall. by intros c _.
Qed.

Lemma same_outcome_run {A} (m1 m2 : M A) (w : world) :
  same_outcome m1 m2 -> (m1 w).1 = (m2 w).1 /\ same_state (m1 w).2 (m2 w).2.
Proof. intros H. apply H, same_state_refl. Qed.

Lemma same_outcome_bind {A B} (Q : A -> Prop) (m1 m2 : M A) (f1 f2 : A -> M B) :
  same_outcome m1 m2 ->
  (forall w a, (m1 w).1 = Ok a -> Q a) ->
  (forall a, Q a -> same_outcome (f1 a) (f2 a)) ->
  same_outcome (m1 ≫= f1) (m2 ≫= f2).
Proof.
  intros Hm HQ Hf w1 w2 Hs. rewrite !bind_run.
  destruct (Hm w1 w2 Hs) as [Hr Hst]. specialize (HQ w1).
  destruct (m1 w1) as [[a|e] w1'], (m2 w2) as [[a'|e'] w2']; simpl in *;
    try discriminate Hr.
  - injection Hr as <-. apply Hf; [by apply HQ | done].
  - injection Hr as <-. by split.
Qed.

Lemma same_outcome_seq {A B} (m1 m2 : M A) (f1 f2 : A -> M B) :
  same_outcome m1 m2 -> (forall a, same_outcome (f1 a) (f2 a)) ->
  same_outcome (m1 ≫= f1) (m2 ≫= f2).
Proof. intros Hm Hf. apply (same_outcome_bind (fun _ => True)); done. Qed.

Lemma same_outcome_ret {A} (a : A) : same_outcome (mret a) (mret a).
Proof. by intros w1 w2 Hs. Qed.

Lemma same_outcome_throw {A} (e : exn) : same_outcome (@throw A e) (throw e).
Proof. by intros w1 w2 Hs. Qed.

Lemma same_outcome_lift {A} (r : result A) : same_outcome (lift r) (lift r).
Proof. by intros w1 w2 Hs. Qed.

Lemma same_outcome_apply_layer (f : layer1) (l : loc) :
  same_outcome (apply_layer f l) (apply_layer f l).
Proof.
  unfold apply_layer. apply same_outcome_seq; [|intros v; apply same_outcome_lift].
  intros w1 w2 Hs. unfold read. rewrite (proj1 Hs). by destruct (store w2 !! l).
Qed.

Lemma same_outcome_module_at {A} (P : A -> Prop) (ms : list A) (i : nat) {B}
    (f1 f2 : A -> M B) :
  Forall P ms -> (forall a, P a -> same_outcome (f1 a) (f2 a)) ->
  same_outcome (module_at ms i ≫= f1) (module_at ms i ≫= f2).
Proof.
  intros HP Hf. apply (same_outcome_bind P); [apply same_outcome_lift | | done].
  intros w a Ha. simpl in Ha. apply list_get_ok in Ha.
  rewrite Forall_lookup in HP. by apply (HP i).
Qed.

Lemma same_outcome_attribute {A} (o : option A) {B} (f1 f2 : A -> M B) :
  (forall a, o = Some a -> same_outcome (f1 a) (f2 a)) ->
  same_outcome (attribute o ≫= f1) (attribute o ≫= f2).
Proof.
  intros Hf. apply (same_outcome_bind (fun a => o = Some a)); [| | done].
  - destruct o; [apply same_outcome_ret | apply same_outcome_throw].
  - intros w a. by destruct o; intros [= <-].
Qed.

Lemma same_outcome_list_last {A} (l : list A) : same_outcome (list_last l) (list_last l).
Proof. unfold list_last. destruct (last l); [apply same_outcome_ret | apply same_outcome_throw]. Qed.

(** The call of a block that makes no use of [node_batches] has the same
    outcome whatever the batch vector it is handed. *)
Lemma same_outcome_call_block (b : block_id) (l : nat) (blk : block)
    (nh eh : tensor) (ei : edges) (nb nb' : indices) :
  blk nh eh ei nb' = blk nh eh ei nb ->
  same_outcome (call_block b l blk nh eh ei nb') (call_block b l blk nh eh ei nb).
Proof.
  intros Hblk w1 w2 [Hst Hcalls]. unfold call_block. rewrite !bind_run. simpl.
  rewrite Hblk. split; [done|]. split; [done|]. simpl.
  apply Forall2_app; [done|]. by repeat constructor.
Qed.

Lemma same_outcome_refresh_bond (self : EGeoGNNModel) (l : nat) (ba bl : loc) :
  same_outcome (refresh_bond self l ba bl) (refresh_bond self l ba bl).
Proof.
  unfold refresh_bond.
  apply same_outcome_seq; [apply same_outcome_lift|]. intros emb.
  apply same_outcome_seq; [apply same_outcome_apply_layer|]. intros e.
  apply same_outcome_seq; [apply same_outcome_lift|]. intros rbf.
  apply same_outcome_seq; [apply same_outcome_apply_layer|]. intros r.
  apply same_outcome_lift.
Qed.

Lemma same_outcome_for_layers {S} (body1 body2 : S -> nat -> M S) (ids : list nat) :
  (forall st i, same_outcome (body1 st i) (body2 st i)) ->
  forall st, same_outcome (for_layers body1 ids st) (for_layers body2 ids st).
Proof.
  intros Hbody. induction ids as [|i ids IH]; intros st; simpl.
  - apply same_outcome_ret.
  - apply same_outcome_seq; [apply Hbody | apply IH].
Qed.

Lemma same_outcome_layer_without_dihedral (self : EGeoGNNModel) (b : batch)
    (nbs nas : indices) (ba bl ang : loc) (bb bb' : indices)
    (st : list tensor * list tensor) (l : nat) :
  Forall ignores_node_batches (bond_angle_block_list self) ->
  same_outcome
    (layer_without_dihedral self (with_counts b nbs nas) ba bl ang bb' st l)
    (layer_without_dihedral self b ba bl ang bb st l).
Proof.
  intros Hba. destruct st as [nl el]. unfold layer_without_dihedral.
  apply same_outcome_seq; [apply same_outcome_lift|]. intros blk1.
  apply same_outcome_seq; [apply same_outcome_lift|]. intros nh.
  apply same_outcome_seq; [apply same_outcome_lift|]. intros eh.
  apply same_outcome_seq; [by apply same_outcome_call_block|]. intros node_hidden.
  apply same_outcome_seq; [apply same_outcome_refresh_bond|]. intros cur_edge.
  apply same_outcome_seq; [apply same_outcome_lift|]. intros rbf.
  apply same_outcome_seq; [apply same_outcome_apply_layer|]. intros cur_angle.
  apply (same_outcome_module_at ignores_node_batches); [done|]. intros blk2 Hblk2.
  apply same_outcome_seq; [apply same_outcome_call_block, Hblk2|]. intros edge_hidden.
  apply same_outcome_ret.
Qed.

Lemma same_outcome_layer_with_dihedral (self : EGeoGNNModel) (b : batch)
    (nbs nas : indices) (ba bl ang dih : loc) (bb bb' ab ab' : indices)
    (st : list tensor * list tensor * list tensor * option tensor) (l : nat) :
  Forall ignores_node_batches (bond_angle_block_list self) ->
  (forall blks, angle_dihedral_block_list self = Some blks ->
     Forall ignores_node_batches blks) ->
  same_outcome
    (layer_with_dihedral self (with_counts b nbs nas) ba bl ang dih bb' ab' st l)
    (layer_with_dihedral self b ba bl ang dih bb ab st l).
Proof.
  intros Hba Had. destruct st as [[[nl el] al] cd]. unfold layer_with_dihedral.
  apply same_outcome_seq; [apply same_outcome_lift|]. intros blk1.
  apply same_outcome_seq; [apply same_outcome_lift|]. intros nh.
  apply same_outcome_seq; [apply same_outcome_lift|]. intros eh.
  apply same_outcome_seq; [by apply same_outcome_call_block|]. intros node_hidden.
  apply same_outcome_seq; [apply same_outcome_refresh_bond|]. intros cur_edge.
  apply (same_outcome_module_at ignores_node_batches); [done|]. intros blk2 Hblk2.
  apply same_outcome_seq; [apply same_outcome_lift|]. intros ah.
  apply same_outcome_seq; [apply same_outcome_call_block, Hblk2|]. intros edge_hidden.
  apply same_outcome_seq; [apply same_outcome_lift|]. intros rbf.
  apply same_outcome_seq; [apply same_outcome_apply_layer|]. intros cur_angle.
  apply same_outcome_seq.
  { destruct (dihedral_angle_float_rbf_list self);
      [apply same_outcome_ret | apply same_outcome_throw]. }
  intros rbfs.
  apply same_outcome_seq; [apply same_outcome_lift|]. intros rbfd.
  apply same_outcome_seq; [apply same_outcome_apply_layer|]. intros cur_dihedral.
  apply same_outcome_attribute. intros blks Hblks.
  apply (same_outcome_module_at ignores_node_batches); [by apply Had|].
  intros blk3 Hblk3.
  apply same_outcome_seq; [apply same_outcome_call_block, Hblk3|]. intros angle_hidden.
  apply same_outcome_ret.
Qed.

(** Counts that satisfy [counts_per_graph] are repeat counts for the graph
    indices. *)
Lemma repeat_interleave_returns (n : Z) (graph_idx counts : indices) :
  arange n = Ok graph_idx -> counts_per_graph n counts ->
  exists batch, repeat_interleave graph_idx counts = Ok batch.
Proof.
  unfold arange. case_decide as Hn; [|done]. intros [= <-] [Hlen Hpos].
  assert (Hidx : length (Z.of_nat <$> seq 0 (Z.to_nat n)) = Z.to_nat n).
  { by rewrite length_fmap, length_seq. }
  assert (Hcounts : 0 < n \/ Z.to_nat n = 0%nat) by lia.
  unfold repeat_interleave. rewrite Hidx.
  destruct counts as [|r [|r' counts]].
  - destruct Hlen as [Hlen|Hlen]; [done|]. simpl in Hlen.
    rewrite decide_True by done. rewrite result_bind_ok.
    rewrite decide_True by constructor. by eexists.
  - rewrite result_bind_ok. rewrite decide_True; [by eexists|].
    destruct Hcounts as [Hcounts| ->]; [|constructor].
    apply Forall_replicate. specialize (Hpos Hcounts). by inversion Hpos.
  - destruct Hlen as [Hlen|Hlen]; [done|].
    rewrite decide_True by done. rewrite result_bind_ok.
    rewrite decide_True; [by eexists|].
    destruct Hcounts as [Hcounts|Hcounts]; [by apply Hpos|].
    simpl in Hlen. lia.
Qed.

Lemma bind_lift_returns {A B} (r : result A) (a : A) (f : A -> M B) (w : world) :
  r = Ok a -> (lift r ≫= f) w = f a w.
Proof. by intros ->. Qed.

Lemma bind_outcome_ext {A B} (m : M A) (f1 f2 : A -> M B) (w : world) :
  (forall a w', m w = (Ok a, w') ->
     (f1 a w').1 = (f2 a w').1 /\ same_state (f1 a w').2 (f2 a w').2) ->
  ((m ≫= f1) w).1 = ((m ≫= f2) w).1 /\
  same_state ((m ≫= f1) w).2 ((m ≫= f2) w).2.
Proof.
  intros H. rewrite !bind_run. destruct (m w) as [[a|e] w']; [by apply H|].
  split; [done | apply same_state_refl].
Qed.

(** C1, as the code has it.  The forward pass compares neither
    sum(num_bonds) nor sum(num_angles) with a number of rows: the two count
    tensors are only the repeat counts of [repeat_interleave], and the batch
    vectors so derived only go to the bond-angle and angle-dihedral blocks,
    as their node_batches.  So for blocks that make no use of node_batches
    a pass is the same for any count tensors that are repeat counts (one
    count or one per graph, none negative), whatever their sums: the same
    outcome (the tuple it returns or the exception it raises), the same
    tensor objects afterwards, and the same blocks called in the same order
    with the same hidden states, up to the batch vectors handed to them. *)
Theorem forward_has_no_consistency_check (self : EGeoGNNModel) (b : batch)
    (w : world) (counts_of_bonds counts_of_angles : indices) :
  Forall ignores_node_batches (bond_angle_block_list self) ->
  (forall blks, angle_dihedral_block_list self = Some blks ->
     Forall ignores_node_batches blks) ->
  counts_per_graph (num_graphs b) (num_bonds b) ->
  counts_per_graph (num_graphs b) counts_of_bonds ->
  (without_dihedral self = false ->
   counts_per_graph (num_graphs b) (num_angles b) /\
   counts_per_graph (num_graphs b) counts_of_angles) ->
  (forward self (with_counts b counts_of_bonds counts_of_angles) w).1
  = (forward self b w).1 /\
  same_state (forward self (with_counts b counts_of_bonds counts_of_angles) w).2
    (forward self b w).2.
Proof.
  intros Hba Had Hnb Hnb' Hna. unfold forward.
  apply bind_outcome_ext. intros [[[[x' ba'] bl'] ang'] dih'] w1 _.
  apply bind_outcome_ext. intros node_hidden w2 _.
  apply bind_outcome_ext. intros bond_embed w3 _.
  apply bind_outcome_ext. intros r w4 _.
  apply bind_outcome_ext. intros bond_hidden w5 _.
  destruct (without_dihedral self) eqn:Hwd.
  - apply bind_outcome_ext. intros graph_idx w6 Hidx.
    apply lift_ok in Hidx as [Hidx _].
    destruct (repeat_interleave_returns _ _ _ Hidx Hnb) as [bb Hbb].
    destruct (repeat_interleave_returns _ _ _ Hidx Hnb') as [bb' Hbb'].
    change (num_bonds (with_counts b counts_of_bonds counts_of_angles))
      with counts_of_bonds.
    rewrite (bind_lift_returns _ _ _ _ Hbb), (bind_lift_returns _ _ _ _ Hbb').
    apply same_outcome_run.
    apply same_outcome_seq.
    { apply same_outcome_for_layers. intros st i.
      by apply same_outcome_layer_without_dihedral. }
    intros [nl el].
    apply same_outcome_seq; [apply same_outcome_list_last|]. intros node_repr.
    apply same_outcome_seq; [apply same_outcome_list_last|]. intros edge_repr.
    apply same_outcome_seq; [apply same_outcome_lift|]. intros graph_repr.
    apply same_outcome_ret.
  - destruct (Hna eq_refl) as [Hang Hang'].
    apply bind_outcome_ext. intros angle_hidden w6 _.
    apply bind_outcome_ext. intros graph_idx w7 Hidx.
    apply lift_ok in Hidx as [Hidx _].
    destruct (repeat_interleave_returns _ _ _ Hidx Hnb) as [bb Hbb].
    destruct (repeat_interleave_returns _ _ _ Hidx Hnb') as [bb' Hbb'].
    destruct (repeat_interleave_returns _ _ _ Hidx Hang) as [ab Hab].
    destruct (repeat_interleave_returns _ _ _ Hidx Hang') as [ab' Hab'].
    change (num_bonds (with_counts b counts_of_bonds counts_of_angles))
      with counts_of_bonds.
    change (num_angles (with_counts b counts_of_bonds counts_of_angles))
      with counts_of_angles.
    rewrite (bind_lift_returns _ _ _ _ Hbb), (bind_lift_returns _ _ _ _ Hbb').
    rewrite (bind_lift_returns _ _ _ _ Hab), (bind_lift_returns _ _ _ _ Hab').
    apply same_outcome_run.
    apply same_outcome_seq.
    { apply same_outcome_for_layers. intros st i.
      by apply same_outcome_layer_with_dihedral. }
    intros [[[nl el] al] cd].
    apply same_outcome_seq; [apply same_outcome_list_last|]. intros node_repr.
    apply same_outcome_seq; [apply same_outcome_list_last|]. intros edge_repr.
    apply same_outcome_seq; [apply same_outcome_list_last|]. intros angle_repr.
    apply same_outcome_seq.
    { destruct cd; [apply same_outcome_ret | apply same_outcome_throw]. }
    intros dihedral_repr.
    apply same_outcome_seq; [apply same_outcome_lift|]. intros graph_repr.
    apply same_outcome_ret.
Qed.

Lemma demo_block_ignores_node_batches : ignores_node_batches Demo.message_block.
Proof. by intros nh eh ei nb nb'. Qed.

Lemma forward_has_no_consistency_check_witness :
  foldr Z.add 0 [7] <> 3 /\ foldr Z.add 0 [5] <> 2 /\
  exists enc,
    (forward (Demo.encoder 1 false)
       (with_counts (Demo.chain [3] None None None None) [7] [5])
       Demo.chain_world).1 = Ok enc /\
    (forward (Demo.encoder 1 false) (Demo.chain [3] None None None None)
       Demo.chain_world).1 = Ok enc.
Proof.
  split; [done|]. split; [done|].
  destruct (forward_has_no_consistency_check (Demo.encoder 1 false)
              (Demo.chain [3] None None None None) Demo.chain_world [7] [5])
    as [Heq _].
  - apply Forall_cons. split; [apply demo_block_ignores_node_batches | constructor].
  - intros blks [= <-]. apply Forall_cons.
    split; [apply demo_block_ignores_node_batches | constructor].
  - split; [by left | intros _; repeat constructor; lia].
  - split; [by left | intros _; repeat constructor; lia].
  - intros _. split; (split; [by left | intros _; repeat constructor; lia]).
  - destruct (forward (Demo.encoder 1 false) (Demo.chain [3] None None None None)
                Demo.chain_world).1 as [enc|e] eqn:H;
      [|vm_compute in H; discriminate H].
    by exists enc.
Defined.

(** C1, counterexample.  On the chain of three bonds with num_bonds = [7],
    the forward pass returns: the bond-angle block of layer 0 receives three
    rows of bond hidden states with a batch vector of length seven, and
    edge_repr has three rows. *)
Lemma forward_accepts_inconsistent_counts :
  foldr Z.add 0 [7] <> 3 /\
  exists enc w' c,
    forward (Demo.encoder 1 false) (Demo.chain [7] None None None None)
      Demo.chain_world = (Ok enc, w') /\
    calls w' !! 1%nat = Some c /\ callee c = BondAngleBlock /\
    length (node_hidden_arg c) = 3%nat /\
    length (node_batches_arg c) = 7%nat /\
    length (edge_repr enc) = 3%nat.
Proof.
  split; [done|].
  destruct (forward (Demo.encoder 1 false) (Demo.chain [7] None None None None)
              Demo.chain_world) as [[enc|e] w'] eqn:H;
    [|vm_compute in H; discriminate H].
  vm_compute in H. injection H as <- <-.
  eexists _, _, _. split; [reflexivity|]. split; [reflexivity|]. done.
Qed.

(** * The forward pass as a function of the contents of the batch *)

(** ** The forward pass as a recurrence *)

Lemma last_of_length {A} (l : list A) (k : nat) (a : A) :
  length l = S k -> l !! k = Some a -> last l = Some a.
Proof. intros Hlen H. rewrite last_lookup, Hlen. exact H. Qed.

(** A returning loop of the variant with dihedral angles: the last hidden
    states are the states of the recurrence after [n] layers, the local
    [cur_dihedral_hidden] is the dihedral embedding of the last layer, and
    the calls are those of the layers 0 to n - 1, in this order. *)
Lemma loop_with_dihedral_states (self : EGeoGNNModel) (b : batch)
    (ba bl ang dih : loc) (vba vbl vang vdih : tval)
    (bond_batch angle_batch : indices) (n : nat) (n0 e0 a0 : tensor)
    (nl el al : list tensor) (cd : option tensor) (w w' : world) :
  store w !! ba = Some vba -> store w !! bl = Some vbl ->
  store w !! ang = Some vang -> store w !! dih = Some vdih ->
  for_layers (layer_with_dihedral self b ba bl ang dih bond_batch angle_batch)
    (seq 0 n) ([n0], [e0], [a0], None) w = (Ok (nl, el, al, cd), w') ->
  store w' = store w /\
  exists h css,
    hidden_with_dihedral self b vba vbl vang vdih bond_batch angle_batch
      (n0, e0, a0) n = Ok h /\
    (last nl = Some h.1.1 /\ last el = Some h.1.2 /\ last al = Some h.2) /\
    cd = match n with
         | O => None
         | S l => match dihedral_refresh self l vdih with
                  | Ok d => Some d
                  | Raise _ => None
                  end
         end /\
    (forall l, n = S l -> exists d, dihedral_refresh self l vdih = Ok d) /\
    calls w' = calls w ++ concat css /\
    length css = n /\
    (forall l cs, css !! l = Some cs ->
       exists hl, hidden_with_dihedral self b vba vbl vang vdih bond_batch
                    angle_batch (n0, e0, a0) l = Ok hl /\
                  calls_with_dihedral self b vba vbl vang vdih bond_batch
                    angle_batch hl l = Ok cs).
Proof.
  intros Hba Hbl Hang Hdih Hloop.
  set (Inv := fun (k : nat)
                  (st : list tensor * list tensor * list tensor * option tensor)
                  (wk : world) =>
    store wk = store w /\
    (length st.1.1.1 = S k /\ length st.1.1.2 = S k /\ length st.1.2 = S k) /\
    exists h css,
      hidden_with_dihedral self b vba vbl vang vdih bond_batch angle_batch
        (n0, e0, a0) k = Ok h /\
      (last st.1.1.1 = Some h.1.1 /\ last st.1.1.2 = Some h.1.2
       /\ last st.1.2 = Some h.2) /\
      st.2 = match k with
             | O => None
             | S l => match dihedral_refresh self l vdih with
                      | Ok d => Some d
                      | Raise _ => None
                      end
             end /\
      (forall l, k = S l -> exists d, dihedral_refresh self l vdih = Ok d) /\
      calls wk = calls w ++ concat css /\
      length css = k /\
      (forall l cs, css !! l = Some cs ->
         exists hl, hidden_with_dihedral self b vba vbl vang vdih bond_batch
                      angle_batch (n0, e0, a0) l = Ok hl /\
                    calls_with_dihedral self b vba vbl vang vdih bond_batch
                      angle_batch hl l = Ok cs)).
  assert (Hstep : forall k s wk s' wk', (k < n)%nat -> Inv k s wk ->
    layer_with_dihedral self b ba bl ang dih bond_batch angle_batch s k wk
    = (Ok s', wk') -> Inv (S k) s' wk').
  { intros k [[[nl0 el0] al0] cd0] wk s' wk' Hk
      (Hst & (Ln & Le & La) & h & css & Hh & (Hn & He & Ha) & Hcd & _ & Hc & Hlen & Hcss)
      Hrun.
    simpl in Ln, Le, La, Hn, He, Ha, Hcd.
    apply layer_with_dihedral_ok in Hrun
      as (nh & eh & ah & vba' & vbl' & vang' & vdih' & node_hidden & cur_edge
          & edge_hidden & cur_angle & cur_dihedral & angle_hidden & blks
          & Hst' & (Hnh & Heh & Hah) & (Hba' & Hbl' & Hang' & Hdih') & O1 & Hre
          & O2 & Hra & Hrd & Hblks & O3 & Hc' & ->).
    rewrite Hst in Hst', Hba', Hbl', Hang', Hdih'.
    assert (vba' = vba) as -> by congruence.
    assert (vbl' = vbl) as -> by congruence.
    assert (vang' = vang) as -> by congruence.
    assert (vdih' = vdih) as -> by congruence.
    rewrite (last_of_length _ _ _ Ln Hnh) in Hn.
    rewrite (last_of_length _ _ _ Le Heh) in He.
    rewrite (last_of_length _ _ _ La Hah) in Ha.
    injection Hn as ->. injection He as ->. injection Ha as ->.
    split; [done|]. simpl.
    split; [by rewrite !length_app; simpl; lia|].
    exists (node_hidden, edge_hidden, angle_hidden),
      (css ++ [[Call AtomBondBlock k h.1.1 h.1.2 (AtomBondGraph_edges b) (atom_batch b);
                Call BondAngleBlock k cur_edge h.2 (BondAngleGraph_edges b) bond_batch;
                Call AngleDihedralBlock k cur_angle cur_dihedral
                  (AngleDihedralGraph_edges b) angle_batch]]).
    split.
    { cbn [hidden_with_dihedral]. rewrite Hh, result_bind_ok, O1, result_bind_ok.
      rewrite Hre, result_bind_ok, O2, result_bind_ok, Hra, result_bind_ok.
      rewrite Hrd, result_bind_ok, Hblks. cbn [module_list].
      by rewrite result_bind_ok, O3. }
    split; [by rewrite !last_snoc|].
    split; [by rewrite Hrd|].
    split; [intros l [= <-]; by exists cur_dihedral|].
    split.
    { rewrite Hc', Hc, concat_app. simpl. by rewrite <- app_assoc. }
    split; [rewrite length_app; simpl; lia|].
    intros l cs Hl. apply lookup_app_Some in Hl as [Hl|[Hge Hl]].
    - by apply Hcss.
    - rewrite Hlen in Hge, Hl.
      destruct (l - k)%nat as [|m] eqn:Hm; [|by destruct m].
      assert (l = k) as -> by lia. injection Hl as <-.
      exists h. split; [done|]. unfold calls_with_dihedral.
      by rewrite Hre, result_bind_ok, Hra, result_bind_ok, Hrd. }
  assert (H0 : Inv 0%nat ([n0], [e0], [a0], None) w).
  { split; [done|]. split; [done|]. exists (n0, e0, a0), [].
    split; [done|]. split; [done|]. split; [done|]. split; [done|].
    split; [by rewrite app_nil_r|]. split; [done|]. intros l cs Hl.
    by rewrite lookup_nil in Hl. }
  destruct (for_layers_range _ Inv _ Hstep _ _ _ _ H0 Hloop)
    as (Hst & _ & h & css & H).
  split; [done|]. by exists h, css.
Qed.

(** The same for the variant without dihedral angles. *)
Lemma loop_without_dihedral_states (self : EGeoGNNModel) (b : batch)
    (ba bl ang : loc) (vba vbl vang : tval)
    (bond_batch : indices) (n : nat) (n0 e0 : tensor)
    (nl el : list tensor) (w w' : world) :
  store w !! ba = Some vba -> store w !! bl = Some vbl ->
  store w !! ang = Some vang ->
  for_layers (layer_without_dihedral self b ba bl ang bond_batch)
    (seq 0 n) ([n0], [e0]) w = (Ok (nl, el), w') ->
  store w' = store w /\
  exists h css,
    hidden_without_dihedral self b vba vbl vang bond_batch (n0, e0) n = Ok h /\
    (last nl = Some h.1 /\ last el = Some h.2) /\
    calls w' = calls w ++ concat css /\
    length css = n /\
    (forall l cs, css !! l = Some cs ->
       exists hl, hidden_without_dihedral self b vba vbl vang bond_batch
                    (n0, e0) l = Ok hl /\
                  calls_without_dihedral self b vba vbl vang bond_batch hl l
                  = Ok cs).
Proof.
  intros Hba Hbl Hang Hloop.
  set (Inv := fun (k : nat) (st : list tensor * list tensor) (wk : world) =>
    store wk = store w /\
    (length st.1 = S k /\ length st.2 = S k) /\
    exists h css,
      hidden_without_dihedral self b vba vbl vang bond_batch (n0, e0) k = Ok h /\
      (last st.1 = Some h.1 /\ last st.2 = Some h.2) /\
      calls wk = calls w ++ concat css /\
      length css = k /\
      (forall l cs, css !! l = Some cs ->
         exists hl, hidden_without_dihedral self b vba vbl vang bond_batch
                      (n0, e0) l = Ok hl /\
                    calls_without_dihedral self b vba vbl vang bond_batch hl l
                    = Ok cs)).
  assert (Hstep : forall k s wk s' wk', (k < n)%nat -> Inv k s wk ->
    layer_without_dihedral self b ba bl ang bond_batch s k wk
    = (Ok s', wk') -> Inv (S k) s' wk').
  { intros k [nl0 el0] wk s' wk' Hk
      (Hst & (Ln & Le) & h & css & Hh & (Hn & He) & Hc & Hlen & Hcss) Hrun.
    simpl in Ln, Le, Hn, He.
    apply layer_without_dihedral_ok in Hrun
      as (nh & eh & vba' & vbl' & vang' & node_hidden & cur_edge & cur_angle
          & edge_hidden & Hst' & (Hnh & Heh) & (Hba' & Hbl' & Hang') & O1 & Hre
          & Hra & O2 & Hc' & ->).
    rewrite Hst in Hst', Hba', Hbl', Hang'.
    assert (vba' = vba) as -> by congruence.
    assert (vbl' = vbl) as -> by congruence.
    assert (vang' = vang) as -> by congruence.
    rewrite (last_of_length _ _ _ Ln Hnh) in Hn.
    rewrite (last_of_length _ _ _ Le Heh) in He.
    injection Hn as ->. injection He as ->.
    split; [done|]. simpl.
    split; [by rewrite !length_app; simpl; lia|].
    exists (node_hidden, edge_hidden),
      (css ++ [[Call AtomBondBlock k h.1 h.2 (AtomBondGraph_edges b) (atom_batch b);
                Call BondAngleBlock k cur_edge cur_angle
                  (BondAngleGraph_edges b) bond_batch]]).
    split.
    { cbn [hidden_without_dihedral]. rewrite Hh, result_bind_ok, O1, result_bind_ok.
      by rewrite Hre, result_bind_ok, Hra, result_bind_ok, O2. }
    split; [by rewrite !last_snoc|].
    split.
    { rewrite Hc', Hc, concat_app. simpl. by rewrite <- app_assoc. }
    split; [rewrite length_app; simpl; lia|].
    intros l cs Hl. apply lookup_app_Some in Hl as [Hl|[Hge Hl]].
    - by apply Hcss.
    - rewrite Hlen in Hge, Hl.
      destruct (l - k)%nat as [|m] eqn:Hm; [|by destruct m].
      assert (l = k) as -> by lia. injection Hl as <-.
      exists h. split; [done|]. unfold calls_without_dihedral.
      by rewrite Hre, result_bind_ok, Hra. }
  assert (H0 : Inv 0%nat ([n0], [e0]) w).
  { split; [done|]. split; [done|]. exists (n0, e0), [].
    split; [done|]. split; [done|].
    split; [by rewrite app_nil_r|]. split; [done|]. intros l cs Hl.
    by rewrite lookup_nil in Hl. }
  destruct (for_layers_range _ Inv _ Hstep _ _ _ _ H0 Hloop)
    as (Hst & _ & h & css & H).
  split; [done|]. by exists h, css.
Qed.

(** Running the forward pass forwards: a sub-layer application that returns
    makes the step return. *)
Lemma apply_layer_returns (f : layer1) (l : loc) (v : tval) (t : tensor) (w : world) :
  store w !! l = Some v -> f v = Ok t -> apply_layer f l w = (Ok t, w).
Proof.
  intros Hl Hf. unfold apply_layer. rewrite bind_run. unfold read. rewrite Hl.
  unfold lift. by rewrite Hf.
Qed.

Lemma lift_returns {A} (r : result A) (a : A) (w : world) :
  r = Ok a -> lift r w = (Ok a, w).
Proof. by intros ->. Qed.

Lemma module_at_returns {A} (ms : list A) (i : nat) (m : A) (w : world) :
  ms !! i = Some m -> module_at ms i w = (Ok m, w).
Proof. intros H. unfold module_at, lift, list_get. by rewrite H. Qed.

Lemma call_block_returns b l blk n e idx bt out (w : world) :
  blk n e idx bt = Ok out ->
  call_block b l blk n e idx bt w
  = (Ok out, World (store w) (calls w ++ [Call b l n e idx bt])).
Proof. intros H. unfold call_block. rewrite bind_run. unfold record, lift. by rewrite H. Qed.

Lemma refresh_bond_returns (self : EGeoGNNModel) (l : nat) (ba bl : loc)
    (vba vbl : tval) (t : tensor) (w : world) :
  store w !! ba = Some vba -> store w !! bl = Some vbl ->
  bond_refresh self l vba vbl = Ok t ->
  refresh_bond self l ba bl w = (Ok t, w).
Proof.
  intros Hba Hbl H. apply bond_refresh_ok in H as (emb & rbf & e & r & H1 & H2 & H3 & H4 & H5).
  unfold refresh_bond.
  erewrite bind_returns by (by apply module_at_returns).
  erewrite bind_returns by (by eapply apply_layer_returns).
  erewrite bind_returns by (by apply module_at_returns).
  erewrite bind_returns by (by eapply apply_layer_returns).
  by apply lift_returns.
Qed.

Lemma for_layers_snoc {S} (body : S -> nat -> M S) (ids : list nat) (i : nat)
    (st : S) (w : world) :
  for_layers body (ids ++ [i]) st w
  = (st' ← for_layers body ids st; body st' i) w.
Proof.
  revert st w. induction ids as [|j ids IH]; intros st w; simpl.
  - rewrite !bind_run. destruct (body st i w) as [[s|e] w'] eqn:E; cbn; by rewrite E.
  - rewrite !bind_run. destruct (body st j w) as [[s|e] w']; [|done].
    rewrite IH. by rewrite bind_run.
Qed.

Lemma block_call_returns (bid : block_id) (blocks : list block) (l : nat)
    (n e : tensor) (idx : edges) (bt : indices) (out : tensor) (w : world) :
  block_output blocks l n e idx bt = Ok out ->
  (blk ← module_at blocks l; call_block bid l blk n e idx bt) w
  = (Ok out, World (store w) (calls w ++ [Call bid l n e idx bt])).
Proof.
  intros H. apply block_output_ok in H as (blk & Hb & H).
  erewrite bind_returns by (by apply module_at_returns).
  by apply call_block_returns.
Qed.

Lemma angle_layer_returns (self : EGeoGNNModel) (l : nat) (ang : loc) (vang : tval)
    (t : tensor) (w : world) :
  store w !! ang = Some vang -> angle_refresh self l vang = Ok t ->
  (rbf ← module_at (bond_angle_float_rbf_list self) l; apply_layer rbf ang) w
  = (Ok t, w).
Proof.
  intros Hang H. apply angle_refresh_ok in H as (rbf & Hr & H).
  erewrite bind_returns by (by apply module_at_returns).
  by eapply apply_layer_returns.
Qed.

Lemma layer_without_dihedral_returns (self : EGeoGNNModel) (b : batch)
    (ba bl ang : loc) (vba vbl vang : tval) (bond_batch : indices)
    (nl el : list tensor) (nh eh : tensor) (l : nat)
    (node_hidden cur_edge cur_angle edge_hidden : tensor) (w : world) :
  store w !! ba = Some vba -> store w !! bl = Some vbl ->
  store w !! ang = Some vang ->
  nl !! l = Some nh -> el !! l = Some eh ->
  block_output (atom_bond_block_list self) l nh eh
    (AtomBondGraph_edges b) (atom_batch b) = Ok node_hidden ->
  bond_refresh self l vba vbl = Ok cur_edge ->
  angle_refresh self l vang = Ok cur_angle ->
  block_output (bond_angle_block_list self) l cur_edge cur_angle
    (BondAngleGraph_edges b) bond_batch = Ok edge_hidden ->
  exists w',
    layer_without_dihedral self b ba bl ang bond_batch (nl, el) l w
    = (Ok (nl ++ [node_hidden], el ++ [edge_hidden]), w') /\
    store w' = store w.
Proof.
  intros Hba Hbl Hang Hnh Heh O1 Hre Hra O2.
  apply block_output_ok in O1 as (blk1 & B1 & O1).
  apply block_output_ok in O2 as (blk2 & B2 & O2).
  apply angle_refresh_ok in Hra as (rbf & Hr & Hra).
  unfold layer_without_dihedral.
  erewrite bind_returns by (by apply module_at_returns).
  erewrite bind_returns by (apply lift_returns; unfold list_get; by rewrite Hnh).
  erewrite bind_returns by (apply lift_returns; unfold list_get; by rewrite Heh).
  erewrite bind_returns by (by apply call_block_returns).
  erewrite bind_returns by (by eapply refresh_bond_returns).
  erewrite bind_returns by (by apply module_at_returns).
  erewrite bind_returns by (by eapply apply_layer_returns).
  erewrite bind_returns by (by apply module_at_returns).
  erewrite bind_returns by (by apply call_block_returns).
  by eexists.
Qed.

Lemma layer_with_dihedral_returns (self : EGeoGNNModel) (b : batch)
    (ba bl ang dih : loc) (vba vbl vang vdih : tval)
    (bond_batch angle_batch : indices)
    (nl el al : list tensor) (cd : option tensor) (nh eh ah : tensor) (l : nat)
    (node_hidden cur_edge edge_hidden cur_angle cur_dihedral angle_hidden : tensor)
    (blks : list block) (w : world) :
  store w !! ba = Some vba -> store w !! bl = Some vbl ->
  store w !! ang = Some vang -> store w !! dih = Some vdih ->
  nl !! l = Some nh -> el !! l = Some eh -> al !! l = Some ah ->
  block_output (atom_bond_block_list self) l nh eh
    (AtomBondGraph_edges b) (atom_batch b) = Ok node_hidden ->
  bond_refresh self l vba vbl = Ok cur_edge ->
  block_output (bond_angle_block_list self) l cur_edge ah
    (BondAngleGraph_edges b) bond_batch = Ok edge_hidden ->
  angle_refresh self l vang = Ok cur_angle ->
  dihedral_refresh self l vdih = Ok cur_dihedral ->
  module_list (angle_dihedral_block_list self) = Ok blks ->
  block_output blks l cur_angle cur_dihedral
    (AngleDihedralGraph_edges b) angle_batch = Ok angle_hidden ->
  exists w',
    layer_with_dihedral self b ba bl ang dih bond_batch angle_batch
      (nl, el, al, cd) l w
    = (Ok (nl ++ [node_hidden], el ++ [edge_hidden], al ++ [angle_hidden],
           Some cur_dihedral), w') /\
    store w' = store w.
Proof.
  intros Hba Hbl Hang Hdih Hnh Heh Hah O1 Hre O2 Hra Hrd Hblks O3.
  apply block_output_ok in O1 as (blk1 & B1 & O1).
  apply block_output_ok in O2 as (blk2 & B2 & O2).
  apply block_output_ok in O3 as (blk3 & B3 & O3).
  apply angle_refresh_ok in Hra as (rbf & Hr & Hra).
  apply dihedral_refresh_ok in Hrd as (rbfs & rbfd & Hrbfs & Hrd1 & Hrd).
  destruct (angle_dihedral_block_list self) as [blks'|] eqn:Hadb; [|done].
  injection Hblks as ->.
  unfold layer_with_dihedral.
  erewrite bind_returns by (by apply module_at_returns).
  erewrite bind_returns by (apply lift_returns; unfold list_get; by rewrite Hnh).
  erewrite bind_returns by (apply lift_returns; unfold list_get; by rewrite Heh).
  erewrite bind_returns by (by apply call_block_returns).
  erewrite bind_returns by (by eapply refresh_bond_returns).
  erewrite bind_returns by (by apply module_at_returns).
  erewrite bind_returns by (apply lift_returns; unfold list_get; by rewrite Hah).
  erewrite bind_returns by (by apply call_block_returns).
  erewrite bind_returns by (by apply module_at_returns).
  erewrite bind_returns by (by eapply apply_layer_returns).
  rewrite Hrbfs, Hadb. cbn [attribute].
  erewrite bind_returns by reflexivity.
  erewrite bind_returns by (by apply module_at_returns).
  erewrite bind_returns by (by eapply apply_layer_returns).
  erewrite bind_returns by reflexivity.
  erewrite bind_returns by (by apply module_at_returns).
  erewrite bind_returns by (by apply call_block_returns).
  by eexists.
Qed.

Lemma last_at_length {A} (l : list A) (k : nat) (a : A) :
  length l = S k -> last l = Some a -> l !! k = Some a.
Proof. intros Hl Ha. rewrite last_lookup, Hl in Ha. exact Ha. Qed.

(** A loop whose recurrence is defined returns, with the hidden states of
    the recurrence as the last entries of its lists. *)
Lemma loop_without_dihedral_returns (self : EGeoGNNModel) (b : batch)
    (ba bl ang : loc) (vba vbl vang : tval) (bond_batch : indices)
    (n0 e0 : tensor) (w : world) (n : nat) :
  store w !! ba = Some vba -> store w !! bl = Some vbl ->
  store w !! ang = Some vang ->
  forall h,
  hidden_without_dihedral self b vba vbl vang bond_batch (n0, e0) n = Ok h ->
  exists nl el w',
    for_layers (layer_without_dihedral self b ba bl ang bond_batch)
      (seq 0 n) ([n0], [e0]) w = (Ok (nl, el), w') /\
    store w' = store w /\
    (length nl = S n /\ length el = S n) /\
    last nl = Some h.1 /\ last el = Some h.2.
Proof.
  intros Hba Hbl Hang. induction n as [|n IH]; intros h Hh.
  - injection Hh as <-. by exists [n0], [e0], w.
  - cbn [hidden_without_dihedral] in Hh.
    apply result_bind_inv in Hh as (hn & Hn & Hh).
    apply result_bind_inv in Hh as (node_hidden & O1 & Hh).
    apply result_bind_inv in Hh as (cur_edge & Hre & Hh).
    apply result_bind_inv in Hh as (cur_angle & Hra & Hh).
    apply result_bind_inv in Hh as (edge_hidden & O2 & Hh).
    injection Hh as <-.
    destruct (IH hn Hn) as (nl & el & w1 & Hloop & Hst & (Ln & Le) & Hnl & Hel).
    destruct (layer_without_dihedral_returns self b ba bl ang vba vbl vang
                bond_batch nl el hn.1 hn.2 n node_hidden cur_edge cur_angle
                edge_hidden w1) as (w2 & Hrun & Hst2);
      try done; try (by rewrite Hst); try (by apply last_at_length).
    exists (nl ++ [node_hidden]), (el ++ [edge_hidden]), w2.
    rewrite seq_S, for_layers_snoc. simpl.
    erewrite bind_returns by exact Hloop.
    split; [exact Hrun|]. split; [congruence|].
    split; [rewrite !length_app; simpl; lia|]. by rewrite !last_snoc.
Qed.

Lemma loop_with_dihedral_returns (self : EGeoGNNModel) (b : batch)
    (ba bl ang dih : loc) (vba vbl vang vdih : tval)
    (bond_batch angle_batch : indices)
    (n0 e0 a0 : tensor) (w : world) (n : nat) :
  store w !! ba = Some vba -> store w !! bl = Some vbl ->
  store w !! ang = Some vang -> store w !! dih = Some vdih ->
  forall h,
  hidden_with_dihedral self b vba vbl vang vdih bond_batch angle_batch
    (n0, e0, a0) n = Ok h ->
  exists nl el al w',
    for_layers
      (layer_with_dihedral self b ba bl ang dih bond_batch angle_batch)
      (seq 0 n) ([n0], [e0], [a0], None) w
    = (Ok (nl, el, al,
           match n with
           | O => None
           | S l => match dihedral_refresh self l vdih with
                    | Ok d => Some d
                    | Raise _ => None
                    end
           end), w') /\
    store w' = store w /\
    (length nl = S n /\ length el = S n /\ length al = S n) /\
    last nl = Some h.1.1 /\ last el = Some h.1.2 /\ last al = Some h.2.
Proof.
  intros Hba Hbl Hang Hdih. induction n as [|n IH]; intros h Hh.
  - injection Hh as <-. by exists [n0], [e0], [a0], w.
  - cbn [hidden_with_dihedral] in Hh.
    apply result_bind_inv in Hh as (hn & Hn & Hh).
    apply result_bind_inv in Hh as (node_hidden & O1 & Hh).
    apply result_bind_inv in Hh as (cur_edge & Hre & Hh).
    apply result_bind_inv in Hh as (edge_hidden & O2 & Hh).
    apply result_bind_inv in Hh as (cur_angle & Hra & Hh).
    apply result_bind_inv in Hh as (cur_dihedral & Hrd & Hh).
    apply result_bind_inv in Hh as (blks & Hblks & Hh).
    apply result_bind_inv in Hh as (angle_hidden & O3 & Hh).
    injection Hh as <-.
    destruct (IH hn Hn)
      as (nl & el & al & w1 & Hloop & Hst & (Ln & Le & La) & Hnl & Hel & Hal).
    match type of Hloop with
    | _ = (Ok (_, _, _, ?c), _) => set (cd := c) in *
    end.
    destruct (layer_with_dihedral_returns self b ba bl ang dih vba vbl vang vdih
                bond_batch angle_batch nl el al cd hn.1.1 hn.1.2 hn.2 n
                node_hidden cur_edge edge_hidden cur_angle cur_dihedral
                angle_hidden blks w1) as (w2 & Hrun & Hst2);
      try done; try (by rewrite Hst); try (by apply last_at_length).
    exists (nl ++ [node_hidden]), (el ++ [edge_hidden]), (al ++ [angle_hidden]), w2.
    rewrite seq_S, for_layers_snoc. simpl.
    erewrite bind_returns by exact Hloop.
    rewrite Hrd. split; [exact Hrun|]. split; [congruence|].
    split; [rewrite !length_app; simpl; lia|]. by rewrite !last_snoc.
Qed.

(** The masked contents of a returning [mask_attr], with the copies. *)
Lemma mask_attr_contents (self : EGeoGNNModel) (b : batch) (w w1 : world)
    (x' ba' bl' ang' dih' : loc)
    (nx nb : nat) (rx rb : list (list Z)) (vl va vd : vec) :
  store w !! x b = Some (LongT nx rx) ->
  store w !! bond_attr b = Some (LongT nb rb) ->
  store w !! bond_lengths b = Some (FloatT vl) ->
  store w !! bond_angles b = Some (FloatT va) ->
  store w !! dihedral_angles b = Some (FloatT vd) ->
  mask_attr self (x b) (bond_attr b) (bond_lengths b) (bond_angles b)
    (dihedral_angles b) (masked_atom_indices b) (masked_bond_indices b)
    (masked_angle_indices b) (masked_dihedral_indices b) w
  = (Ok (x', ba', bl', ang', dih'), w1) ->
  exists rx' rb' vl' va' vd',
    (store w1 !! x' = Some (LongT nx rx') /\
     store w1 !! ba' = Some (LongT nb rb') /\
     store w1 !! bl' = Some (FloatT vl') /\
     store w1 !! ang' = Some (FloatT va') /\
     store w1 !! dih' = Some (FloatT vd')) /\
    encoding_of_batch self b nx rx nb rb vl va vd
    = encoding_of self b (LongT nx rx') (LongT nb rb') (FloatT vl') (FloatT va')
        (FloatT vd').
Proof.
  intros Hx Hba Hbl Hang Hdih Hmask.
  destruct (mask_attr_ok self _ _ _ _ _ _ _ _ _ w w1 _ _ _ _ _ nx nb rx rb vl va vd
              Hx Hba Hbl Hang Hdih Hmask)
    as (rx' & rb' & vl' & va' & vd' & (Mx & Mb & Ml & Ma & Md) & Hst & _).
  exists rx', rb', vl', va', vd'. split; [exact Hst|].
  unfold encoding_of_batch. by rewrite Mx, Mb, Ml, Ma, Md.
Qed.

(** A returning forward pass gives the encoding of the contents. *)
Lemma forward_sound (self : EGeoGNNModel) (b : batch) (w w' : world) (enc : encoding)
    (nx nb : nat) (rx rb : list (list Z)) (vl va vd : vec) :
  store w !! x b = Some (LongT nx rx) ->
  store w !! bond_attr b = Some (LongT nb rb) ->
  store w !! bond_lengths b = Some (FloatT vl) ->
  store w !! bond_angles b = Some (FloatT va) ->
  store w !! dihedral_angles b = Some (FloatT vd) ->
  forward self b w = (Ok enc, w') ->
  encoding_of_batch self b nx rx nb rb vl va vd = Ok enc.
Proof.
  intros Hx Hba Hbl Hang Hdih H. unfold forward in H.
  apply bind_ok in H as ([[[[x' ba'] bl'] ang'] dih'] & w1 & Hmask & H).
  destruct (mask_attr_contents self b w w1 _ _ _ _ _ nx nb rx rb vl va vd
              Hx Hba Hbl Hang Hdih Hmask)
    as (rx' & rb' & vl' & va' & vd' & (Lx & Lba & Lbl & Lang & Ldih) & Henc).
  rewrite Henc. clear Henc Hmask.
  apply bind_ok in H as (node_hidden & w2 & H1 & H).
  apply apply_layer_ok in H1 as [-> (v1 & Hv1 & H1)].
  apply bind_ok in H as (bond_embed & w2 & H2 & H).
  apply apply_layer_ok in H2 as [-> (v2 & Hv2 & H2)].
  apply bind_ok in H as (r & w2 & H3 & H).
  apply apply_layer_ok in H3 as [-> (v3 & Hv3 & H3)].
  apply bind_ok in H as (bond_hidden & w2 & H4 & H).
  apply lift_ok in H4 as [H4 ->].
  assert (v1 = LongT nx rx') as -> by congruence.
  assert (v2 = LongT nb rb') as -> by congruence.
  assert (v3 = FloatT vl') as -> by congruence.
  unfold encoding_of, initial_hidden.
  rewrite H1, result_bind_ok, H2, result_bind_ok, H3, result_bind_ok, H4.
  rewrite !result_bind_ok.
  destruct (without_dihedral self).
  - apply bind_ok in H as (graph_idx & w2 & H5 & H). apply lift_ok in H5 as [H5 ->].
    apply bind_ok in H as (bond_batch & w2 & H6 & H). apply lift_ok in H6 as [H6 ->].
    apply bind_ok in H as ([nl el] & w2 & Hloop & H).
    apply bind_ok in H as (nr & w3 & H7 & H). apply list_last_ok in H7 as [-> H7].
    apply bind_ok in H as (er & w3 & H8 & H). apply list_last_ok in H8 as [-> H8].
    apply bind_ok in H as (gr & w3 & H9 & H). apply lift_ok in H9 as [H9 ->].
    injection H as <- <-.
    pose proof (fun vba vbl vang A B C =>
                  loop_without_dihedral_states self b ba' bl' ang' vba vbl vang
                    bond_batch (n_layers self) node_hidden bond_hidden nl el
                    w1 w2 A B C Hloop) as HL.
    destruct (HL _ _ _ Lba Lbl Lang) as (_ & h & css & Hh & (Hn & He) & _).
    rewrite H5, result_bind_ok, H6, result_bind_ok. simpl. rewrite Hh, result_bind_ok.
    assert (h.1 = nr) as -> by congruence.
    assert (h.2 = er) as -> by congruence.
    by rewrite H9.
  - apply bind_ok in H as (angle_hidden & w2 & Ha & H).
    apply apply_layer_ok in Ha as [-> (v4 & Hv4 & Ha)].
    assert (v4 = FloatT va') as -> by congruence.
    apply bind_ok in H as (graph_idx & w2 & H5 & H). apply lift_ok in H5 as [H5 ->].
    apply bind_ok in H as (bond_batch & w2 & H6 & H). apply lift_ok in H6 as [H6 ->].
    apply bind_ok in H as (angle_batch & w2 & H6' & H).
    apply lift_ok in H6' as [H6' ->].
    apply bind_ok in H as ([[[nl el] al] cd] & w2 & Hloop & H).
    apply bind_ok in H as (nr & w3 & H7 & H). apply list_last_ok in H7 as [-> H7].
    apply bind_ok in H as (er & w3 & H8 & H). apply list_last_ok in H8 as [-> H8].
    apply bind_ok in H as (ar & w3 & H8' & H). apply list_last_ok in H8' as [-> H8'].
    apply bind_ok in H as (dr & w3 & Hd & H).
    destruct cd as [d|]; [|done]. injection Hd as <- <-.
    apply bind_ok in H as (gr & w3 & H9 & H). apply lift_ok in H9 as [H9 ->].
    injection H as <- <-.
    pose proof (fun vba vbl vang vdih A B C D =>
                  loop_with_dihedral_states self b ba' bl' ang' dih' vba vbl vang
                    vdih bond_batch angle_batch (n_layers self) node_hidden
                    bond_hidden angle_hidden nl el al (Some d) w1 w2 A B C D Hloop)
      as HL.
    destruct (HL _ _ _ _ Lba Lbl Lang Ldih)
      as (_ & h & css & Hh & (Hn & He & Hal) & Hcd & _).
    rewrite Ha, result_bind_ok, H5, result_bind_ok, H6, result_bind_ok.
    rewrite H6', result_bind_ok. simpl. rewrite Hh, result_bind_ok.
    assert (h.1.1 = nr) as -> by congruence.
    assert (h.1.2 = er) as -> by congruence.
    assert (h.2 = ar) as -> by congruence.
    destruct (n_layers self) as [|l]; [done|].
    destruct (dihedral_refresh self l (FloatT vd')) as [d'|e]; [|done].
    injection Hcd as ->. by rewrite result_bind_ok, H9.
Qed.

Lemma list_last_returns {A} (l : list A) (a : A) (w : world) :
  last l = Some a -> list_last l w = (Ok a, w).
Proof. intros H. unfold list_last. by rewrite H. Qed.

(** When the encoding of the contents is defined, the forward pass returns
    it. *)
Lemma forward_complete (self : EGeoGNNModel) (b : batch) (w : world) (enc : encoding)
    (nx nb : nat) (rx rb : list (list Z)) (vl va vd : vec) :
  store w !! x b = Some (LongT nx rx) ->
  store w !! bond_attr b = Some (LongT nb rb) ->
  store w !! bond_lengths b = Some (FloatT vl) ->
  store w !! bond_angles b = Some (FloatT va) ->
  store w !! dihedral_angles b = Some (FloatT vd) ->
  encoding_of_batch self b nx rx nb rb vl va vd = Ok enc ->
  exists w', forward self b w = (Ok enc, w').
Proof.
  intros Hx Hba Hbl Hang Hdih Henc.
  assert (Hmask : exists copies w1,
    mask_attr self (x b) (bond_attr b) (bond_lengths b) (bond_angles b)
      (dihedral_angles b) (masked_atom_indices b) (masked_bond_indices b)
      (masked_angle_indices b) (masked_dihedral_indices b) w = (Ok copies, w1)).
  { unfold encoding_of_batch in Henc.
    apply result_bind_inv in Henc as (rx' & Mx & Henc).
    apply result_bind_inv in Henc as (rb' & Mb & Henc).
    apply result_bind_inv in Henc as (vl' & Ml & Henc).
    apply result_bind_inv in Henc as (va' & Ma & Henc).
    apply result_bind_inv in Henc as (vd' & Md & Henc).
    by eapply mask_attr_runs. }
  destruct Hmask as ([[[[x' ba'] bl'] ang'] dih'] & w1 & Hmask).
  destruct (mask_attr_contents self b w w1 _ _ _ _ _ nx nb rx rb vl va vd
              Hx Hba Hbl Hang Hdih Hmask)
    as (rx' & rb' & vl' & va' & vd' & (Lx & Lba & Lbl & Lang & Ldih) & Heq).
  rewrite Heq in Henc. clear Heq.
  unfold encoding_of, initial_hidden in Henc.
  apply result_bind_inv in Henc as ([node_hidden bond_hidden] & H0 & Henc).
  apply result_bind_inv in H0 as (nh & H1 & H0).
  apply result_bind_inv in H0 as (bond_embed & H2 & H0).
  apply result_bind_inv in H0 as (r & H3 & H0).
  apply result_bind_inv in H0 as (bh & H4 & H0).
  injection H0 as -> ->.
  unfold forward.
  erewrite bind_returns by exact Hmask. cbn beta iota.
  erewrite bind_returns by (by eapply apply_layer_returns).
  erewrite bind_returns by (by eapply apply_layer_returns).
  erewrite bind_returns by (by eapply apply_layer_returns).
  erewrite bind_returns by (by apply lift_returns).
  destruct (without_dihedral self).
  - apply result_bind_inv in Henc as (graph_idx & H5 & Henc).
    apply result_bind_inv in Henc as (bond_batch & H6 & Henc).
    apply result_bind_inv in Henc as (h & Hh & Henc).
    apply result_bind_inv in Henc as (gr & H9 & Henc).
    injection Henc as <-.
    destruct (loop_without_dihedral_returns self b ba' bl' ang' _ _ _ bond_batch
                node_hidden bond_hidden w1 (n_layers self) Lba Lbl Lang h Hh)
      as (nl & el & w2 & Hloop & _ & _ & Hn & He).
    erewrite bind_returns by (by apply lift_returns).
    erewrite bind_returns by (by apply lift_returns).
    erewrite bind_returns by exact Hloop. cbn beta iota.
    erewrite bind_returns by (by apply list_last_returns).
    erewrite bind_returns by (by apply list_last_returns).
    erewrite bind_returns by (by apply lift_returns).
    by eexists.
  - apply result_bind_inv in Henc as (angle_hidden & Ha & Henc).
    apply result_bind_inv in Henc as (graph_idx & H5 & Henc).
    apply result_bind_inv in Henc as (bond_batch & H6 & Henc).
    apply result_bind_inv in Henc as (angle_batch & H6' & Henc).
    apply result_bind_inv in Henc as (h & Hh & Henc).
    apply result_bind_inv in Henc as (d & Hd & Henc).
    apply result_bind_inv in Henc as (gr & H9 & Henc).
    injection Henc as <-.
    simpl in Hh.
    destruct (loop_with_dihedral_returns self b ba' bl' ang' dih' _ _ _ _
                bond_batch angle_batch node_hidden bond_hidden angle_hidden w1
                (n_layers self) Lba Lbl Lang Ldih h Hh)
      as (nl & el & al & w2 & Hloop & _ & _ & Hn & He & Hal).
    erewrite bind_returns by (by eapply apply_layer_returns).
    erewrite bind_returns by (by apply lift_returns).
    erewrite bind_returns by (by apply lift_returns).
    erewrite bind_returns by (by apply lift_returns).
    erewrite bind_returns by exact Hloop. cbn beta iota.
    erewrite bind_returns by (by apply list_last_returns).
    erewrite bind_returns by (by apply list_last_returns).
    erewrite bind_returns by (by apply list_last_returns).
    destruct (n_layers self) as [|l]; [done|]. rewrite Hd.
    erewrite bind_returns by reflexivity.
    erewrite bind_returns by (by apply lift_returns).
    by eexists.
Qed.

(** ** The passes of a forward pass *)

Lemma signatures_concat (g : nat -> list (block_id * nat * edges * indices))
    (css : list (list call)) :
  forall a,
  (forall l cs, css !! l = Some cs -> pass_signature <$> cs = g (a + l)%nat) ->
  pass_signature <$> concat css = seq a (length css) ≫= g.
Proof.
  induction css as [|cs css IH]; intros a H; [done|].
  cbn [concat length seq]. rewrite fmap_app, bind_cons.
  rewrite (H 0%nat cs eq_refl), Nat.add_0_r. f_equal.
  apply IH. intros l cs' Hl. rewrite (H (S l) cs' Hl). f_equal. lia.
Qed.

Lemma calls_without_dihedral_signature (self : EGeoGNNModel) (b : batch)
    (vba vbl vang : tval) (bond_batch angle_batch : indices) (h : tensor * tensor)
    (l : nat) (cs : list call) :
  without_dihedral self = true ->
  calls_without_dihedral self b vba vbl vang bond_batch h l = Ok cs ->
  pass_signature <$> cs = layer_passes self b bond_batch angle_batch l.
Proof.
  intros Hwd H. unfold calls_without_dihedral in H.
  apply result_bind_inv in H as (e & _ & H).
  apply result_bind_inv in H as (a & _ & H).
  injection H as <-. unfold layer_passes. by rewrite Hwd.
Qed.

Lemma calls_with_dihedral_signature (self : EGeoGNNModel) (b : batch)
    (vba vbl vang vdih : tval) (bond_batch angle_batch : indices)
    (h : tensor * tensor * tensor) (l : nat) (cs : list call) :
  without_dihedral self = false ->
  calls_with_dihedral self b vba vbl vang vdih bond_batch angle_batch h l = Ok cs ->
  pass_signature <$> cs = layer_passes self b bond_batch angle_batch l.
Proof.
  intros Hwd H. unfold calls_with_dihedral in H.
  apply result_bind_inv in H as (e & _ & H).
  apply result_bind_inv in H as (a & _ & H).
  apply result_bind_inv in H as (d & _ & H).
  injection H as <-. unfold layer_passes. by rewrite Hwd.
Qed.

(** ** Tensor objects of the caller *)

Lemma keeps_store_bind {A B} (m : M A) (f : A -> M B) :
  keeps_store m -> (forall a, keeps_store (f a)) -> keeps_store (m ≫= f).
Proof.
  intros Hm Hf w. rewrite bind_run. specialize (Hm w).
  destruct (m w) as [[a|e] w1]; simpl in *; [|done]. by rewrite Hf.
Qed.

Lemma keeps_store_ret {A} (a : A) : keeps_store (mret a : M A).
Proof. by intros w. Qed.

Lemma keeps_store_throw {A} (e : exn) : keeps_store (throw e : M A).
Proof. by intros w. Qed.

Lemma keeps_store_lift {A} (r : result A) : keeps_store (lift r).
Proof. by intros w. Qed.

Lemma keeps_store_apply_layer (f : layer1) (l : loc) : keeps_store (apply_layer f l).
Proof.
  apply keeps_store_bind; [|intros v; apply keeps_store_lift].
  intros w. unfold read. by destruct (store w !! l).
Qed.

Lemma keeps_store_module_at {A} (ms : list A) (i : nat) : keeps_store (module_at ms i).
Proof. apply keeps_store_lift. Qed.

Lemma keeps_store_attribute {A} (o : option A) : keeps_store (attribute o).
Proof. destruct o; [apply keeps_store_ret | apply keeps_store_throw]. Qed.

Lemma keeps_store_list_last {A} (l : list A) : keeps_store (list_last l).
Proof.
  unfold list_last. destruct (last l); [apply keeps_store_ret | apply keeps_store_throw].
Qed.

Lemma keeps_store_call_block b l blk n e idx bt :
  keeps_store (call_block b l blk n e idx bt).
Proof. apply keeps_store_bind; [by intros w | intros _; apply keeps_store_lift]. Qed.

Lemma keeps_store_refresh_bond self l ba bl : keeps_store (refresh_bond self l ba bl).
Proof.
  unfold refresh_bond.
  repeat (apply keeps_store_bind;
          [first [apply keeps_store_module_at | apply keeps_store_apply_layer]
          | intros ?]).
  apply keeps_store_lift.
Qed.

#[local] Ltac keeps_store_step :=
  first [ apply keeps_store_module_at | apply keeps_store_apply_layer
        | apply keeps_store_call_block | apply keeps_store_refresh_bond
        | apply keeps_store_attribute | apply keeps_store_list_last
        | apply keeps_store_lift | apply keeps_store_ret
        | apply keeps_store_throw ].

Lemma keeps_store_layer_without_dihedral self b ba bl ang bb st l :
  keeps_store (layer_without_dihedral self b ba bl ang bb st l).
Proof.
  destruct st as [nl el]. unfold layer_without_dihedral.
  repeat (apply keeps_store_bind; [keeps_store_step | intros ?]).
  keeps_store_step.
Qed.

Lemma keeps_store_layer_with_dihedral self b ba bl ang dih bb ab st l :
  keeps_store (layer_with_dihedral self b ba bl ang dih bb ab st l).
Proof.
  destruct st as [[[nl el] al] cd]. unfold layer_with_dihedral.
  repeat (apply keeps_store_bind; [keeps_store_step | intros ?]).
  keeps_store_step.
Qed.

Lemma keeps_store_for_layers {S} (body : S -> nat -> M S) (ids : list nat) :
  (forall s i, keeps_store (body s i)) ->
  forall st, keeps_store (for_layers body ids st).
Proof.
  intros Hbody. induction ids as [|i ids IH]; intros st; simpl.
  - apply keeps_store_ret.
  - apply keeps_store_bind; [apply Hbody | apply IH].
Qed.

(** After the masked copies are made, the forward pass writes no tensor. *)
Lemma forward_store (self : EGeoGNNModel) (b : batch) (w : world) :
  store (forward self b w).2
  = store (mask_attr self (x b) (bond_attr b) (bond_lengths b) (bond_angles b)
             (dihedral_angles b) (masked_atom_indices b) (masked_bond_indices b)
             (masked_angle_indices b) (masked_dihedral_indices b) w).2.
Proof.
  unfold forward. rewrite bind_run.
  destruct (mask_attr _ _ _ _ _ _ _ _ _ _ w) as [[[[[[x' ba'] bl'] ang'] dih']|e] w1];
    [|done].
  cbn [snd].
  assert (H : forall (m : M encoding), keeps_store m -> store (m w1).2 = store w1)
    by (intros m Hm; apply Hm).
  apply H.
  repeat (apply keeps_store_bind; [keeps_store_step | intros ?]).
  destruct (without_dihedral self).
  - repeat (apply keeps_store_bind; [keeps_store_step | intros ?]).
    apply keeps_store_bind.
    { apply keeps_store_for_layers. intros s i.
      apply keeps_store_layer_without_dihedral. }
    intros [nl el].
    repeat (apply keeps_store_bind; [keeps_store_step | intros ?]).
    keeps_store_step.
  - repeat (apply keeps_store_bind; [keeps_store_step | intros ?]).
    apply keeps_store_bind.
    { apply keeps_store_for_layers. intros s i.
      apply keeps_store_layer_with_dihedral. }
    intros [[[nl el] al] cd].
    repeat (apply keeps_store_bind; [keeps_store_step | intros ?]).
    apply keeps_store_bind.
    { destruct cd; keeps_store_step. }
    intros ?.
    repeat (apply keeps_store_bind; [keeps_store_step | intros ?]).
    keeps_store_step.
Qed.

(** ** The counts of the batch *)

Lemma arange_ok (n : Z) (idx : indices) :
  arange n = Ok idx -> 0 <= n /\ length idx = Z.to_nat n.
Proof.
  unfold arange. case_decide; [|done]. intros [= <-].
  split; [done|]. by rewrite length_fmap, length_seq.
Qed.

Lemma repeat_interleave_ok (input repeats out : indices) :
  repeat_interleave input repeats = Ok out ->
  (length repeats = 1%nat \/ length repeats = length input) /\
  (input <> [] -> Forall (fun r => 0 <= r) repeats).
Proof.
  unfold repeat_interleave. intros H.
  apply result_bind_inv in H as (reps & Hexp & H).
  case_decide as Hpos; [|done]. clear H.
  destruct repeats as [|r [|r' repeats]].
  - case_decide as Hlen; [|done]. injection Hexp as <-.
    split; [by right|]. by intros _.
  - injection Hexp as <-. split; [by left|]. intros Hne.
    destruct input as [|i input]; [done|].
    simpl in Hpos. apply Forall_cons in Hpos as [Hr _]. by constructor.
  - case_decide as Hlen; [|done]. injection Hexp as <-.
    split; [by right|]. by intros _.
Qed.

Lemma counts_per_graph_ok (n : Z) (idx counts out : indices) :
  arange n = Ok idx -> repeat_interleave idx counts = Ok out ->
  counts_per_graph n counts.
Proof.
  intros Ha Hr. apply arange_ok in Ha as [Hn Hlen].
  apply repeat_interleave_ok in Hr as [Hl Hpos]. rewrite Hlen in Hl.
  split; [exact Hl|]. intros Hn'. apply Hpos. intros ->. simpl in Hlen. lia.
Qed.

(** ** Masked values do not reach the encoder *)

Lemma addressed_None (n r : nat) : ~ addressed n None r.
Proof. by intros (l & i & [=] & _). Qed.

Lemma addressed_or_not (n : nat) (l : indices) (r : nat) :
  addressed n (Some l) r \/ ~ addressed n (Some l) r.
Proof.
  destruct (decide (Exists (fun i => norm_index n i = Some r) l)) as [H|H].
  - left. apply Exists_exists in H as (i & Hi & Hn). by exists l, i.
  - right. intros (l' & i & [= <-] & Hi & Hn). apply H, Exists_exists. by exists i.
Qed.

Lemma agree_off_None {A} (t1 t2 : list A) : agree_off None t1 t2 -> t1 = t2.
Proof.
  intros [Hlen H]. apply list_eq. intros r. apply H, addressed_None.
Qed.

Lemma masked_vector_agree (ids : option indices) (v1 v2 : vec) :
  agree_off ids v1 v2 -> masked_vector ids v1 = masked_vector ids v2.
Proof.
  intros Hag. destruct ids as [l|]; [|by rewrite (agree_off_None _ _ Hag)].
  destruct Hag as [Hlen Hag]. unfold masked_vector. rewrite <- Hlen.
  destruct (norm_indices (length v1) l) as [rs|e] eqn:Hrs; [|done].
  rewrite !result_bind_ok. f_equal. apply list_eq. intros r.
  destruct (decide (r ∈ rs)) as [Hr|Hr].
  - rewrite !put_rows_in by done.
    destruct (v1 !! r) as [q1|] eqn:H1, (v2 !! r) as [q2|] eqn:H2; try done.
    + apply lookup_lt_Some in H1. apply lookup_ge_None in H2. lia.
    + apply lookup_lt_Some in H2. apply lookup_ge_None in H1. lia.
  - rewrite !put_rows_notin by done. apply Hag.
    by rewrite <- (norm_indices_elem _ _ _ _ Hrs).
Qed.

(** Whether the masking loop returns depends on the number of rows only. *)
Lemma mask_columns_status (vocab : list Z) (ids : indices) (cols : list nat) :
  forall rows1 rows2, length rows1 = length rows2 ->
  match mask_columns vocab ids cols rows1, mask_columns vocab ids cols rows2 with
  | Ok _, Ok _ => True
  | Raise e1, Raise e2 => e1 = e2
  | _, _ => False
  end.
Proof.
  induction cols as [|i cols IH]; intros rows1 rows2 Hlen; [done|].
  cbn [mask_columns]. destruct (list_get vocab i) as [v|e]; [|done].
  rewrite !result_bind_ok. destruct (long_scalar (v - 1)) as [c|e]; [|done].
  rewrite !result_bind_ok, <- Hlen.
  destruct (norm_indices (length rows1) ids) as [rs|e]; [|done].
  rewrite !result_bind_ok. apply IH. by rewrite !put_rows_length.
Qed.

Lemma masked_matrix_agree (vocab : list Z) (ids : option indices) (ncol : nat)
    (rows1 rows2 : list (list Z)) :
  rectangular ncol rows1 -> rectangular ncol rows2 ->
  agree_off ids rows1 rows2 ->
  masked_matrix vocab ids ncol rows1 = masked_matrix vocab ids ncol rows2.
Proof.
  intros R1 R2 Hag. destruct ids as [l|]; [|by rewrite (agree_off_None _ _ Hag)].
  destruct Hag as [Hlen Hag]. unfold masked_matrix.
  pose proof (mask_columns_status vocab l (seq 0 ncol) rows1 rows2 Hlen) as Hst.
  destruct (mask_columns vocab l (seq 0 ncol) rows1) as [m1|e1] eqn:M1,
           (mask_columns vocab l (seq 0 ncol) rows2) as [m2|e2] eqn:M2;
    try done; [|by subst].
  f_equal.
  destruct (mask_columns_spec vocab l ncol _ _ _ M1 R1) as (L1 & Q1 & K1 & _ & A1).
  destruct (mask_columns_spec vocab l ncol _ _ _ M2 R2) as (L2 & Q2 & K2 & _ & A2).
  apply list_eq. intros r.
  destruct (m1 !! r) as [row1|] eqn:E1; last first.
  { apply lookup_ge_None in E1. symmetry. apply lookup_ge_None. lia. }
  destruct (m2 !! r) as [row2|] eqn:E2; last first.
  { apply lookup_lt_Some in E1. apply lookup_ge_None in E2. lia. }
  destruct (addressed_or_not (length rows1) l r) as [Ha|Hn].
  - f_equal.
    assert (Hl1 : length row1 = ncol).
    { unfold rectangular in Q1. rewrite Forall_lookup in Q1. by apply (Q1 r). }
    assert (Hl2 : length row2 = ncol).
    { unfold rectangular in Q2. rewrite Forall_lookup in Q2. by apply (Q2 r). }
    apply list_eq. intros i.
    destruct (decide (i < ncol)%nat) as [Hi|Hi].
    + assert (Hin : i ∈ seq 0 ncol) by (apply elem_of_seq; lia).
      destruct (A1 r i Ha Hin Hi) as (v1 & Hv1 & X1).
      rewrite Hlen in Ha.
      destruct (A2 r i Ha Hin Hi) as (v2 & Hv2 & X2).
      unfold entry in X1, X2. rewrite E1 in X1. rewrite E2 in X2.
      simpl in X1, X2. congruence.
    + rewrite !lookup_ge_None_2 by lia. done.
  - rewrite <- E1, <- E2, K1, K2 by (by rewrite <- ?Hlen). by apply Hag.
Qed.

(** * Properties of the forward pass *)

(** X1. On a batch whose five tensors have their kinds, the forward pass
    returns an encoding exactly when the encoding of the contents is
    defined, and then it returns that encoding: the contents are masked,
    embedded, and passed through the layers by the recurrence of the loop
    body; node_repr and edge_repr (and angle_repr) are the hidden states
    after the last layer, dihedral_repr is the dihedral embedding of the
    last layer, graph_repr the mean pooling of node_repr.  The result
    depends on nothing else of the state. *)
Theorem forward_returns_encoding_of_batch (self : EGeoGNNModel) (b : batch)
    (w : world) (enc : encoding)
    (nx nb : nat) (rx rb : list (list Z)) (vl va vd : vec) :
  store w !! x b = Some (LongT nx rx) ->
  store w !! bond_attr b = Some (LongT nb rb) ->
  store w !! bond_lengths b = Some (FloatT vl) ->
  store w !! bond_angles b = Some (FloatT va) ->
  store w !! dihedral_angles b = Some (FloatT vd) ->
  (exists w', forward self b w = (Ok enc, w')) <->
  encoding_of_batch self b nx rx nb rb vl va vd = Ok enc.
Proof.
  intros Hx Hba Hbl Hang Hdih. split.
  - intros [w' H]. by eapply forward_sound.
  - intros H. by eapply forward_complete.
Qed.

Lemma forward_returns_encoding_of_batch_witness :
  exists enc,
    encoding_of_batch (Demo.encoder 2 false) Variant.masked_chain
      2 [[1; 0]; [2; 1]; [1; 1]; [3; 0]] 1 [[0]; [1]; [0]]
      [Demo.of_Z 3; Demo.of_Z 2; Demo.of_Z 3] [Demo.of_Z 2; Demo.of_Z 2]
      [Demo.of_Z 1] = Ok enc /\
    exists w', forward (Demo.encoder 2 false) Variant.masked_chain Demo.chain_world
               = (Ok enc, w').
Proof.
  destruct (encoding_of_batch (Demo.encoder 2 false) Variant.masked_chain
              2 [[1; 0]; [2; 1]; [1; 1]; [3; 0]] 1 [[0]; [1]; [0]]
              [Demo.of_Z 3; Demo.of_Z 2; Demo.of_Z 3] [Demo.of_Z 2; Demo.of_Z 2]
              [Demo.of_Z 1]) as [enc|e] eqn:H; [|vm_compute in H; discriminate H].
  exists enc. split; [reflexivity|].
  apply (forward_returns_encoding_of_batch (Demo.encoder 2 false)
           Variant.masked_chain Demo.chain_world enc
           2 1 [[1; 0]; [2; 1]; [1; 1]; [3; 0]] [[0]; [1]; [0]]
           [Demo.of_Z 3; Demo.of_Z 2; Demo.of_Z 3] [Demo.of_Z 2; Demo.of_Z 2]
           [Demo.of_Z 1]); try reflexivity.
  exact H.
Defined.

(** X2. A returning forward pass calls the blocks layer by layer, in the
    order of the loop body: in every layer the atom-bond block on the
    atom-bond graph with atom_batch, then the bond-angle block on the
    bond-angle graph with bond_batch = repeat_interleave(arange(num_graphs),
    num_bonds), then, in the variant with dihedral angles, the
    angle-dihedral block on the angle-dihedral graph with angle_batch =
    repeat_interleave(arange(num_graphs), num_angles); it makes no other
    block call. *)
Theorem forward_passes_in_order (self : EGeoGNNModel) (b : batch)
    (w w' : world) (enc : encoding)
    (nx nb : nat) (rx rb : list (list Z)) (vl va vd : vec) :
  store w !! x b = Some (LongT nx rx) ->
  store w !! bond_attr b = Some (LongT nb rb) ->
  store w !! bond_lengths b = Some (FloatT vl) ->
  store w !! bond_angles b = Some (FloatT va) ->
  store w !! dihedral_angles b = Some (FloatT vd) ->
  forward self b w = (Ok enc, w') ->
  exists graph_idx bond_batch angle_batch new,
    arange (num_graphs b) = Ok graph_idx /\
    repeat_interleave graph_idx (num_bonds b) = Ok bond_batch /\
    (without_dihedral self = false ->
     repeat_interleave graph_idx (num_angles b) = Ok angle_batch) /\
    calls w' = calls w ++ new /\
    pass_signature <$> new
    = seq 0 (n_layers self) ≫= layer_passes self b bond_batch angle_batch.
Proof.
  intros Hx Hba Hbl Hang Hdih H.
  pose proof (mask_attr_calls self (x b) (bond_attr b) (bond_lengths b)
                (bond_angles b) (dihedral_angles b) (masked_atom_indices b)
                (masked_bond_indices b) (masked_angle_indices b)
                (masked_dihedral_indices b) w) as Hcalls.
  destruct (without_dihedral self) eqn:Hwd.
  - apply forward_without_ok in H
      as (x' & ba' & bl' & ang' & dih' & w1 & node_hidden & bond_hidden
          & graph_idx & bond_batch & nl & el & Hmask & Ha & Hb & Hloop & _);
      [|done].
    rewrite Hmask in Hcalls. simpl in Hcalls.
    destruct (mask_attr_contents self b w w1 _ _ _ _ _ nx nb rx rb vl va vd
                Hx Hba Hbl Hang Hdih Hmask)
      as (rx' & rb' & vl' & va' & vd' & (Lx & Lba & Lbl & Lang & Ldih) & _).
    destruct (loop_without_dihedral_states self b ba' bl' ang' _ _ _ bond_batch
                (n_layers self) node_hidden bond_hidden nl el w1 w'
                Lba Lbl Lang Hloop)
      as (_ & h & css & _ & _ & Hc & Hlen & Hcss).
    exists graph_idx, bond_batch, [], (concat css).
    split; [done|]. split; [done|]. split; [done|].
    split; [by rewrite Hc, Hcalls|].
    rewrite <- Hlen. apply signatures_concat. intros l cs Hl.
    destruct (Hcss l cs Hl) as (hl & _ & Hcs).
    by eapply calls_without_dihedral_signature.
  - apply forward_with_ok in H
      as (x' & ba' & bl' & ang' & dih' & w1 & node_hidden & bond_hidden
          & angle_hidden & vang & graph_idx & bond_batch & angle_batch & nl & el
          & al & a & d & Hmask & _ & Ha & Hb & Hb' & Hloop & _); [|done].
    rewrite Hmask in Hcalls. simpl in Hcalls.
    destruct (mask_attr_contents self b w w1 _ _ _ _ _ nx nb rx rb vl va vd
                Hx Hba Hbl Hang Hdih Hmask)
      as (rx' & rb' & vl' & va' & vd' & (Lx & Lba & Lbl & Lang & Ldih) & _).
    destruct (loop_with_dihedral_states self b ba' bl' ang' dih' _ _ _ _
                bond_batch angle_batch (n_layers self) node_hidden bond_hidden
                angle_hidden nl el al (Some d) w1 w' Lba Lbl Lang Ldih Hloop)
      as (_ & h & css & _ & _ & _ & _ & Hc & Hlen & Hcss).
    exists graph_idx, bond_batch, angle_batch, (concat css).
    split; [done|]. split; [done|]. split; [done|].
    split; [by rewrite Hc, Hcalls|].
    rewrite <- Hlen. apply signatures_concat. intros l cs Hl.
    destruct (Hcss l cs Hl) as (hl & _ & Hcs).
    by eapply calls_with_dihedral_signature.
Qed.

Lemma forward_passes_in_order_witness :
  exists enc w' new,
    forward (Demo.encoder 2 false) Demo.pair Demo.pair_world = (Ok enc, w') /\
    calls w' = new /\
    pass_signature <$> new
    = seq 0 2 ≫= layer_passes (Demo.encoder 2 false) Demo.pair
                   [0; 0; 1; 1; 1; 1] [0; 1; 1; 1].
Proof.
  destruct (forward (Demo.encoder 2 false) Demo.pair Demo.pair_world)
    as [[enc|e] w'] eqn:H; [|vm_compute in H; discriminate H].
  exists enc, w', (calls w'). split; [reflexivity|]. split; [reflexivity|].
  destruct (forward_passes_in_order (Demo.encoder 2 false) Demo.pair
              Demo.pair_world w' enc 2 1
              [[1; 0]; [2; 1]; [1; 1]; [3; 0]; [1; 0]; [1; 1]; [2; 0]; [4; 1]]
              [[0]; [1]; [0]; [0]; [2]; [1]]
              [Demo.of_Z 3; Demo.of_Z 2; Demo.of_Z 3; Demo.of_Z 1; Demo.of_Z 2;
               Demo.of_Z 2]
              [Demo.of_Z 2; Demo.of_Z 2; Demo.of_Z 1; Demo.of_Z 3]
              [Demo.of_Z 1; Demo.of_Z 1]
              eq_refl eq_refl eq_refl eq_refl eq_refl H)
    as (graph_idx & bond_batch & angle_batch & new & Ha & Hb & Hb' & Hc & Hs).
  injection Ha as <-. injection Hb as <-. specialize (Hb' eq_refl).
  injection Hb' as <-. rewrite Hc. exact Hs.
Defined.

(** X3. The values at the masked positions do not reach the encoder: on two
    states whose five tensors (the feature matrices rectangular) agree at
    every position the masked index sets do not address, the forward pass
    returns the same encoding, or returns in neither. *)
Theorem forward_ignores_masked_values (self : EGeoGNNModel) (b : batch)
    (w1 w2 : world) (enc : encoding)
    (nx nb : nat) (rx1 rb1 rx2 rb2 : list (list Z)) (vl1 va1 vd1 vl2 va2 vd2 : vec) :
  store w1 !! x b = Some (LongT nx rx1) ->
  store w1 !! bond_attr b = Some (LongT nb rb1) ->
  store w1 !! bond_lengths b = Some (FloatT vl1) ->
  store w1 !! bond_angles b = Some (FloatT va1) ->
  store w1 !! dihedral_angles b = Some (FloatT vd1) ->
  store w2 !! x b = Some (LongT nx rx2) ->
  store w2 !! bond_attr b = Some (LongT nb rb2) ->
  store w2 !! bond_lengths b = Some (FloatT vl2) ->
  store w2 !! bond_angles b = Some (FloatT va2) ->
  store w2 !! dihedral_angles b = Some (FloatT vd2) ->
  rectangular nx rx1 -> rectangular nx rx2 ->
  rectangular nb rb1 -> rectangular nb rb2 ->
  agree_off (masked_atom_indices b) rx1 rx2 ->
  agree_off (masked_bond_indices b) rb1 rb2 ->
  agree_off (masked_bond_indices b) vl1 vl2 ->
  agree_off (masked_angle_indices b) va1 va2 ->
  agree_off (masked_dihedral_indices b) vd1 vd2 ->
  (exists w', forward self b w1 = (Ok enc, w')) <->
  (exists w', forward self b w2 = (Ok enc, w')).
Proof.
  intros Hx1 Hba1 Hbl1 Hang1 Hdih1 Hx2 Hba2 Hbl2 Hang2 Hdih2 Rx1 Rx2 Rb1 Rb2
    Ax Ab Al Aa Ad.
  assert (Heq : encoding_of_batch self b nx rx1 nb rb1 vl1 va1 vd1
                = encoding_of_batch self b nx rx2 nb rb2 vl2 va2 vd2).
  { unfold encoding_of_batch.
    rewrite (masked_matrix_agree _ _ _ _ _ Rx1 Rx2 Ax).
    rewrite (masked_matrix_agree _ _ _ _ _ Rb1 Rb2 Ab).
    by rewrite (masked_vector_agree _ _ _ Al), (masked_vector_agree _ _ _ Aa),
      (masked_vector_agree _ _ _ Ad). }
  split; intros [w' H].
  - eapply forward_complete; try done. rewrite <- Heq. by eapply forward_sound.
  - eapply forward_complete; try done. rewrite Heq. by eapply forward_sound.
Qed.

Lemma forward_ignores_masked_values_witness :
  exists enc w1' w2',
    forward (Demo.encoder 2 false) Variant.masked_chain Demo.chain_world
    = (Ok enc, w1') /\
    forward (Demo.encoder 2 false) Variant.masked_chain Variant.varied_world
    = (Ok enc, w2').
Proof.
  destruct (forward (Demo.encoder 2 false) Variant.masked_chain Demo.chain_world)
    as [[enc|e] w1'] eqn:H; [|vm_compute in H; discriminate H].
  exists enc, w1'.
  assert (Hmasked : forall n i r, norm_index n i = Some r ->
            addressed n (Some [i]) r).
  { intros n i r Hn. exists [i], i. split; [done|]. split; [left | done]. }
  destruct (proj1 (forward_ignores_masked_values (Demo.encoder 2 false)
              Variant.masked_chain Demo.chain_world Variant.varied_world enc 2 1
              [[1; 0]; [2; 1]; [1; 1]; [3; 0]] [[0]; [1]; [0]]
              [[1; 0]; [9; 4]; [1; 1]; [3; 0]] [[3]; [1]; [0]]
              [Demo.of_Z 3; Demo.of_Z 2; Demo.of_Z 3] [Demo.of_Z 2; Demo.of_Z 2]
              [Demo.of_Z 1]
              [Demo.of_Z 8; Demo.of_Z 2; Demo.of_Z 3] [Demo.of_Z 2; Demo.of_Z 5]
              [Demo.of_Z 1]
              eq_refl eq_refl eq_refl eq_refl eq_refl
              eq_refl eq_refl eq_refl eq_refl eq_refl
              ltac:(repeat constructor) ltac:(repeat constructor)
              ltac:(repeat constructor) ltac:(repeat constructor)
              ltac:(split; [reflexivity|]; intros [|[|r]] Hr;
                    [reflexivity | exfalso; apply Hr, Hmasked; reflexivity
                    | reflexivity])
              ltac:(split; [reflexivity|]; intros [|r] Hr;
                    [exfalso; apply Hr, Hmasked; reflexivity | reflexivity])
              ltac:(split; [reflexivity|]; intros [|r] Hr;
                    [exfalso; apply Hr, Hmasked; reflexivity | reflexivity])
              ltac:(split; [reflexivity|]; intros [|[|r]] Hr;
                    [reflexivity | exfalso; apply Hr, Hmasked; reflexivity
                    | reflexivity])
              ltac:(split; [reflexivity|]; intros r Hr; reflexivity))
            (ex_intro _ w1' H)) as [w2' H2].
  exists w2'. split; [reflexivity | exact H2].
Defined.

(** X4. The forward pass never mutates a tensor of the caller: every tensor
    object that exists before the call has the same contents after it,
    whether the call returns or raises. *)
Theorem forward_keeps_inputs (self : EGeoGNNModel) (b : batch) (w : world) (l : loc) :
  is_Some (store w !! l) ->
  store (forward self b w).2 !! l = store w !! l.
Proof.
  intros [v Hv]. rewrite forward_store.
  destruct (kept_mask_attr (store w) (calls w) self (x b) (bond_attr b)
              (bond_lengths b) (bond_angles b) (dihedral_angles b)
              (masked_atom_indices b) (masked_bond_indices b)
              (masked_angle_indices b) (masked_dihedral_indices b) w)
    as [[H _] _]; [by split|].
  rewrite Hv. eapply lookup_weaken; [exact Hv | exact H].
Qed.

Lemma forward_keeps_inputs_witness :
  store (forward (Demo.encoder 2 false) Variant.masked_chain Demo.chain_world).2
    !! Demo.bond_lengths_ref
  = Some (FloatT [Demo.of_Z 3; Demo.of_Z 2; Demo.of_Z 3]).
Proof.
  rewrite (forward_keeps_inputs (Demo.encoder 2 false) Variant.masked_chain
             Demo.chain_world Demo.bond_lengths_ref).
  - reflexivity.
  - eexists. reflexivity.
Defined.

(** X5. An encoder with dihedral angles and no layer never returns from a
    forward pass: dihedral_repr is the local cur_dihedral_hidden, which only
    the loop body assigns. *)
Theorem forward_with_dihedral_needs_a_layer (self : EGeoGNNModel) (b : batch)
    (w w' : world) (enc : encoding) :
  without_dihedral self = false -> n_layers self = 0%nat ->
  forward self b w <> (Ok enc, w').
Proof.
  intros Hwd Hn H.
  apply forward_with_ok in H
    as (x' & ba' & bl' & ang' & dih' & w1 & node_hidden & bond_hidden
        & angle_hidden & vang & graph_idx & bond_batch & angle_batch & nl & el
        & al & a & d & _ & _ & _ & _ & _ & Hloop & _); [|done].
  rewrite Hn in Hloop. simpl in Hloop. by injection Hloop.
Qed.

Lemma forward_with_dihedral_needs_a_layer_witness :
  ~ exists enc w',
      forward (Demo.encoder 0 false) (Demo.chain [3] None None None None)
        Demo.chain_world = (Ok enc, w').
Proof.
  intros (enc & w' & H).
  exact (forward_with_dihedral_needs_a_layer (Demo.encoder 0 false)
           (Demo.chain [3] None None None None) Demo.chain_world w' enc
           eq_refl eq_refl H).
Defined.

(** X6. A forward pass returns only if num_graphs is not negative and
    num_bonds (in the variant with dihedral angles, also num_angles) holds
    either one count or one count per graph, none of them negative when the
    batch has a graph. *)
Theorem forward_needs_counts_per_graph (self : EGeoGNNModel) (b : batch)
    (w w' : world) (enc : encoding) :
  forward self b w = (Ok enc, w') ->
  0 <= num_graphs b /\
  counts_per_graph (num_graphs b) (num_bonds b) /\
  (without_dihedral self = false -> counts_per_graph (num_graphs b) (num_angles b)).
Proof.
  intros H. destruct (without_dihedral self) eqn:Hwd.
  - apply forward_without_ok in H
      as (x' & ba' & bl' & ang' & dih' & w1 & node_hidden & bond_hidden
          & graph_idx & bond_batch & nl & el & _ & Ha & Hb & _); [|done].
    split; [by apply arange_ok in Ha as [? _]|].
    split; [by eapply counts_per_graph_ok | done].
  - apply forward_with_ok in H
      as (x' & ba' & bl' & ang' & dih' & w1 & node_hidden & bond_hidden
          & angle_hidden & vang & graph_idx & bond_batch & angle_batch & nl & el
          & al & a & d & _ & _ & Ha & Hb & Hb' & _); [|done].
    split; [by apply arange_ok in Ha as [? _]|].
    split; [by eapply counts_per_graph_ok|]. intros _.
    by eapply counts_per_graph_ok.
Qed.

Lemma forward_needs_counts_per_graph_witness :
  exists enc w',
    forward (Demo.encoder 1 false) Demo.pair Demo.pair_world = (Ok enc, w') /\
    counts_per_graph 2 [2; 4] /\ counts_per_graph 2 [1; 3].
Proof.
  destruct (forward (Demo.encoder 1 false) Demo.pair Demo.pair_world)
    as [[enc|e] w'] eqn:H; [|vm_compute in H; discriminate H].
  exists enc, w'. split; [reflexivity|].
  destruct (forward_needs_counts_per_graph (Demo.encoder 1 false) Demo.pair
              Demo.pair_world w' enc H) as (_ & Hb & Ha).
  split; [exact Hb | exact (Ha eq_refl)].
Defined.

(** * The pretraining heads and [EGEM.forward] *)

(** ** Index selection *)

Lemma mapM_raises {A B} (f : A -> result B) (xs : list A) (e : exn) :
  (forall a e', f a = Raise e' -> e' = e) ->
  forall e', mapM f xs = Raise e' -> e' = e.
Proof.
  intros Hf. induction xs as [|a xs IH]; intros e'; simpl; [done|].
  destruct (f a) as [y|e1] eqn:Ef; simpl.
  - destruct (mapM f xs) as [ys|e2]; simpl; [done|]. intros [= <-]. by apply IH.
  - intros [= <-]. by apply (Hf a).
Qed.

(** [index_select] raises IndexError and nothing else, and it raises when
    an index is outside [0, n). *)
Lemma index_select_out_of_range {A} (t : list A) (ids : indices) (i : Z) :
  i ∈ ids -> ~ (0 <= i < Z.of_nat (length t)) ->
  index_select t ids = Raise IndexError.
Proof.
  intros Hi Hout.
  destruct (index_select t ids) as [rows|e] eqn:H.
  - exfalso. unfold index_select in H. apply mapM_Forall2 in H.
    apply list_elem_of_lookup in Hi as [k Hk].
    destruct (Forall2_lookup_l _ _ _ k i H Hk) as (a & _ & Ha).
    unfold select_index in Ha. by rewrite decide_False in Ha.
  - f_equal. unfold index_select in H. eapply mapM_raises; [|exact H].
    intros j e'. unfold select_index. case_decide; simpl.
    + destruct (t !! Z.to_nat j); [done|]. by intros [= <-].
    + by intros [= <-].
Qed.

Lemma select_edges_out_of_range (E : edges) (ids : indices) (i : Z) :
  i ∈ ids -> ~ (0 <= i < Z.of_nat (length E)) ->
  select_edges E ids = Raise RuntimeError.
Proof.
  intros Hi Hout. unfold select_edges.
  by rewrite (index_select_out_of_range E ids i Hi Hout).
Qed.

Lemma target_column_one (v : vec) (p : Z) (q : Qc) :
  holds_at v p q -> target_column v [p] = Ok [[q]].
Proof.
  intros [Hp Hq]. unfold target_column, norm_indices, norm_index. simpl.
  pose proof (lookup_lt_Some _ _ _ Hq) as Hlt.
  rewrite decide_True by lia. simpl. unfold list_get. by rewrite Hq.
Qed.

(** The entries of the breakdown. *)
Lemma foldl_insert_notin (kvs : list (string * Qc)) (k : string) :
  forall d : loss_dict,
  k ∉ kvs.*1 -> foldl (fun d kv => <[kv.1 := kv.2]> d) d kvs !! k = d !! k.
Proof.
  induction kvs as [|[k0 v0] kvs IH]; intros d Hk; [done|].
  simpl in *. apply not_elem_of_cons in Hk as [Hne Hk].
  rewrite IH by done. by apply lookup_insert_ne.
Qed.

Lemma foldl_insert_lookup (kvs : list (string * Qc)) :
  forall (d : loss_dict) (i : nat) (k : string) (v : Qc),
  NoDup kvs.*1 -> kvs !! i = Some (k, v) ->
  foldl (fun d kv => <[kv.1 := kv.2]> d) d kvs !! k = Some v.
Proof.
  induction kvs as [|[k0 v0] kvs IH]; intros d i k v Hnd Hi; [done|].
  simpl in Hnd. apply NoDup_cons in Hnd as [Hk0 Hnd]. destruct i as [|i]; simpl in *.
  - injection Hi as -> ->. rewrite foldl_insert_notin by done.
    apply lookup_insert_eq.
  - by apply (IH _ i).
Qed.

Lemma NoDup_fmap_filter {A B} (f : A -> B) (P : A -> Prop)
    `{forall a, Decision (P a)} (l : list A) :
  NoDup (f <$> l) -> NoDup (f <$> filter P l).
Proof.
  induction l as [|a l IH]; [done|]. simpl. intros Hnd.
  apply NoDup_cons in Hnd as [Ha Hnd]. rewrite filter_cons.
  destruct (decide (P a)); [|by apply IH].
  simpl. apply NoDup_cons. split; [|by apply IH].
  intros Hin. apply Ha. apply list_elem_of_fmap in Hin as (a' & -> & Hin).
  apply list_elem_of_fmap. exists a'. split; [done|].
  by apply list_elem_of_filter in Hin as [_ Hin].
Qed.

Lemma task_losses_keys (self : EGEM) (bl ba da : vec) (AB : edges)
    (atom_attr : tensor) (BA AD : edges) (cm5 espc hirshfeld npa orders : vec)
    (ma mb mg md : option indices) :
  (fun e => e.1.2) <$> task_losses self bl ba da AB atom_attr BA AD cm5 espc
                         hirshfeld npa orders ma mb mg md
  = loss_tasks.*2.
Proof. reflexivity. Qed.

Lemma loss_keys_NoDup : NoDup loss_tasks.*2.
Proof.
  unfold loss_tasks. simpl.
  repeat (apply NoDup_cons; split;
          [rewrite ?elem_of_cons, elem_of_nil; intros H;
           repeat (destruct H as [H|H]; [discriminate H|]); exact H|]).
  apply NoDup_nil_2.
Qed.

Lemma loss_keys_not_loss (k : string) : k ∈ loss_tasks.*2 -> k <> "loss".
Proof.
  unfold loss_tasks. simpl. rewrite !elem_of_cons, elem_of_nil. intros H ->.
  repeat (destruct H as [H|H]; [discriminate H|]). exact H.
Qed.

(** ** The state after a forward pass *)

Lemma forward_frame (self : EGeoGNNModel) (b : batch) (w : world) (l : loc) (v : tval) :
  store w !! l = Some v -> store (forward self b w).2 !! l = Some v.
Proof.
  intros Hv. rewrite forward_store.
  destruct (kept_mask_attr (store w) (calls w) self (x b) (bond_attr b)
              (bond_lengths b) (bond_angles b) (dihedral_angles b)
              (masked_atom_indices b) (masked_bond_indices b)
              (masked_angle_indices b) (masked_dihedral_indices b) w)
    as [[H _] _]; [by split|].
  eapply lookup_weaken; [exact Hv | exact H].
Qed.

Lemma float_tensor_returns (l : loc) (xs : vec) (w : world) :
  store w !! l = Some (FloatT xs) -> float_tensor l w = (Ok xs, w).
Proof. intros H. unfold float_tensor. rewrite bind_run. unfold read. by rewrite H. Qed.

Lemma float_tensor_ok (l : loc) (xs : vec) (w w' : world) :
  float_tensor l w = (Ok xs, w') -> w' = w /\ store w !! l = Some (FloatT xs).
Proof.
  unfold float_tensor. intros H. apply bind_ok in H as (v & w1 & Hr & H).
  apply read_ok in Hr as [Hv ->]. destruct v as [n rows|ys]; [done|].
  by injection H as <- <-.
Qed.

(** [EGEM.forward] returns the loss of the node representations against the
    tensors of the caller. *)
Lemma EGEM_forward_ok (self : EGEM) (b : batch) (t : labels) (w w' : world)
    (r : pyloss * loss_dict) :
  EGEM_forward self b t w = (Ok r, w') ->
  exists enc vl va vd,
    forward (compound_encoder self) b w = (Ok enc, w') /\
    store w' !! bond_lengths b = Some (FloatT vl) /\
    store w' !! bond_angles b = Some (FloatT va) /\
    store w' !! dihedral_angles b = Some (FloatT vd) /\
    compute_loss self vl va vd (AtomBondGraph_edges b) (node_repr enc)
      (BondAngleGraph_edges b) (AngleDihedralGraph_edges b)
      (cm5_charges t) (espc_charges t) (hirshfeld_charges t) (npa_charges t)
      (bond_orders t)
      (masked_atom_indices b) (masked_bond_indices b)
      (masked_angle_indices b) (masked_dihedral_indices b) = Ok r.
Proof.
  unfold EGEM_forward. intros H.
  apply bind_ok in H as (enc & w1 & Hf & H).
  apply bind_ok in H as (vl & w2 & H1 & H). apply float_tensor_ok in H1 as [-> H1].
  apply bind_ok in H as (va & w2 & H2 & H). apply float_tensor_ok in H2 as [-> H2].
  apply bind_ok in H as (vd & w2 & H3 & H). apply float_tensor_ok in H3 as [-> H3].
  apply lift_ok in H as [H ->]. by exists enc, vl, va, vd.
Qed.

(** * Properties of the pretraining heads *)

(** X7. In a chain i-j-k whose bonds (i,j), (j,k) stand at the positions b0,
    b1 of the atom-bond table and whose angle (b0,b1) stands at position a
    of the bond-angle table, the index resolution of [_get_Bar_loss] for the
    masked angle a yields the atoms i, j, k in this order; the head is
    applied to the rows of these atoms concatenated in this order, and its
    prediction is compared with the bond angle at position a. *)
Theorem Bar_chain_resolves_in_order
    (AtomBond BondAngle : edges) (i j k b0 b1 a : Z)
    (atom_attr : tensor) (ri rj rk : list Qc) (h : head) (angles : vec) (q : Qc) :
  holds_at AtomBond b0 (i, j) ->
  holds_at AtomBond b1 (j, k) ->
  holds_at BondAngle a (b0, b1) ->
  holds_at atom_attr i ri -> holds_at atom_attr j rj -> holds_at atom_attr k rk ->
  holds_at angles a q ->
  Bar_atom_indices AtomBond BondAngle [a] = Ok ([i], [j], [k]) /\
  _get_Bar_loss (Some h) atom_attr angles AtomBond BondAngle (Some [a])
  = (pred ← head_mlp h [ri ++ rj ++ rk]; head_loss h pred [[q]]).
Proof.
  intros B0 B1 A Ri Rj Rk Q.
  assert (Hres : Bar_atom_indices AtomBond BondAngle [a] = Ok ([i], [j], [k])).
  { unfold Bar_atom_indices.
    rewrite (select_edges_one _ _ _ _ A). simpl.
    rewrite (select_edges_one _ _ _ _ B0). simpl.
    by rewrite (select_edges_one _ _ _ _ B1). }
  split; [exact Hres|].
  unfold _get_Bar_loss. simpl. rewrite Hres. simpl.
  rewrite (index_select_one _ _ _ Ri), (index_select_one _ _ _ Rj),
    (index_select_one _ _ _ Rk).
  simpl. unfold cat2. simpl. rewrite (target_column_one _ _ _ Q).
  by rewrite <- !(assoc_L (++)).
Qed.

Lemma Bar_chain_resolves_in_order_witness :
  Bar_atom_indices [(0, 1); (1, 2); (2, 3)] [(0, 1); (1, 2)] [1]
  = Ok ([1], [2], [3]).
Proof.
  refine (proj1 (Bar_chain_resolves_in_order
            [(0, 1); (1, 2); (2, 3)] [(0, 1); (1, 2)]
            1 2 3 1 2 1 Demo.atom_attr
            [Demo.of_Z 7; Demo.of_Z 3] [Demo.of_Z 8; Demo.of_Z 2]
            [Demo.of_Z 8; Demo.of_Z 3]
            (Head Demo.sum_mlp Demo.square_loss) [Demo.of_Z 2; Demo.of_Z 2]
            (Demo.of_Z 2) _ _ _ _ _ _ _));
    (split; [lia | reflexivity]).
Defined.

(** X8. For a masked bond at position p of the atom-bond table, with ends
    (i, j), [_get_Blr_loss] applies its head to the row of atom i followed by
    the row of atom j and compares the prediction with the bond length at
    position p; [_get_wiberg_loss] does the same with its own head and the
    bond orders. *)
Theorem Blr_resolves_bond_ends
    (AtomBond : edges) (i j p : Z) (atom_attr : tensor) (ri rj : list Qc)
    (h : head) (values : vec) (q : Qc) :
  holds_at AtomBond p (i, j) ->
  holds_at atom_attr i ri -> holds_at atom_attr j rj ->
  holds_at values p q ->
  Blr_atom_indices AtomBond [p] = Ok ([i], [j]) /\
  _get_Blr_loss (Some h) atom_attr values AtomBond (Some [p])
  = (pred ← head_mlp h [ri ++ rj]; head_loss h pred [[q]]) /\
  _get_wiberg_loss (Some h) atom_attr values AtomBond (Some [p])
  = (pred ← head_mlp h [ri ++ rj]; head_loss h pred [[q]]).
Proof.
  intros B Ri Rj Q.
  assert (Hres : Blr_atom_indices AtomBond [p] = Ok ([i], [j]))
    by apply (select_edges_one _ _ _ _ B).
  split; [exact Hres|].
  unfold _get_Blr_loss, _get_wiberg_loss. simpl. rewrite Hres.
  unfold Blr_atom_indices in Hres. rewrite Hres. simpl.
  rewrite (index_select_one _ _ _ Ri), (index_select_one _ _ _ Rj).
  simpl. unfold cat2. simpl. by rewrite (target_column_one _ _ _ Q).
Qed.

Lemma Blr_resolves_bond_ends_witness :
  Blr_atom_indices [(0, 1); (1, 2); (2, 3)] [2] = Ok ([2], [3]).
Proof.
  refine (proj1 (Blr_resolves_bond_ends
            [(0, 1); (1, 2); (2, 3)] 2 3 2 Demo.atom_attr
            [Demo.of_Z 8; Demo.of_Z 2] [Demo.of_Z 8; Demo.of_Z 3]
            (Head Demo.sum_mlp Demo.square_loss)
            [Demo.of_Z 3; Demo.of_Z 2; Demo.of_Z 3] (Demo.of_Z 3) _ _ _ _));
    (split; [lia | reflexivity]).
Defined.

(** X9. The four charge heads (CM5, ESPC, Hirshfeld, NPA) share one body:
    for a masked atom p the head is applied to the row of atom p alone, and
    its prediction is compared with the charge of atom p. *)
Theorem charge_loss_of_masked_atom
    (atom_attr : tensor) (p : Z) (rp : list Qc) (h : head) (charges : vec) (q : Qc) :
  holds_at atom_attr p rp -> holds_at charges p q ->
  _get_charge_loss (Some h) atom_attr charges (Some [p])
  = (pred ← head_mlp h [rp]; head_loss h pred [[q]]).
Proof.
  intros R Q. unfold _get_charge_loss. simpl.
  rewrite (index_select_one _ _ _ R). simpl.
  by rewrite (target_column_one _ _ _ Q).
Qed.

Lemma charge_loss_of_masked_atom_witness :
  _get_charge_loss (Some (Head Demo.sum_mlp Demo.square_loss)) Demo.atom_attr
    [Demo.of_Z 0; Demo.of_Z 4; Demo.of_Z 0; Demo.of_Z 0] (Some [1])
  = (pred ← Demo.sum_mlp [[Demo.of_Z 7; Demo.of_Z 3]];
     Demo.square_loss pred [[Demo.of_Z 4]]).
Proof.
  apply (charge_loss_of_masked_atom Demo.atom_attr 1 [Demo.of_Z 7; Demo.of_Z 3]
           (Head Demo.sum_mlp Demo.square_loss)
           [Demo.of_Z 0; Demo.of_Z 4; Demo.of_Z 0; Demo.of_Z 0] (Demo.of_Z 4));
    (split; [lia | reflexivity]).
Defined.

(** X10. The four index sets of [compute_loss] default to None, and no
    default is usable: called with the four index sets None and a task list
    that names a task with a block, [compute_loss] raises TypeError, at the
    first listed task. *)
Theorem compute_loss_default_indices_raise (self : EGEM) (bl ba da : vec)
    (AB : edges) (atom_attr : tensor) (BA AD : edges)
    (cm5 espc hirshfeld npa orders : vec) (t : string) :
  t ∈ loss_tasks.*1 -> t ∈ pretrain_tasks self ->
  compute_loss self bl ba da AB atom_attr BA AD cm5 espc hirshfeld npa orders
    None None None None = Raise TypeError.
Proof.
  intros Ht Hin. unfold compute_loss.
  repeat match goal with
  | |- context [task_block self ?task ?key ?g ?st] =>
      let Ha := fresh "Ha" in
      let Hn := fresh "Hn" in
      destruct (decide (task ∈ pretrain_tasks self)) as [Ha|Hn];
      [ by rewrite (task_block_active self task key g st Ha)
      | rewrite (task_block_inactive self task key g st Hn), result_bind_ok ]
  end.
  exfalso. revert Ht. unfold loss_tasks. simpl.
  rewrite !elem_of_cons, elem_of_nil. intros H.
  repeat (destruct H as [H|H]; [by subst t|]). exact H.
Qed.

Lemma compute_loss_default_indices_raise_witness :
  Demo.chain_loss ["Adc"; "NPA"] None None None None = Raise TypeError.
Proof.
  apply (compute_loss_default_indices_raise _ _ _ _ _ _ _ _ _ _ _ _ _ "NPA").
  - unfold loss_tasks. simpl. rewrite !elem_of_cons. tauto.
  - change ("NPA" ∈ ["Adc"; "NPA"]). rewrite !elem_of_cons. tauto.
Defined.

(** X11. What a returning call of [compute_loss] returns.  With [values]
    the losses of the listed tasks among the eight that have a block, in the
    order of the source: the loss is their unweighted sum; the breakdown
    holds the loss of every such task under the key of the task and the sum
    under the key "loss", and it has no other key. *)
Theorem compute_loss_breakdown (self : EGEM) (bl ba da : vec) (AB : edges)
    (atom_attr : tensor) (BA AD : edges) (cm5 espc hirshfeld npa orders : vec)
    (ma mb mg md : option indices) (loss : pyloss) (d : loss_dict) :
  compute_loss self bl ba da AB atom_attr BA AD cm5 espc hirshfeld npa orders
    ma mb mg md = Ok (loss, d) ->
  let entries := active_entries self
                   (task_losses self bl ba da AB atom_attr BA AD cm5 espc
                      hirshfeld npa orders ma mb mg md) in
  exists values,
    Forall2 (fun e v => e.2 = Ok v) entries values /\
    entries <> [] /\
    loss = PyTensor (total_loss values) /\
    d !! "loss" = Some (total_loss values) /\
    (forall i e v, entries !! i = Some e -> values !! i = Some v ->
                   d !! e.1.2 = Some v) /\
    dom d = list_to_set (map (fun e => e.1.2) entries) ∪ {["loss"]}.
Proof.
  intros H entries. rewrite compute_loss_table in H.
  destruct (run_blocks _ _ _) as [[loss' d']|e] eqn:Hrun; [|done].
  rewrite result_bind_ok in H. simpl in H.
  destruct (run_blocks_ok _ _ _ _ Hrun) as (values & Hall & Hloss & Hdict).
  fold entries in Hall, Hdict. simpl in Hloss, Hdict.
  destruct values as [|v values].
  { simpl in Hloss. subst loss'. done. }
  rewrite foldl_loss_iadd_int in Hloss by done. subst loss'. simpl in H.
  injection H as <- <-. exists (v :: values).
  pose proof (Forall2_length _ _ _ Hall) as Hlen.
  assert (Hkeys : map (fun e => e.1.2) entries ⊆ loss_tasks.*2).
  { intros k Hk. apply list_elem_of_fmap in Hk as (e & -> & He).
    apply list_elem_of_filter in He as [_ He].
    rewrite <- (task_losses_keys self bl ba da AB atom_attr BA AD cm5 espc
                  hirshfeld npa orders ma mb mg md).
    apply list_elem_of_fmap. by exists e. }
  split; [done|]. split; [|split; [done|split; [|split]]].
  - intros Hnil. rewrite Hnil in Hall. inversion Hall.
  - apply lookup_insert_eq.
  - intros i e w He Hw.
    rewrite lookup_insert_ne; last first.
    { apply not_eq_sym, loss_keys_not_loss, Hkeys.
      apply list_elem_of_fmap. exists e. split; [done|].
      by apply list_elem_of_lookup_2 in He. }
    rewrite Hdict. apply (foldl_insert_lookup _ _ i).
    + rewrite fst_zip by (rewrite length_map; lia).
      apply (NoDup_fmap_filter (fun e => e.1.2)).
      rewrite task_losses_keys. apply loss_keys_NoDup.
    + rewrite lookup_zip_with, list_lookup_fmap, He. simpl. by rewrite Hw.
  - rewrite dom_insert_L, Hdict, foldl_insert_dom, dom_empty_L.
    rewrite fst_zip by (rewrite length_map; lia).
    set_solver.
Qed.

Lemma compute_loss_breakdown_witness :
  exists loss d values,
    Demo.chain_loss ["CM5"; "Blr"] (Some [0]) (Some [1]) None None = Ok (loss, d) /\
    length values = 2%nat /\
    loss = PyTensor (total_loss values) /\
    d !! "loss" = Some (total_loss values) /\
    d !! "bond_length_loss" = values !! 0%nat /\
    d !! "cm5_charge_loss" = values !! 1%nat.
Proof.
  destruct (Demo.chain_loss ["CM5"; "Blr"] (Some [0]) (Some [1]) None None)
    as [[loss d]|e] eqn:H; [|vm_compute in H; discriminate H].
  unfold Demo.chain_loss in H.
  destruct (compute_loss_breakdown _ _ _ _ _ _ _ _ _ _ _ _ _ _ _ _ _ _ _ H)
    as (values & Hall & _ & Hloss & Htotal & Hvals & _).
  exists loss, d, values. split; [reflexivity|].
  pose proof (Forall2_length _ _ _ Hall) as Hlen.
  destruct values as [|v0 [|v1 [|v2 values]]]; try discriminate Hlen.
  split; [reflexivity|]. split; [exact Hloss|]. split; [exact Htotal|].
  split; [exact (Hvals 0%nat _ v0 eq_refl eq_refl)
         | exact (Hvals 1%nat _ v1 eq_refl eq_refl)].
Defined.

(** ** Negative indices in the heads *)

Lemma Blr_loss_negative h atom_attr values E (ids : indices) (i : Z) :
  i ∈ ids -> i < 0 -> _get_Blr_loss h atom_attr values E (Some ids) = Raise RuntimeError.
Proof.
  intros Hi Hneg. unfold _get_Blr_loss, Blr_atom_indices. simpl.
  by rewrite (select_edges_out_of_range E ids i) by (done || lia).
Qed.

Lemma wiberg_loss_negative h atom_attr values E (ids : indices) (i : Z) :
  i ∈ ids -> i < 0 ->
  _get_wiberg_loss h atom_attr values E (Some ids) = Raise RuntimeError.
Proof.
  intros Hi Hneg. unfold _get_wiberg_loss. simpl.
  by rewrite (select_edges_out_of_range E ids i) by (done || lia).
Qed.

Lemma Bar_loss_negative h atom_attr values AB BA (ids : indices) (i : Z) :
  i ∈ ids -> i < 0 ->
  _get_Bar_loss h atom_attr values AB BA (Some ids) = Raise RuntimeError.
Proof.
  intros Hi Hneg. unfold _get_Bar_loss, Bar_atom_indices. simpl.
  by rewrite (select_edges_out_of_range BA ids i) by (done || lia).
Qed.

Lemma Dar_loss_negative h atom_attr values AB BA AD (ids : indices) (i : Z) :
  i ∈ ids -> i < 0 ->
  _get_Dar_loss h atom_attr values AB BA AD (Some ids) = Raise RuntimeError.
Proof.
  intros Hi Hneg. unfold _get_Dar_loss, Dar_atom_indices. simpl.
  by rewrite (select_edges_out_of_range AD ids i) by (done || lia).
Qed.

Lemma charge_loss_negative h (atom_attr : tensor) values (ids : indices) (i : Z) :
  i ∈ ids -> i < 0 ->
  _get_charge_loss h atom_attr values (Some ids) = Raise IndexError.
Proof.
  intros Hi Hneg. unfold _get_charge_loss. simpl.
  by rewrite (index_select_out_of_range atom_attr ids i) by (done || lia).
Qed.

(** A block whose task is listed and whose head raises keeps [compute_loss]
    from returning. *)
Lemma compute_loss_block_raises (self : EGEM) (bl ba da : vec) (AB : edges)
    (atom_attr : tensor) (BA AD : edges) (cm5 espc hirshfeld npa orders : vec)
    (ma mb mg md : option indices) (k : nat) (task key : string) (e : exn)
    (r : pyloss * loss_dict) :
  task_losses self bl ba da AB atom_attr BA AD cm5 espc hirshfeld npa orders
    ma mb mg md !! k = Some (task, key, Raise e) ->
  task ∈ pretrain_tasks self ->
  compute_loss self bl ba da AB atom_attr BA AD cm5 espc hirshfeld npa orders
    ma mb mg md <> Ok r.
Proof.
  intros Hk Hin H. rewrite compute_loss_table in H.
  apply result_bind_inv in H as (st & Hrun & _).
  destruct (run_blocks_ok _ _ _ _ Hrun) as (values & Hall & _).
  assert (Hact : (task, key, Raise e : result Qc)
                 ∈ active_entries self
                     (task_losses self bl ba da AB atom_attr BA AD cm5 espc
                        hirshfeld npa orders ma mb mg md)).
  { apply list_elem_of_filter. split; [done|]. by eapply list_elem_of_lookup_2. }
  apply list_elem_of_lookup in Hact as [j Hj].
  by destruct (Forall2_lookup_l _ _ _ j _ Hall Hj) as (v & _ & Hv).
Qed.

Lemma compute_loss_negative_index (self : EGEM) (bl ba da : vec) (AB : edges)
    (atom_attr : tensor) (BA AD : edges) (cm5 espc hirshfeld npa orders : vec)
    (ma mb mg md : option indices) (task : string) (ids : indices) (i : Z)
    (r : pyloss * loss_dict) :
  (task, Some ids) ∈ loss_index_sets ma mb mg md ->
  task ∈ pretrain_tasks self -> i ∈ ids -> i < 0 ->
  compute_loss self bl ba da AB atom_attr BA AD cm5 espc hirshfeld npa orders
    ma mb mg md <> Ok r.
Proof.
  intros Hset Hin Hi Hneg. unfold loss_index_sets in Hset.
  rewrite !elem_of_cons, elem_of_nil in Hset.
  destruct Hset as [[= -> <-]|[[= -> <-]|[[= -> <-]|[[= -> <-]|[[= -> <-]
                   |[[= -> <-]|[[= -> <-]|[[= -> <-]|[]]]]]]]]].
  - apply (compute_loss_block_raises _ _ _ _ _ _ _ _ _ _ _ _ _ _ _ _ _ 0%nat
             "Blr" "bond_length_loss" RuntimeError); [|done].
    simpl. by rewrite (Blr_loss_negative _ _ _ _ ids i).
  - apply (compute_loss_block_raises _ _ _ _ _ _ _ _ _ _ _ _ _ _ _ _ _ 1%nat
             "Bar" "bond_angle_loss" RuntimeError); [|done].
    simpl. by rewrite (Bar_loss_negative _ _ _ _ _ ids i).
  - apply (compute_loss_block_raises _ _ _ _ _ _ _ _ _ _ _ _ _ _ _ _ _ 2%nat
             "Dar" "dihedral_angle_loss" RuntimeError); [|done].
    simpl. by rewrite (Dar_loss_negative _ _ _ _ _ _ ids i).
  - apply (compute_loss_block_raises _ _ _ _ _ _ _ _ _ _ _ _ _ _ _ _ _ 3%nat
             "CM5" "cm5_charge_loss" IndexError); [|done].
    simpl. by rewrite (charge_loss_negative _ _ _ ids i).
  - apply (compute_loss_block_raises _ _ _ _ _ _ _ _ _ _ _ _ _ _ _ _ _ 4%nat
             "ESPC" "espc_charge_loss" IndexError); [|done].
    simpl. by rewrite (charge_loss_negative _ _ _ ids i).
  - apply (compute_loss_block_raises _ _ _ _ _ _ _ _ _ _ _ _ _ _ _ _ _ 5%nat
             "HIRSHFELD" "hirshfeld_charge_loss" IndexError); [|done].
    simpl. by rewrite (charge_loss_negative _ _ _ ids i).
  - apply (compute_loss_block_raises _ _ _ _ _ _ _ _ _ _ _ _ _ _ _ _ _ 6%nat
             "NPA" "npa_charge_loss" IndexError); [|done].
    simpl. by rewrite (charge_loss_negative _ _ _ ids i).
  - apply (compute_loss_block_raises _ _ _ _ _ _ _ _ _ _ _ _ _ _ _ _ _ 7%nat
             "WIBERG" "wiberg_order_loss" RuntimeError); [|done].
    simpl. by rewrite (wiberg_loss_negative _ _ _ _ ids i).
Qed.

(** * Properties of [EGEM.forward] *)

(** X12. The loss of a pretraining step is computed from the node
    representations of the masked batch against the unmasked tensors of the
    caller: on a batch whose five tensors have their kinds, [EGEM.forward]
    returns a result exactly when the encoding of the contents is defined
    and [compute_loss], given its node representations and the original
    bond lengths, bond angles and dihedral angles, returns that result. *)
Theorem EGEM_forward_loss_of_encoding (self : EGEM) (b : batch) (t : labels)
    (w : world) (r : pyloss * loss_dict)
    (nx nb : nat) (rx rb : list (list Z)) (vl va vd : vec) :
  store w !! x b = Some (LongT nx rx) ->
  store w !! bond_attr b = Some (LongT nb rb) ->
  store w !! bond_lengths b = Some (FloatT vl) ->
  store w !! bond_angles b = Some (FloatT va) ->
  store w !! dihedral_angles b = Some (FloatT vd) ->
  (exists w', EGEM_forward self b t w = (Ok r, w')) <->
  (exists enc,
     encoding_of_batch (compound_encoder self) b nx rx nb rb vl va vd = Ok enc /\
     compute_loss self vl va vd (AtomBondGraph_edges b) (node_repr enc)
       (BondAngleGraph_edges b) (AngleDihedralGraph_edges b)
       (cm5_charges t) (espc_charges t) (hirshfeld_charges t) (npa_charges t)
       (bond_orders t)
       (masked_atom_indices b) (masked_bond_indices b)
       (masked_angle_indices b) (masked_dihedral_indices b) = Ok r).
Proof.
  intros Hx Hba Hbl Hang Hdih. split.
  - intros [w' H].
    apply EGEM_forward_ok in H as (enc & vl' & va' & vd' & Hf & Ll & La & Ld & H).
    pose proof (forward_frame (compound_encoder self) b w _ _ Hbl) as Fl.
    pose proof (forward_frame (compound_encoder self) b w _ _ Hang) as Fa.
    pose proof (forward_frame (compound_encoder self) b w _ _ Hdih) as Fd.
    rewrite Hf in Fl, Fa, Fd. simpl in Fl, Fa, Fd.
    assert (vl' = vl) as -> by congruence.
    assert (va' = va) as -> by congruence.
    assert (vd' = vd) as -> by congruence.
    exists enc. split; [|done]. by eapply forward_sound.
  - intros (enc & Henc & H).
    destruct (forward_complete _ _ w _ _ _ _ _ _ _ _ Hx Hba Hbl Hang Hdih Henc)
      as [w' Hf].
    pose proof (forward_frame (compound_encoder self) b w _ _ Hbl) as Fl.
    pose proof (forward_frame (compound_encoder self) b w _ _ Hang) as Fa.
    pose proof (forward_frame (compound_encoder self) b w _ _ Hdih) as Fd.
    rewrite Hf in Fl, Fa, Fd. simpl in Fl, Fa, Fd.
    exists w'. unfold EGEM_forward.
    erewrite bind_returns by exact Hf. cbn zeta.
    erewrite bind_returns by (by apply float_tensor_returns).
    erewrite bind_returns by (by apply float_tensor_returns).
    erewrite bind_returns by (by apply float_tensor_returns).
    by apply lift_returns.
Qed.

Lemma EGEM_forward_loss_of_encoding_witness :
  exists r w' enc,
    EGEM_forward (Demo.pretrainer ["Blr"; "Bar"; "Dar"; "CM5"])
      Variant.pretrain_chain Variant.chain_labels Demo.chain_world = (Ok r, w') /\
    encoding_of_batch (Demo.encoder 1 false) Variant.pretrain_chain
      2 [[1; 0]; [2; 1]; [1; 1]; [3; 0]] 1 [[0]; [1]; [0]]
      [Demo.of_Z 3; Demo.of_Z 2; Demo.of_Z 3] [Demo.of_Z 2; Demo.of_Z 2]
      [Demo.of_Z 1] = Ok enc /\
    compute_loss (Demo.pretrainer ["Blr"; "Bar"; "Dar"; "CM5"])
      [Demo.of_Z 3; Demo.of_Z 2; Demo.of_Z 3] [Demo.of_Z 2; Demo.of_Z 2]
      [Demo.of_Z 1] [(0, 1); (1, 2); (2, 3)] (node_repr enc)
      [(0, 1); (1, 2)] [(0, 1)]
      (cm5_charges Variant.chain_labels) (espc_charges Variant.chain_labels)
      (hirshfeld_charges Variant.chain_labels) (npa_charges Variant.chain_labels)
      (bond_orders Variant.chain_labels)
      (Some [1]) (Some [0]) (Some [1]) (Some [0]) = Ok r.
Proof.
  destruct (EGEM_forward (Demo.pretrainer ["Blr"; "Bar"; "Dar"; "CM5"])
              Variant.pretrain_chain Variant.chain_labels Demo.chain_world)
    as [[r|e] w'] eqn:H; [|vm_compute in H; discriminate H].
  destruct (proj1 (EGEM_forward_loss_of_encoding
              (Demo.pretrainer ["Blr"; "Bar"; "Dar"; "CM5"])
              Variant.pretrain_chain Variant.chain_labels Demo.chain_world r
              2 1 [[1; 0]; [2; 1]; [1; 1]; [3; 0]] [[0]; [1]; [0]]
              [Demo.of_Z 3; Demo.of_Z 2; Demo.of_Z 3] [Demo.of_Z 2; Demo.of_Z 2]
              [Demo.of_Z 1] eq_refl eq_refl eq_refl eq_refl eq_refl)
            (ex_intro _ w' H)) as (enc & Henc & Hloss).
  exists r, w', enc. split; [reflexivity|]. split; [exact Henc | exact Hloss].
Defined.

(** X13. [mask_attr] accepts a negative index, [index_select] does not:
    when a listed task has a block and its index set holds a negative
    index, [EGEM.forward] does not return, although the encoder may. *)
Theorem EGEM_forward_rejects_negative_index (self : EGEM) (b : batch) (t : labels)
    (w w' : world) (task : string) (ids : indices) (i : Z)
    (r : pyloss * loss_dict) :
  (task, Some ids) ∈ loss_index_sets (masked_atom_indices b) (masked_bond_indices b)
                       (masked_angle_indices b) (masked_dihedral_indices b) ->
  task ∈ pretrain_tasks self -> i ∈ ids -> i < 0 ->
  EGEM_forward self b t w <> (Ok r, w').
Proof.
  intros Hset Hin Hi Hneg H.
  apply EGEM_forward_ok in H as (enc & vl & va & vd & _ & _ & _ & _ & H).
  by eapply compute_loss_negative_index.
Qed.

Lemma EGEM_forward_rejects_negative_index_witness :
  (exists enc w1,
     forward (Demo.encoder 1 false) Variant.last_bond_chain Demo.chain_world
     = (Ok enc, w1)) /\
  ~ exists r w',
      EGEM_forward (Demo.pretrainer ["Blr"]) Variant.last_bond_chain
        Variant.chain_labels Demo.chain_world = (Ok r, w').
Proof.
  split.
  - destruct (forward (Demo.encoder 1 false) Variant.last_bond_chain
                Demo.chain_world) as [[enc|e] w1] eqn:H;
      [|vm_compute in H; discriminate H].
    by exists enc, w1.
  - intros (r & w' & H).
    apply (EGEM_forward_rejects_negative_index (Demo.pretrainer ["Blr"])
             Variant.last_bond_chain Variant.chain_labels Demo.chain_world w'
             "Blr" [-1] (-1) r); [| | |lia|exact H].
    + left.
    + change ("Blr" ∈ ["Blr"]). left.
    + left.
Defined.

(** * When [mask_attr] returns, and mean pooling *)

(** ** When [mask_attr] returns *)

Lemma norm_index_range (n : nat) (i : Z) (r : nat) :
  norm_index n i = Some r -> - Z.of_nat n <= i < Z.of_nat n.
Proof. unfold norm_index. repeat case_decide; intros [=]; lia. Qed.

Lemma norm_indices_range (n : nat) (l : indices) :
  forall rs, norm_indices n l = Ok rs ->
  Forall (fun i => - Z.of_nat n <= i < Z.of_nat n) l.
Proof.
  unfold norm_indices. induction l as [|i l IH]; intros rs H; [constructor|].
  cbn [mapM] in H. destruct (norm_index n i) as [r|] eqn:Hr; [|done].
  rewrite result_bind_ok in H. apply result_bind_inv in H as (rs' & H & _).
  constructor; [by eapply norm_index_range | by eapply IH].
Qed.

Lemma masked_vector_defined (ids : option indices) (v v' : vec) :
  masked_vector ids v = Ok v' -> in_range (length v) ids.
Proof.
  intros H l ->. unfold masked_vector in H.
  apply result_bind_inv in H as (rs & H & _). by eapply norm_indices_range.
Qed.

Lemma mask_columns_defined (vocab : list Z) (ids : indices) (cols : list nat) :
  forall rows rows',
  mask_columns vocab ids cols rows = Ok rows' -> cols <> [] ->
  Forall (fun i => (i < length vocab)%nat) cols /\
  Forall (fun i => - Z.of_nat (length rows) <= i < Z.of_nat (length rows)) ids.
Proof.
  induction cols as [|i cols IH]; intros rows rows' H Hne; [done|].
  cbn [mask_columns] in H.
  apply result_bind_inv in H as (v & Hv & H).
  apply result_bind_inv in H as (c & _ & H).
  apply result_bind_inv in H as (rs & Hrs & H).
  apply list_get_ok in Hv. apply lookup_lt_Some in Hv.
  pose proof (norm_indices_range _ _ _ Hrs) as Hrange.
  split; [|done]. constructor; [done|].
  destruct cols as [|j cols]; [constructor|].
  by destruct (IH _ _ H) as [Hc _].
Qed.

Lemma masked_matrix_defined (vocab : list Z) (ids : option indices) (ncol : nat)
    (rows rows' : list (list Z)) :
  masked_matrix vocab ids ncol rows = Ok rows' -> (0 < ncol)%nat ->
  covers vocab ids ncol /\ in_range (length rows) ids.
Proof.
  intros H Hn. destruct ids as [l|]; [|split; [by intros Hc | by intros l' [=]]].
  simpl in H. apply mask_columns_defined in H as [Hc Hr].
  - split; [|by intros l' [= <-]]. intros _.
    rewrite Forall_forall in Hc.
    assert (Hlast : (ncol - 1 < length vocab)%nat).
    { apply Hc, elem_of_seq. lia. }
    lia.
  - destruct ncol; [lia | done].
Qed.

Lemma masked_matrix_no_column (vocab : list Z) (ids : option indices)
    (rows : list (list Z)) :
  masked_matrix vocab ids 0 rows = Ok rows.
Proof. by destruct ids. Qed.

(** ** Mean pooling of a graph without atoms, and with a single batch entry *)

Lemma Qcdiv_0_l (c : Qc) : (0 / c = 0)%Qc.
Proof. unfold Qcdiv. apply Qcmult_0_l. Qed.

Lemma Qcdiv_1_r (v : Qc) : (v / 1 = v)%Qc.
Proof.
  unfold Qcdiv. replace (/ 1)%Qc with 1%Qc by (apply Qc_is_canon; reflexivity).
  apply Qcmult_1_r.
Qed.

Lemma selected_notin {A} (g : nat) (index : list nat) (src : list A) :
  g ∉ index -> selected g index src = [].
Proof.
  unfold selected. revert src. induction index as [|i index IH]; intros src Hg; [done|].
  destruct src as [|a src]; [done|]. apply not_elem_of_cons in Hg as [Hne Hg].
  cbn [zip zip_with]. rewrite filter_cons. cbn [fst].
  rewrite decide_False by done. by apply IH.
Qed.

Lemma selected_replicate {A} (g : nat) (src : list A) :
  selected g (replicate (length src) g) src = src.
Proof.
  unfold selected. induction src as [|a src IH]; [done|].
  cbn [length replicate zip zip_with]. rewrite filter_cons. cbn [fst].
  rewrite decide_True by done. cbn [fmap list_fmap snd]. f_equal. apply IH.
Qed.

Lemma expand_index_lengths (index : list nat) (n : nat) (index' : list nat) :
  expand_index index n = Ok index' -> length index = n \/ length index = 1%nat.
Proof.
  unfold expand_index. case_decide; [by left|].
  destruct index as [|i [|j index]]; try done. by right.
Qed.

Lemma global_mean_pool_edges (x : tensor) (batch : indices) (size : Z) (out : tensor) :
  global_mean_pool x batch size = Ok out ->
  Forall (fun g => 0 <= g < size) batch /\
  (length batch = length x \/ length batch = 1%nat) /\
  (forall g, 0 <= g < size -> g ∉ batch ->
     out !! Z.to_nat g = Some (replicate (width x) 0%Qc)) /\
  (forall g D, batch = [g] -> rectangular D x -> (1 < length x)%nat ->
     out !! Z.to_nat g = Some (sum_rows D x)).
Proof.
  intros H.
  apply global_mean_pool_inv in H as (Hsize & Hle & Hrange & index & Hexp & ->).
  pose proof (expand_index_lengths _ _ _ Hexp) as Hlens.
  rewrite length_fmap in Hlens.
  apply expand_index_ok in Hexp as (Hlen & Hsub & Hsame & Hone).
  split; [done|]. split; [done|]. split.
  - intros g Hg Hnotin.
    assert (Hgn : (Z.to_nat g < Z.to_nat size)%nat) by lia.
    rewrite lookup_zip_with, list_lookup_fmap, !scatter_add_lookup.
    rewrite !lookup_replicate_2 by done. simpl. f_equal.
    assert (Hnot : Z.to_nat g ∉ Z.to_nat <$> batch).
    { intros Hin. apply list_elem_of_fmap in Hin as (g' & Heq & Hin).
      rewrite Forall_forall in Hrange. specialize (Hrange g' Hin).
      apply Hnotin. by replace g with g' by lia. }
    rewrite (selected_notin _ index) by (intros Hin; by apply Hnot, Hsub).
    simpl. rewrite fmap_replicate. by rewrite Qcdiv_0_l.
  - intros g D -> Hrect Hx.
    rewrite (Hone (Z.to_nat g)) by done. clear Hsub Hsame Hone Hlen index.
    apply Forall_cons in Hrange as [Hg _].
    assert (Hgn : (Z.to_nat g < Z.to_nat size)%nat) by lia.
    rewrite lookup_zip_with, list_lookup_fmap, !scatter_add_lookup.
    rewrite !lookup_replicate_2 by done. simpl. f_equal.
    rewrite selected_replicate.
    assert (HD : width x = D).
    { destruct x as [|row x']; [simpl in Hx; lia|].
      simpl. by apply Forall_cons in Hrect as [-> _]. }
    rewrite HD.
    assert (Hcount : selected (Z.to_nat g) [Z.to_nat g] (replicate (length x) 1%Qc)
                     = [1%Qc]).
    { destruct x as [|row x']; [simpl in Hx; lia|].
      unfold selected. cbn [length replicate fmap list_fmap zip zip_with].
      rewrite filter_cons. cbn [fst]. by rewrite decide_True. }
    rewrite Hcount. cbn [foldl]. rewrite Qcplus_0_l.
    unfold clamp_min1. rewrite decide_False by done.
    rewrite foldl_sum_rows by by rewrite length_replicate.
    rewrite length_replicate. fold (sum_rows D x).
    rewrite zip_with_zero_l by by apply sum_rows_length.
    rewrite <- (list_fmap_id (sum_rows D x)) at 2.
    apply list_fmap_ext. intros _ v _. apply Qcdiv_1_r.
Qed.

(** X14. When [mask_attr] returns.  On five tensors of their kinds, and
    with vocabulary tables whose mask tokens are values of a long (int64)
    tensor, [mask_attr] returns exactly when every masked index is in range
    for its tensor (between -n and n - 1 for a tensor of n rows) and, for a
    feature matrix with at least one column and an index set that is not
    None, the vocabulary table has an entry for every column.  A feature
    matrix without columns is never indexed. *)
Theorem mask_attr_returns_iff_in_range (self : EGeoGNNModel)
    (x ba bl ang dih : loc) (ma mb mg md : option indices) (w : world)
    (nx nb : nat) (rx rb : list (list Z)) (vl va vd : vec) :
  store w !! x = Some (LongT nx rx) ->
  store w !! ba = Some (LongT nb rb) ->
  store w !! bl = Some (FloatT vl) ->
  store w !! ang = Some (FloatT va) ->
  store w !! dih = Some (FloatT vd) ->
  tokens_fit (atom_feature_dims self) -> tokens_fit (bond_feature_dims self) ->
  (exists copies w', mask_attr self x ba bl ang dih ma mb mg md w = (Ok copies, w'))
  <->
  ((0 < nx)%nat ->
     covers (atom_feature_dims self) ma nx /\ in_range (length rx) ma) /\
  ((0 < nb)%nat ->
     covers (bond_feature_dims self) mb nb /\ in_range (length rb) mb) /\
  in_range (length vl) mb /\ in_range (length va) mg /\ in_range (length vd) md.
Proof.
  intros Hx Hba Hbl Hang Hdih Fx Fb. split.
  - intros ([[[[x' ba'] bl'] ang'] dih'] & w' & H).
    destruct (mask_attr_ok self _ _ _ _ _ _ _ _ _ w w' _ _ _ _ _ nx nb rx rb vl va vd
                Hx Hba Hbl Hang Hdih H)
      as (rx' & rb' & vl' & va' & vd' & (Mx & Mb & Ml & Ma & Md) & _).
    split; [intros Hn; by eapply masked_matrix_defined|].
    split; [intros Hn; by eapply masked_matrix_defined|].
    split; [by eapply masked_vector_defined|].
    split; by eapply masked_vector_defined.
  - intros (Cx & Cb & Rl & Ra & Rd).
    assert (Mx : exists rx', masked_matrix (atom_feature_dims self) ma nx rx = Ok rx').
    { destruct nx as [|nx]; [eexists; apply masked_matrix_no_column|].
      destruct Cx as [C R]; [lia|]. by apply masked_matrix_returns. }
    assert (Mb : exists rb', masked_matrix (bond_feature_dims self) mb nb rb = Ok rb').
    { destruct nb as [|nb]; [eexists; apply masked_matrix_no_column|].
      destruct Cb as [C R]; [lia|]. by apply masked_matrix_returns. }
    destruct Mx as [rx' Mx]. destruct Mb as [rb' Mb].
    destruct (masked_vector_returns _ _ Rl) as [vl' Ml].
    destruct (masked_vector_returns _ _ Ra) as [va' Ma].
    destruct (masked_vector_returns _ _ Rd) as [vd' Md].
    by eapply mask_attr_runs.
Qed.

Lemma mask_attr_returns_iff_in_range_witness :
  exists copies w',
    mask_attr (Demo.encoder 1 false) Demo.x_ref Demo.bond_attr_ref
      Demo.bond_lengths_ref Demo.bond_angles_ref Demo.dihedral_angles_ref
      (Some [-4; 3]) (Some [0]) None (Some [-1]) Demo.chain_world = (Ok copies, w').
Proof.
  apply (proj2 (mask_attr_returns_iff_in_range (Demo.encoder 1 false)
                  Demo.x_ref Demo.bond_attr_ref Demo.bond_lengths_ref
                  Demo.bond_angles_ref Demo.dihedral_angles_ref
                  (Some [-4; 3]) (Some [0]) None (Some [-1]) Demo.chain_world
                  2 1 [[1; 0]; [2; 1]; [1; 1]; [3; 0]] [[0]; [1]; [0]]
                  [Demo.of_Z 3; Demo.of_Z 2; Demo.of_Z 3] [Demo.of_Z 2; Demo.of_Z 2]
                  [Demo.of_Z 1] eq_refl eq_refl eq_refl eq_refl eq_refl
                  ltac:(repeat constructor; simpl; lia)
                  ltac:(repeat constructor; simpl; lia))).
  split; [intros _; split; [intros _; simpl; lia|]|].
  { intros l [= <-]. repeat constructor; simpl; lia. }
  split; [intros _; split; [intros _; simpl; lia|]|].
  { intros l [= <-]. repeat constructor; simpl; lia. }
  split; [intros l [= <-]; repeat constructor; simpl; lia|].
  split; [intros l [=]|].
  intros l [= <-]. repeat constructor; simpl; lia.
Defined.

(** X15. Mean pooling at the end of a forward pass.  A forward pass
    returns only if every entry of atom_batch is a graph index in
    [0, num_graphs), and atom_batch has one entry per row of node_repr or a
    single entry.  The row of graph_repr of a graph that atom_batch does not
    name is the zero vector: the count 0 is clamped to 1 before the
    division.  A single entry g on several rows of node_repr is expanded to
    all of them for the sums but counted once: row g of graph_repr is the
    sum of all rows of node_repr. *)
Theorem graph_repr_of_empty_graph (self : EGeoGNNModel) (b : batch)
    (w w' : world) (enc : encoding) :
  forward self b w = (Ok enc, w') ->
  Forall (fun g => 0 <= g < num_graphs b) (atom_batch b) /\
  (length (atom_batch b) = length (node_repr enc) \/
   length (atom_batch b) = 1%nat) /\
  (forall g, 0 <= g < num_graphs b -> g ∉ atom_batch b ->
     graph_repr enc !! Z.to_nat g
     = Some (replicate (width (node_repr enc)) 0%Qc)) /\
  (forall g D, atom_batch b = [g] -> rectangular D (node_repr enc) ->
     (1 < length (node_repr enc))%nat ->
     graph_repr enc !! Z.to_nat g = Some (sum_rows D (node_repr enc))).
Proof. intros H. apply forward_graph_repr in H. by apply global_mean_pool_edges. Qed.

Lemma graph_repr_of_empty_graph_witness :
  (exists enc w',
     forward (Demo.encoder 1 false) Variant.chain_and_empty Demo.chain_world
     = (Ok enc, w') /\
     length (graph_repr enc) = 2%nat /\
     graph_repr enc !! 1%nat = Some (replicate (width (node_repr enc)) 0%Qc)) /\
  (exists enc w',
     forward (Demo.encoder 1 false) Variant.single_entry_chain Demo.chain_world
     = (Ok enc, w') /\
     length (node_repr enc) = 4%nat /\
     graph_repr enc = [sum_rows 2 (node_repr enc)]).
Proof.
  split.
  - destruct (forward (Demo.encoder 1 false) Variant.chain_and_empty Demo.chain_world)
      as [[enc|e] w'] eqn:H; [|vm_compute in H; discriminate H].
    exists enc, w'. split; [reflexivity|].
    destruct (graph_repr_of_empty_graph (Demo.encoder 1 false)
                Variant.chain_and_empty Demo.chain_world w' enc H) as (_ & _ & Hz & _).
    assert (Hlen : length (graph_repr enc) = 2%nat).
    { pose proof H as H'. vm_compute in H'. by injection H' as <- _. }
    split; [exact Hlen|].
    apply (Hz 1); [simpl; lia|]. simpl.
    intros Hin. repeat (apply elem_of_cons in Hin as [Hin|Hin]; [lia|]).
    by apply elem_of_nil in Hin.
  - destruct (forward (Demo.encoder 1 false) Variant.single_entry_chain
                Demo.chain_world) as [[enc|e] w'] eqn:H;
      [|vm_compute in H; discriminate H].
    exists enc, w'. split; [reflexivity|].
    destruct (graph_repr_of_empty_graph (Demo.encoder 1 false)
                Variant.single_entry_chain Demo.chain_world w' enc H)
      as (_ & _ & _ & Hsum).
    assert (Hshape : length (node_repr enc) = 4%nat /\ rectangular 2 (node_repr enc)
                     /\ length (graph_repr enc) = 1%nat).
    { pose proof H as H'. vm_compute in H'. injection H' as <- _.
      split; [done|]. split; [repeat constructor | done]. }
    destruct Hshape as (Hrows & Hrect & Hlen). split; [exact Hrows|].
    specialize (Hsum 0 2%nat eq_refl Hrect ltac:(lia)). simpl in Hsum.
    destruct (graph_repr enc) as [|row [|row' rest]]; try discriminate Hlen.
    simpl in Hsum. by injection Hsum as ->.
Defined.

(** * The inference script *)

Lemma outcome_bind_inv {A B} (m : outcome A) (f : A -> outcome B) (b : B) :
  (m ≫= f) = Returns b -> exists a, m = Returns a /\ f a = Returns b.
Proof. destruct m as [a|e]; [|done]. intros H. by exists a. Qed.

Lemma np_repeat_cons {A} (a : A) (l : list A) (k : nat) :
  np_repeat (a :: l) k = replicate k a ++ np_repeat l k.
Proof. reflexivity. Qed.

Lemma pieces_np_repeat {A} (k : nat) (data : list A) :
  (0 < k)%nat ->
  forall fuel, (length data <= fuel)%nat ->
  pieces fuel k (np_repeat data k) = replicate k <$> data.
Proof.
  intros Hk. induction data as [|a data IH]; intros fuel Hf.
  - by destruct fuel.
  - simpl in Hf. destruct fuel as [|fuel]; [lia|].
    rewrite np_repeat_cons. destruct k as [|k]; [lia|].
    change (replicate (S k) a ++ np_repeat data (S k))
      with (a :: (replicate k a ++ np_repeat data (S k))).
    cbn [pieces].
    change (a :: (replicate k a ++ np_repeat data (S k)))
      with (replicate (S k) a ++ np_repeat data (S k)).
    rewrite take_app_length' by (by rewrite length_replicate).
    rewrite drop_app_length' by (by rewrite length_replicate).
    rewrite IH by lia. done.
Qed.

Lemma every_fuel_np_repeat {A} (k : nat) (data : list A) :
  (0 < k)%nat ->
  forall fuel, (length data <= fuel)%nat ->
  every_fuel fuel k (np_repeat data k) = data.
Proof.
  intros Hk. induction data as [|a data IH]; intros fuel Hf.
  - by destruct fuel.
  - simpl in Hf. destruct fuel as [|fuel]; [lia|].
    rewrite np_repeat_cons. destruct k as [|k]; [lia|].
    change (replicate (S k) a ++ np_repeat data (S k))
      with (a :: (replicate k a ++ np_repeat data (S k))).
    cbn [every_fuel].
    change (a :: (replicate k a ++ np_repeat data (S k)))
      with (replicate (S k) a ++ np_repeat data (S k)).
    rewrite drop_app_length' by (by rewrite length_replicate).
    by rewrite IH by lia.
Qed.

Lemma length_np_repeat {A} (data : list A) (k : nat) :
  length (np_repeat data k) = (length data * k)%nat.
Proof.
  induction data as [|a data IH]; [done|].
  rewrite np_repeat_cons, length_app, length_replicate, IH. simpl. lia.
Qed.

Lemma np_repeat_concat {A} (data : list A) (k : nat) :
  concat (replicate k <$> data) = np_repeat data k.
Proof.
  induction data as [|a data IH]; [done|].
  rewrite np_repeat_cons, fmap_cons. cbn [concat]. by rewrite IH.
Qed.

Lemma pieces_spec {A} (k : nat) :
  (0 < k)%nat ->
  forall n fuel (l : list A), length l = (n * k)%nat -> (n <= fuel)%nat ->
  concat (pieces fuel k l) = l /\
  Forall (fun row => length row = k) (pieces fuel k l) /\
  length (pieces fuel k l) = n.
Proof.
  intros Hk. induction n as [|n IH]; intros fuel l Hl Hf.
  - destruct l; [|done]. by destruct fuel.
  - destruct fuel as [|fuel]; [lia|].
    destruct l as [|a l]; [simpl in Hl; lia|].
    cbn [pieces].
    destruct (IH fuel (drop k (a :: l))) as (Hc & Hr & Hn).
    { rewrite length_drop, Hl. lia. }
    { lia. }
    split; [|split].
    + cbn [concat]. rewrite Hc. apply take_drop.
    + constructor; [|done]. rewrite length_take, Hl. lia.
    + simpl. by rewrite Hn.
Qed.

(** The fuel of the loader suffices: the batches hold the whole dataset. *)
Lemma pieces_concat {A} (k : nat) :
  (0 < k)%nat ->
  forall fuel (l : list A), (length l <= fuel)%nat -> concat (pieces fuel k l) = l.
Proof.
  intros Hk. induction fuel as [|fuel IH]; intros l Hl.
  - destruct l; [done | simpl in Hl; lia].
  - destruct l as [|a l]; [done|]. cbn [pieces concat].
    rewrite IH; [apply take_drop|]. rewrite length_drop. simpl in *. lia.
Qed.

Lemma reshape_ok (a : list Qc) (table : list (list Qc)) :
  reshape a 4 = Returns table ->
  concat table = a /\ Forall (fun row => length row = 4%nat) table /\
  length a = (length table * 4)%nat.
Proof.
  unfold reshape. case_decide as Hmod; [|done]. intros [= <-].
  assert (Hl : length a = (length a / 4 * 4)%nat).
  { pose proof (Nat.div_mod_eq (length a) 4). lia. }
  destruct (pieces_spec 4 ltac:(lia) (length a / 4)%nat (length a) a Hl) as (Hc & Hr & Hn).
  { lia. }
  split; [done|]. split; [done|]. by rewrite Hn.
Qed.

Lemma inference_loop_ok (model : downstream_model) (loader : list (list string)) :
  forall results smiles results' smiles',
  inference_loop model loader results smiles = Returns (results', smiles') ->
  exists preds,
    Forall2 (fun batch pred => model batch = Ok pred) loader preds /\
    results' = results ++ preds /\ smiles' = smiles ++ concat loader.
Proof.
  induction loader as [|batch loader IH]; intros results smiles results' smiles' H.
  - injection H as <- <-. exists []. by rewrite !app_nil_r.
  - cbn [inference_loop] in H. apply outcome_bind_inv in H as (pred & Hp & H).
    unfold call_model in Hp. destruct (model batch) as [p|e] eqn:Hm; [|done].
    injection Hp as ->.
    destruct (IH _ _ _ _ H) as (preds & Hall & -> & ->).
    exists (pred :: preds). split; [by constructor|].
    by rewrite <- !app_assoc.
Qed.

(** What a returning [inference] returns: the predictions of the batches,
    in order, cut into rows of four, and the SMILES of the batches. *)
Lemma inference_ok (model : downstream_model) (loader : list (list string))
    (table : list (list Qc)) (smiles : list string) :
  inference model loader = Returns (table, smiles) ->
  exists preds,
    Forall2 (fun batch pred => model batch = Ok pred) loader preds /\
    loader <> [] /\
    concat table = concat preds /\
    Forall (fun row => length row = 4%nat) table /\
    length (concat preds) = (length table * 4)%nat /\
    smiles = concat loader.
Proof.
  unfold inference. intros H.
  apply outcome_bind_inv in H as ([results smiles0] & Hloop & H).
  apply outcome_bind_inv in H as (flat & Hflat & H).
  apply outcome_bind_inv in H as (table0 & Htable & H).
  injection H as -> ->.
  apply inference_loop_ok in Hloop as (preds & Hall & -> & ->).
  simpl in Hflat. unfold hstack in Hflat.
  destruct preds as [|p preds]; [done|]. injection Hflat as <-.
  apply reshape_ok in Htable as (Hc & Hr & Hl).
  exists (p :: preds). split; [done|]. split.
  { intros ->. inversion Hall. }
  done.
Qed.

Lemma rescale_labels (statuses : gmap string (Qc * Qc)) (endpoints : list string) :
  forall df df',
  rescale statuses endpoints df = Returns df' ->
  frame_index df' = frame_index df /\ frame_columns df' = frame_columns df /\
  Forall (fun e => is_Some (statuses !! e)) endpoints.
Proof.
  induction endpoints as [|e es IH]; intros df df' H.
  - by injection H as <-.
  - cbn [rescale] in H. destruct (statuses !! e) as [[mean std]|] eqn:He; [|done].
    destruct (IH _ _ H) as (Hi & Hc & Hall).
    split; [done|]. split; [done|]. constructor; [by eexists | done].
Qed.

Lemma rescale_values (statuses : gmap string (Qc * Qc)) (endpoints : list string) :
  forall df df',
  NoDup endpoints ->
  rescale statuses endpoints df = Returns df' ->
  frame_values df'
  = (fun row =>
       imap (fun j v => match frame_columns df !! j with
                        | Some name => if decide (name ∈ endpoints)
                                       then descale statuses name v else v
                        | None => v
                        end) row) <$> frame_values df.
Proof.
  induction endpoints as [|e es IH]; intros df df' Hnd H.
  - injection H as <-. symmetry. etrans; [|apply list_fmap_id].
    apply list_fmap_ext. intros i row _. unfold id. apply list_eq. intros j.
    rewrite list_lookup_imap. destruct (row !! j) as [v|]; [|done]. simpl.
    destruct (frame_columns df !! j) as [name|]; [|done].
    first [done | rewrite decide_False; [done | apply not_elem_of_nil]].
  - cbn [rescale] in H. destruct (statuses !! e) as [[mean std]|] eqn:He; [|done].
    apply NoDup_cons in Hnd as [Hne Hnd].
    rewrite (IH _ _ Hnd H). simpl. rewrite <- list_fmap_compose.
    apply list_fmap_ext. intros i row _. simpl. apply list_eq. intros j.
    rewrite !list_lookup_imap. destruct (row !! j) as [v|]; [|done]. simpl.
    destruct (frame_columns df !! j) as [name|] eqn:Hname;
      [|by rewrite decide_False].
    f_equal. destruct (decide (name = e)) as [->|Hneq].
    + rewrite (decide_False (P := e ∈ es)) by done.
      rewrite (decide_True (P := Some e = Some e)) by done.
      rewrite (decide_True (P := e ∈ e :: es)) by left.
      unfold descale. by rewrite He.
    + rewrite !(decide_False (P := Some name = Some e)) by congruence.
      destruct (decide (name ∈ es)) as [Hin|Hout].
      * by rewrite (decide_True (P := name ∈ e :: es)) by (by right).
      * rewrite (decide_False (P := name ∈ e :: es)); [done|].
        rewrite elem_of_cons. tauto.
Qed.

Lemma DataLoader_np_repeat {A} (data : list A) (k : nat) :
  (0 < k)%nat -> DataLoader (np_repeat data k) k = Returns (replicate k <$> data).
Proof.
  intros Hk. unfold DataLoader. rewrite decide_False by lia. f_equal.
  apply pieces_np_repeat; [done|]. rewrite length_np_repeat. nia.
Qed.

Lemma imap_columns (statuses : gmap string (Qc * Qc)) (endpoints : list string)
    (row : list Qc) :
  length row = length endpoints ->
  imap (fun j v => match endpoints !! j with
                   | Some name => if decide (name ∈ endpoints)
                                  then descale statuses name v else v
                   | None => v
                   end) row
  = zip_with (descale statuses) endpoints row.
Proof.
  intros Hlen. apply list_eq. intros j.
  rewrite list_lookup_imap, lookup_zip_with.
  destruct (row !! j) as [v|] eqn:Hv; simpl.
  - destruct (endpoints !! j) as [name|] eqn:Hn; simpl.
    + rewrite decide_True; [done|]. by eapply list_elem_of_lookup_2.
    + apply lookup_lt_Some in Hv. apply lookup_ge_None in Hn. lia.
  - by destruct (endpoints !! j).
Qed.

(** What a returning run of the script has done. *)
Lemma main_cli_ok (model : downstream_model) (statuses : gmap string (Qc * Qc))
    (endpoints data : list string) (df : DataFrame) :
  main_cli model statuses endpoints data = Returns df ->
  length endpoints = 4%nat /\ data <> [] /\
  frame_index df = data /\ frame_columns df = endpoints /\
  Forall (fun e => is_Some (statuses !! e)) endpoints /\
  exists preds raw,
    Forall2 (fun s pred => model (replicate 4 s) = Ok pred) data preds /\
    concat raw = concat preds /\
    Forall (fun row => length row = 4%nat) raw /\
    length raw = length data /\
    (NoDup endpoints ->
     frame_values df = (fun row => zip_with (descale statuses) endpoints row) <$> raw).
Proof.
  unfold main_cli, main. intros H.
  apply outcome_bind_inv in H as (loader & Hloader & H).
  apply outcome_bind_inv in H as ([table smiles] & Hinf & H).
  apply outcome_bind_inv in H as (index & Hindex & H).
  apply outcome_bind_inv in H as (df0 & Hframe & H).
  assert (Hk : (0 < length endpoints)%nat).
  { unfold DataLoader in Hloader. case_decide; [done | lia]. }
  rewrite (DataLoader_np_repeat data _ Hk) in Hloader. injection Hloader as <-.
  apply inference_ok in Hinf as (preds & Hall & Hne & Hc & Hrows & Hlen & ->).
  rewrite np_repeat_concat in Hindex. unfold every in Hindex.
  rewrite decide_False in Hindex by lia. injection Hindex as <-.
  rewrite every_fuel_np_repeat in Hframe
    by (done || (rewrite length_np_repeat; nia)).
  unfold new_frame in Hframe. case_decide as Hshape; [|done].
  destruct Hshape as [Hn H4]. injection Hframe as <-.
  destruct (rescale_labels _ _ _ _ H) as (Hi & Hcol & Hst).
  simpl in Hi, Hcol.
  split; [by symmetry|]. split; [by intros ->|].
  split; [done|]. split; [done|]. split; [done|].
  exists preds, table.
  split; [rewrite <- H4 in Hall; by apply Forall2_fmap_l in Hall|].
  split; [done|]. split; [done|]. split; [done|].
  intros Hnd. rewrite (rescale_values _ _ _ _ Hnd H). simpl.
  apply list_fmap_ext. intros i row Hrow. apply imap_columns.
  rewrite Forall_lookup in Hrows. rewrite (Hrows i row Hrow). done.
Qed.



(** X17. A run of the script returns a frame only for four endpoints and at
    least one SMILES: the predictions are cut into rows of four whatever the
    number of endpoints.  The frame then has the SMILES of the input file as
    row labels, in their order, the endpoints as column labels, and one row
    per SMILES; every endpoint has an entry in the statuses. *)
Theorem main_cli_needs_four_endpoints (model : downstream_model)
    (statuses : gmap string (Qc * Qc)) (endpoints data : list string)
    (df : DataFrame) :
  main_cli model statuses endpoints data = Returns df ->
  length endpoints = 4%nat /\ data <> [] /\
  frame_index df = data /\ frame_columns df = endpoints /\
  length (frame_values df) = length data /\
  Forall (fun e => is_Some (statuses !! e)) endpoints.
Proof.
  intros H. pose proof H as H'.
  apply main_cli_ok in H as (H4 & Hne & Hi & Hc & Hst & _).
  split; [done|]. split; [done|]. split; [done|]. split; [done|]. split; [|done].
  unfold main_cli, main in H'.
  apply outcome_bind_inv in H' as (loader & _ & H').
  apply outcome_bind_inv in H' as ([table smiles] & _ & H').
  apply outcome_bind_inv in H' as (index & _ & H').
  apply outcome_bind_inv in H' as (df0 & Hframe & H').
  unfold new_frame in Hframe. case_decide as Hshape; [|done].
  injection Hframe as <-. destruct Hshape as [Hn _].
  assert (Hlen : forall es d d', rescale statuses es d = Returns d' ->
            length (frame_values d') = length (frame_values d)).
  { induction es as [|e es IH]; intros d d' Hr; [by injection Hr as <-|].
    cbn [rescale] in Hr. destruct (statuses !! e) as [[m s]|]; [|done].
    rewrite (IH _ _ Hr). simpl. apply length_fmap. }
  rewrite (Hlen _ _ _ H'). simpl. rewrite Hn.
  destruct (rescale_labels _ _ _ _ H') as (Hi' & _). simpl in Hi'. congruence.
Qed.

Lemma main_cli_needs_four_endpoints_witness :
  exists df,
    main_cli Run.model Run.statuses Run.endpoints Run.data = Returns df /\
    frame_index df = ["CCO"; "C"] /\
    frame_columns df = ["logP"; "logS"; "pKa"; "Tm"] /\
    length (frame_values df) = 2%nat.
Proof.
  destruct (main_cli Run.model Run.statuses Run.endpoints Run.data)
    as [df|e] eqn:H; [|vm_compute in H; discriminate H].
  exists df. split; [reflexivity|].
  destruct (main_cli_needs_four_endpoints _ _ _ _ _ H) as (_ & _ & Hi & Hc & Hl & _).
  by split; [|split].
Defined.

(** X18. The values of the frame.  With pairwise different endpoints, the
    rows of the frame are the predictions of the model for the batches, in
    order, cut into rows of four, each value v of the column of an endpoint
    rescaled to v * std + mean with the mean and the standard deviation of
    that endpoint. *)
Theorem main_cli_rescales_predictions (model : downstream_model)
    (statuses : gmap string (Qc * Qc)) (endpoints data : list string)
    (df : DataFrame) :
  NoDup endpoints ->
  main_cli model statuses endpoints data = Returns df ->
  exists preds raw,
    Forall2 (fun s pred => model (replicate 4 s) = Ok pred) data preds /\
    concat raw = concat preds /\
    Forall (fun row => length row = 4%nat) raw /\
    frame_values df = (fun row => zip_with (descale statuses) endpoints row) <$> raw /\
    forall e, e ∈ endpoints ->
      exists mean std, statuses !! e = Some (mean, std) /\
                       forall v, descale statuses e v = (v * std + mean)%Qc.
Proof.
  intros Hnd H.
  apply main_cli_ok in H as (_ & _ & _ & _ & Hst & preds & raw & Hall & Hc & Hr & _ & Hv).
  exists preds, raw. split; [done|]. split; [done|]. split; [done|].
  split; [by apply Hv|].
  intros e He. rewrite Forall_forall in Hst.
  destruct (Hst e He) as [[mean std] Hs]. exists mean, std. split; [done|].
  intros v. unfold descale. by rewrite Hs.
Qed.

Lemma main_cli_rescales_predictions_witness :
  exists df,
    main_cli Run.model Run.statuses Run.endpoints Run.data = Returns df /\
    frame_values df
    = (fun row => zip_with (descale Run.statuses) Run.endpoints row)
      <$> [[Demo.of_Z 3; Demo.of_Z 4; Demo.of_Z 0; Demo.of_Z 1];
           [Demo.of_Z 1; Demo.of_Z 4; Demo.of_Z 0; Demo.of_Z 1]].
Proof.
  destruct (main_cli Run.model Run.statuses Run.endpoints Run.data)
    as [df|e] eqn:H; [|vm_compute in H; discriminate H].
  exists df. split; [reflexivity|].
  assert (Hnd : NoDup Run.endpoints).
  { unfold Run.endpoints.
    repeat (apply NoDup_cons; split;
            [rewrite ?elem_of_cons, elem_of_nil; intros Hin;
             repeat (destruct Hin as [Hin|Hin]; [discriminate Hin|]); exact Hin|]).
    apply NoDup_nil_2. }
  destruct (main_cli_rescales_predictions _ _ _ _ _ Hnd H)
    as (preds & raw & Hall & Hc & Hr & Hv & _).
  rewrite Hv. f_equal.
  assert (Hp : preds = [[Demo.of_Z 3; Demo.of_Z 4; Demo.of_Z 0; Demo.of_Z 1];
                        [Demo.of_Z 1; Demo.of_Z 4; Demo.of_Z 0; Demo.of_Z 1]]).
  { unfold Run.data in Hall.
    apply Forall2_cons_inv_l in Hall as (p1 & preds1 & H1 & Hall & ->).
    apply Forall2_cons_inv_l in Hall as (p2 & preds2 & H2 & Hall & ->).
    apply Forall2_nil_inv_l in Hall as ->.
    injection H1 as <-. injection H2 as <-. reflexivity. }
  subst preds. simpl in Hc.
  destruct raw as [|r1 [|r2 [|r3 raw]]];
    repeat match goal with
    | Hf : Forall _ (_ :: _) |- _ => apply Forall_cons in Hf as [? Hf]
    end;
    repeat match goal with
    | Hl : length ?r = 4%nat |- _ =>
        destruct r as [|? [|? [|? [|? [|? ?]]]]]; try discriminate Hl; clear Hl
    end;
    try discriminate Hc.
  by injection Hc as -> -> -> -> -> -> -> ->.
Defined.

(** * The constructors *)

(** X19. The properties [node_dim] and [graph_dim] of an encoder cannot be
    read: both return [self.embed_dim], and [__init__] assigns no attribute
    of that name, with or without dihedral angles. *)
Theorem node_dim_raises (without_dihedral : bool) :
  node_dim without_dihedral = Raise AttributeError /\
  graph_dim without_dihedral = Raise AttributeError.
Proof.
  assert (H : "embed_dim" ∉ EGeoGNNModel_attribute_names without_dihedral).
  { unfold EGeoGNNModel_attribute_names.
    rewrite !elem_of_app, !elem_of_cons, elem_of_nil.
    destruct without_dihedral; rewrite ?elem_of_cons, ?elem_of_nil;
      intros Hin; repeat (destruct Hin as [Hin|Hin]; try discriminate Hin);
      exact Hin. }
  unfold node_dim, graph_dim, getattr. by rewrite decide_False.
Qed.

Lemma run_blocks_ext (self1 self2 : EGEM) :
  pretrain_tasks self1 = pretrain_tasks self2 ->
  forall t1 t2 : list (string * string * result Qc),
  Forall2 (fun e1 e2 => e1.1 = e2.1 /\
                        (e1.1.1 ∈ pretrain_tasks self1 -> e1.2 = e2.2)) t1 t2 ->
  forall st, run_blocks self1 t1 st = run_blocks self2 t2 st.
Proof.
  intros Htasks t1 t2 H. induction H as [|[[task1 key1] g1] [[task2 key2] g2] t1 t2
                                          [Hk Hg] _ IH]; intros st; [done|].
  simpl in Hk, Hg. injection Hk as <- <-. cbn [run_blocks].
  destruct (decide (task1 ∈ pretrain_tasks self1)) as [Hin|Hout].
  - rewrite !task_block_active by (by rewrite <- ?Htasks). rewrite <- (Hg Hin).
    destruct g1 as [v|e]; [|done]. rewrite !result_bind_ok. apply IH.
  - rewrite !task_block_inactive by (by rewrite <- ?Htasks).
    rewrite !result_bind_ok. apply IH.
Qed.

(** X20. [compute_loss] never misses a head: [__init__] creates the head of
    a task under the condition under which [compute_loss] runs the block of
    the task, so that on an [EGEM] as constructed [compute_loss] does what
    it would do with all nine heads created. *)
Theorem compute_loss_finds_heads (encoder : EGeoGNNModel) (tasks : list string)
    (p : heads) (bl ba da : vec) (AB : edges)
    (atom_attr : tensor) (BA AD : edges) (cm5 espc hirshfeld npa orders : vec)
    (ma mb mg md : option indices) :
  compute_loss (EGEM_init encoder tasks p) bl ba da AB atom_attr BA AD
    cm5 espc hirshfeld npa orders ma mb mg md
  = compute_loss (EGEM_all_heads encoder tasks p) bl ba da AB atom_attr BA AD
      cm5 espc hirshfeld npa orders ma mb mg md.
Proof.
  rewrite !compute_loss_table.
  rewrite (run_blocks_ext (EGEM_init encoder tasks p)
             (EGEM_all_heads encoder tasks p) eq_refl _
             (task_losses (EGEM_all_heads encoder tasks p) bl ba da AB atom_attr
                BA AD cm5 espc hirshfeld npa orders ma mb mg md)); [done|].
  unfold task_losses.
  repeat (constructor;
          [split; [done|]; cbn [fst snd pretrain_tasks EGEM_init]; intros Hin;
           simpl; unfold active; by rewrite bool_decide_eq_true_2|]).
  constructor.
Qed.

(** ** The widths the heads receive *)

Lemma index_select_rectangular (D : nat) (t : tensor) (ids : indices) (rows : tensor) :
  rectangular D t -> index_select t ids = Ok rows -> rectangular D rows.
Proof.
  intros Ht H. unfold index_select in H. apply mapM_Forall2 in H.
  unfold rectangular in *. rewrite Forall_lookup in Ht.
  induction H as [|i row ids rows Hi _ IH]; constructor; [|done].
  apply result_bind_inv in Hi as (r & _ & Hi).
  destruct (t !! r) as [row'|] eqn:Hr; [|done]. injection Hi as <-.
  by apply (Ht r).
Qed.

Lemma cat2_rectangular (Da Db : nat) (a b c : tensor) :
  rectangular Da a -> rectangular Db b -> cat2 a b = Ok c ->
  rectangular (Da + Db) c.
Proof.
  unfold cat2. intros Ha Hb H. case_decide as Hlen; [|done]. injection H as <-.
  unfold rectangular in *. revert b Hb Hlen.
  induction Ha as [|ra a Hra _ IH]; intros [|rb b] Hb Hlen; try done.
  apply Forall_cons in Hb as [Hrb Hb]. simpl. constructor.
  - rewrite length_app. lia.
  - apply IH; [done | by injection Hlen].
Qed.

Lemma expects_rectangular (n : nat) (f : mlp) (t : tensor) :
  rectangular n t -> expects n f t = f t.
Proof. intros H. unfold expects. by rewrite decide_True. Qed.

(** X21. The heads get rows of the width their MLP is created for.  On
    node representations of the width of the latent size, the tensor a loss
    helper hands to its MLP has the input size [EGEM.__init__] gives that
    MLP (two rows of atoms for Blr and WIBERG, three for Bar, four for Dar,
    one for the charges): an MLP that rejects any other width changes
    nothing. *)
Theorem heads_get_declared_width (latent_size : nat) (h : head) (atom_attr : tensor)
    (values : vec) (AB BA AD : edges) (ids : option indices) :
  rectangular latent_size atom_attr ->
  _get_Blr_loss (Some (sized (MLP_input_size latent_size "Blr") h))
    atom_attr values AB ids
  = _get_Blr_loss (Some h) atom_attr values AB ids /\
  _get_Bar_loss (Some (sized (MLP_input_size latent_size "Bar") h))
    atom_attr values AB BA ids
  = _get_Bar_loss (Some h) atom_attr values AB BA ids /\
  _get_Dar_loss (Some (sized (MLP_input_size latent_size "Dar") h))
    atom_attr values AB BA AD ids
  = _get_Dar_loss (Some h) atom_attr values AB BA AD ids /\
  (forall task, task ∈ ["CM5"; "ESPC"; "HIRSHFELD"; "NPA"] ->
     _get_charge_loss (Some (sized (MLP_input_size latent_size task) h))
       atom_attr values ids
     = _get_charge_loss (Some h) atom_attr values ids) /\
  _get_wiberg_loss (Some (sized (MLP_input_size latent_size "WIBERG") h))
    atom_attr values AB ids
  = _get_wiberg_loss (Some h) atom_attr values AB ids.
Proof.
  intros Hrect.
  assert (Hsel : forall l rows, index_select atom_attr l = Ok rows ->
            rectangular latent_size rows)
    by (intros l rows; by apply index_select_rectangular).
  assert (Hpair : forall E,
    _get_Blr_loss (Some (sized (latent_size * 2) h)) atom_attr values E ids
    = _get_Blr_loss (Some h) atom_attr values E ids /\
    _get_wiberg_loss (Some (sized (latent_size * 2) h)) atom_attr values E ids
    = _get_wiberg_loss (Some h) atom_attr values E ids).
  { intros E. unfold _get_Blr_loss, _get_wiberg_loss, Blr_atom_indices.
    destruct (tensor_arg ids) as [l|e]; [|done]. rewrite !result_bind_ok.
    destruct (select_edges E l) as [[mi mj]|e]; [|done]. rewrite !result_bind_ok.
    destruct (index_select atom_attr mi) as [ai|e] eqn:Hi; [|done].
    rewrite !result_bind_ok.
    destruct (index_select atom_attr mj) as [aj|e] eqn:Hj; [|done].
    rewrite !result_bind_ok.
    destruct (cat2 ai aj) as [aij|e] eqn:Hc; [|done]. rewrite !result_bind_ok.
    cbn [head_attr]. rewrite !result_bind_ok. unfold sized.
    cbn [head_mlp head_loss].
    rewrite expects_rectangular; [by split|].
    replace (latent_size * 2)%nat with (latent_size + latent_size)%nat by lia.
    eapply cat2_rectangular; [| |exact Hc]; eauto. }
  split; [apply Hpair|]. split; [|split; [|split; [|apply Hpair]]].
  - unfold _get_Bar_loss.
    destruct (tensor_arg ids) as [l|e]; [|done]. rewrite !result_bind_ok.
    destruct (Bar_atom_indices AB BA l) as [[[mi mj] mk]|e]; [|done].
    rewrite !result_bind_ok.
    destruct (index_select atom_attr mi) as [ai|e] eqn:Hi; [|done].
    rewrite !result_bind_ok.
    destruct (index_select atom_attr mj) as [aj|e] eqn:Hj; [|done].
    rewrite !result_bind_ok.
    destruct (index_select atom_attr mk) as [ak|e] eqn:Hk; [|done].
    rewrite !result_bind_ok.
    destruct (cat2 ai aj) as [aij|e] eqn:Hc; [|done]. rewrite !result_bind_ok.
    destruct (cat2 aij ak) as [aijk|e] eqn:Hc2; [|done]. rewrite !result_bind_ok.
    cbn [head_attr]. rewrite !result_bind_ok. unfold sized.
    cbn [head_mlp head_loss].
    rewrite expects_rectangular; [done|].
    change (MLP_input_size latent_size "Bar") with (latent_size * 3)%nat.
    replace (latent_size * 3)%nat
      with (latent_size + latent_size + latent_size)%nat by lia.
    eapply cat2_rectangular; [| |exact Hc2]; [|eauto].
    eapply cat2_rectangular; [| |exact Hc]; eauto.
  - unfold _get_Dar_loss.
    destruct (tensor_arg ids) as [l|e]; [|done]. rewrite !result_bind_ok.
    destruct (Dar_atom_indices AB BA AD l) as [[[[mi mj] mk] ml]|e]; [|done].
    rewrite !result_bind_ok.
    destruct (index_select atom_attr mi) as [ai|e] eqn:Hi; [|done].
    rewrite !result_bind_ok.
    destruct (index_select atom_attr mj) as [aj|e] eqn:Hj; [|done].
    rewrite !result_bind_ok.
    destruct (index_select atom_attr mk) as [ak|e] eqn:Hk; [|done].
    rewrite !result_bind_ok.
    destruct (index_select atom_attr ml) as [al|e] eqn:Hl; [|done].
    rewrite !result_bind_ok.
    destruct (cat2 ai aj) as [aij|e] eqn:Hc; [|done]. rewrite !result_bind_ok.
    destruct (cat2 aij ak) as [aijk|e] eqn:Hc2; [|done]. rewrite !result_bind_ok.
    destruct (cat2 aijk al) as [aijkl|e] eqn:Hc3; [|done]. rewrite !result_bind_ok.
    cbn [head_attr]. rewrite !result_bind_ok. unfold sized.
    cbn [head_mlp head_loss].
    rewrite expects_rectangular; [done|].
    change (MLP_input_size latent_size "Dar") with (latent_size * 4)%nat.
    replace (latent_size * 4)%nat
      with (latent_size + latent_size + latent_size + latent_size)%nat by lia.
    eapply cat2_rectangular; [| |exact Hc3]; [|eauto].
    eapply cat2_rectangular; [| |exact Hc2]; [|eauto].
    eapply cat2_rectangular; [| |exact Hc]; eauto.
  - intros task Htask.
    assert (Hsize : MLP_input_size latent_size task = latent_size).
    { rewrite !elem_of_cons, elem_of_nil in Htask.
      destruct Htask as [->|[->|[->|[->|[]]]]]; reflexivity. }
    rewrite Hsize. unfold _get_charge_loss.
    destruct (tensor_arg ids) as [l|e]; [|done]. rewrite !result_bind_ok.
    destruct (index_select atom_attr l) as [ai|e] eqn:Hi; [|done].
    rewrite !result_bind_ok.
    cbn [head_attr]. rewrite !result_bind_ok. unfold sized.
    cbn [head_mlp head_loss].
    rewrite expects_rectangular; [done | eauto].
Qed.

Lemma heads_get_declared_width_witness :
  _get_Dar_loss (Some (sized 8 (Head Demo.sum_mlp Demo.square_loss)))
    Demo.atom_attr [Demo.of_Z 1] [(0, 1); (1, 2); (2, 3)] [(0, 1); (1, 2)] [(0, 1)]
    (Some [0])
  = _get_Dar_loss (Some (Head Demo.sum_mlp Demo.square_loss))
      Demo.atom_attr [Demo.of_Z 1] [(0, 1); (1, 2); (2, 3)] [(0, 1); (1, 2)] [(0, 1)]
      (Some [0]).
Proof.
  refine (proj1 (proj2 (proj2 (heads_get_declared_width 2
            (Head Demo.sum_mlp Demo.square_loss) Demo.atom_attr [Demo.of_Z 1]
            [(0, 1); (1, 2); (2, 3)] [(0, 1); (1, 2)] [(0, 1)] (Some [0]) _)))).
  repeat constructor.
Defined.
